(** * A boundary-tag heap: slabs, first-fit placement, coalescing

    Shallow embedding of [heap.cpp] / [heap.hpp].

    Platform assumptions, as for the x86-64 Linux build the repository
    targets: [sizeof(void* ) = sizeof(size_t) = 8], [sizeof(HeapHeader) = 8],
    little-endian byte order, [size_t] arithmetic modulo [2^64] and [u32]
    arithmetic modulo [2^32].  Under these the [static_assert] on
    [sizeof(HeapBlock)] holds.

    Memory is modelled at byte granularity.  The data area [m_data] of a
    block is addressed by offsets; an access through a header pointer that
    leaves [m_data] (or that is null) is undefined behaviour in the source
    and is reported here as the outcome [WildAccess]. *)

From Stdlib Require Import ZArith List Bool Lia String.
From stdpp Require Import base gmap.
Import ListNotations.
Local Open Scope Z_scope.

(** ** Machine integers *)

Definition wrap64 (z : Z) : Z := z mod 2 ^ 64.   (* size_t *)
Definition wrap32 (z : Z) : Z := z mod 2 ^ 32.   (* u32 *)

(** [~x] on a 64-bit operand. *)
Definition not64 (x : Z) : Z := wrap64 (Z.lnot x).

Definition sizeof_ptr : Z := 8.            (* sizeof(void* ), sizeof(size_t) *)
Definition sizeof_HeapHeader : Z := 8.
Definition heap_block_size : Z := Z.shiftl 1 14.
Definition sizeof_HeapBlock : Z := heap_block_size.
(** [sizeof(m_data)] *)
Definition sizeof_m_data : Z := heap_block_size - sizeof_ptr * 2.
(** Offset of [m_data] inside a [HeapBlock]: after [m_prev] and [m_next]. *)
Definition offsetof_m_data : Z := sizeof_ptr * 2.

(** ** Signatures and headers *)

Inductive Signature : Type :=
| Used | Empty | EndEdge | Freed | BigBlock | ScrubBytes.

Definition sig_value (s : Signature) : Z :=
  match s with
  | Used => 0x2137D05A
  | Empty => 0xE5425696
  | EndEdge => 0xE57F402D
  | Freed => 0x2137DEAD
  | BigBlock => 0xB16C8056
  | ScrubBytes => 0xDEDEDEDE
  end.

(** A header as it sits in memory: the signature is whatever 32-bit pattern
    is found there. *)
Record HeapHeader : Type := mkHeader { signature : Z; size : Z }.

Definition header_of (s : Signature) (sz : Z) : HeapHeader :=
  mkHeader (sig_value s) sz.

(** [HeapHeader::next]: the offset of the following header, [None] for
    [nullptr]. *)
Definition next (off : Z) (h : HeapHeader) : option Z :=
  if size h =? 0 then None else Some (off + size h + sizeof_HeapHeader).

Definition valid_signature (h : HeapHeader) : bool :=
  (signature h =? sig_value BigBlock)
  || (signature h =? sig_value Empty)
  || (signature h =? sig_value Used)
  || (signature h =? sig_value EndEdge)
  || (signature h =? sig_value Freed).

Definition available (h : HeapHeader) : bool :=
  (signature h =? sig_value Empty) || (signature h =? sig_value Freed).

Definition freed (h : HeapHeader) : bool :=
  signature h =? sig_value Freed.

Definition signature_string (h : HeapHeader) : option string :=
  if signature h =? sig_value Used then Some "USED"%string
  else if signature h =? sig_value Empty then Some "EMPTY"%string
  else if signature h =? sig_value EndEdge then Some "END_EDGE"%string
  else if signature h =? sig_value Freed then Some "FREED"%string
  else if signature h =? sig_value BigBlock then Some "BIG_BLOCK"%string
  else if signature h =? sig_value ScrubBytes then Some "SCRUB_BYTES"%string
  else None.

(** ** Byte memory *)

(** The bytes of one object, by offset. *)
Definition mem : Type := Z -> Z.

Definition load32 (m : mem) (a : Z) : Z :=
  m a + 2 ^ 8 * m (a + 1) + 2 ^ 16 * m (a + 2) + 2 ^ 24 * m (a + 3).

Definition byte_of (v : Z) (i : Z) : Z := (v / 2 ^ (8 * i)) mod 2 ^ 8.

Definition store32 (m : mem) (a v : Z) : mem :=
  fun x => if (a <=? x) && (x <? a + 4) then byte_of v (x - a) else m x.

(** [memset(m + a, c, n)] *)
Definition memset (m : mem) (a c n : Z) : mem :=
  fun x => if (a <=? x) && (x <? a + n) then c mod 2 ^ 8 else m x.

Definition read_header (m : mem) (off : Z) : HeapHeader :=
  mkHeader (load32 m off) (load32 m (off + 4)).

Definition write_signature (m : mem) (off : Z) (s : Signature) : mem :=
  store32 m off (sig_value s).

Definition write_size (m : mem) (off : Z) (sz : Z) : mem :=
  store32 m (off + 4) sz.

Definition write_header (m : mem) (off : Z) (s : Signature) (sz : Z) : mem :=
  write_size (write_signature m off s) off sz.

(** A header pointer may be dereferenced when the whole header lies inside
    [m_data]. *)
Definition in_data (off : Z) : bool :=
  (0 <=? off) && (off + sizeof_HeapHeader <=? sizeof_m_data).

(** ** [HeapBlock::place_edge_headers] and [HeapBlock::init] *)

Definition place_edge_headers (m : mem) : mem :=
  let m := write_header m 0 Empty (sizeof_m_data - sizeof_HeapHeader * 2) in
  write_header m (sizeof_m_data - sizeof_HeapHeader) EndEdge 0.

Definition init (m : mem) : mem :=
  let m := place_edge_headers m in
  memset m sizeof_HeapHeader 0xef (sizeof_m_data - sizeof_HeapHeader * 2).

(** Storage as the operating system hands it out, and as static storage
    starts: all zero. *)
Definition zero_mem : mem := fun _ => 0.

(** ** The first-fit walk of [HeapBlock::alloc] over one block *)

Inductive alloc_step : Type :=
| Allocated (m : mem) (off : Z)
    (* a region was split at header offset [off]; [header + 1] is returned *)
| EndOfBlock
    (* the [EndEdge] header was reached: the request goes to [m_next] *)
| NoSuitableBlock
    (* the loop was left through [next() == nullptr] *)
| InvalidSignature (sig : Z) (off : Z)
    (* [abort()] after the invalid-signature diagnostic *)
| AllocWild
| AllocOutOfFuel.

Fixpoint alloc_walk (fuel : nat) (m : mem) (off : Z) (sz : Z) : alloc_step :=
  match fuel with
  | O => AllocOutOfFuel
  | S fuel' =>
    if negb (in_data off) then AllocWild else
    let header := read_header m off in
    if negb (valid_signature header) then
      InvalidSignature (signature header) off
    else if available header
            && negb (size header <? wrap64 (sz + sizeof_HeapHeader * 2)) then
      let distance_to_next_header :=
        wrap64 (size header - sz - sizeof_HeapHeader) in
      let m := write_signature m off Used in
      let m := write_size m off (wrap32 sz) in
      match next off (read_header m off) with
      | None => AllocWild            (* placement new at nullptr *)
      | Some new_header_address =>
        if in_data new_header_address then
          Allocated (write_header m new_header_address Empty
                       (wrap32 distance_to_next_header)) off
        else AllocWild
      end
    else if signature header =? sig_value EndEdge then EndOfBlock
    else
      match next off header with
      | None => NoSuitableBlock
      | Some off' => alloc_walk fuel' m off' sz
      end
  end.

(** Every loop over the headers of a block advances by at least the header
    size, so this many iterations are never exhausted inside [m_data]. *)
Definition walk_fuel : nat := Z.to_nat sizeof_m_data.

Definition fresh_data : mem := init zero_mem.

(** ** The two loops of [HeapBlock::merge_and_cleanup] over one block *)

Inductive merge_step (A : Type) : Type :=
| MergeDone (a : A)
| MergeWild
| MergeOutOfFuel.
Arguments MergeDone {A} a.
Arguments MergeWild {A}.
Arguments MergeOutOfFuel {A}.

(** The inner loop: [off] is [header], [sz] the size accumulated so far.
    It yields the accumulated size and the header the outer loop goes on
    with ([None] for [nullptr]). *)
Fixpoint merge_run (fuel : nat) (m : mem) (off : Z) (sz : Z)
  : merge_step (Z * option Z) :=
  match fuel with
  | O => MergeOutOfFuel
  | S fuel' =>
    match next off (read_header m off) with
    | None => MergeDone (sz, None)
    | Some next_header =>
      if negb (in_data next_header) then MergeWild
      else if available (read_header m next_header) then
        merge_run fuel' m next_header
          (wrap64 (sz + size (read_header m next_header) + sizeof_HeapHeader))
      else MergeDone (sz, Some next_header)
    end
  end.

(** The outer loop. *)
Fixpoint merge_scan (fuel : nat) (m : mem) (off : Z) : merge_step mem :=
  match fuel with
  | O => MergeOutOfFuel
  | S fuel' =>
    if negb (in_data off) then MergeWild else
    let header := read_header m off in
    if available header then
      match merge_run walk_fuel m off (size header) with
      | MergeDone (sz, header') =>
        let m := write_size m off (wrap32 sz) in
        match header' with
        | None => MergeDone m
        | Some off' => merge_scan fuel' m off'
        end
      | MergeWild => MergeWild
      | MergeOutOfFuel => MergeOutOfFuel
      end
    else
      match next off header with
      | None => MergeDone m
      | Some off' => merge_scan fuel' m off'
      end
  end.

(** ** Blocks, the process state, outcomes *)

(** Pointers are addresses; [0] is [nullptr]. *)
Record HeapBlock : Type := mkBlock { m_prev : Z; m_next : Z; m_data : mem }.

(** What the program writes to its output, one constructor per message. *)
Inductive event : Type :=
| AllocInvalidAlign
| AllocAssertFailed
| AllocInvalidSignature (sig addr : Z)
| AllocNoSuitableBlock
| AllocMmapError
| MallocMmapError
| FreeNotAllocated (addr : Z)
| FreeAlreadyFreed
| FreeInvalidSignature (sig addr : Z)
| FreeBigBlock
| FreeNotInitialized
| LeakCheckStart (this : Z)
| LeakCheckLeaked (sz addr : Z)
| LeakCheckCorrupted (addr : Z)
| LeakCheckNoLeak (this : Z)
| DumpHeap (this nxt : Z)
| DumpCorrupted (addr sig : Z)
| DumpRegion (off sz : Z) (nxt : option Z) (avail fr : bool)
    (name : option string) (addr : Z)
| DumpBegin
| DumpNotInitialized
| DumpEnd.

Inductive outcome (A : Type) : Type :=
| Returned (a : A)
| Aborted        (* [abort()]; the diagnostic is the last event written *)
| WildAccess     (* access through a dangling, null or out-of-range pointer *)
| OutOfFuel.
Arguments Returned {A} a.
Arguments Aborted {A}.
Arguments WildAccess {A}.
Arguments OutOfFuel {A}.

(** [mmap] is the environment's: [mmap_results n] is what its [n]-th call
    returns.  [munmap] of a whole live mapping succeeds. *)
Record heap : Type := mkHeap {
  blocks : gmap Z HeapBlock;            (* the live [HeapBlock] objects *)
  big_blocks : gmap Z (Z * mem);        (* oversized mappings: length, bytes *)
  g_heap_storage : Z;                   (* address of the static root block *)
  g_heap_initialized : bool;
  mmap_results : nat -> Z;
  mmap_calls : nat;
  stdout : list event
}.

Definition MAP_FAILED : Z := 2 ^ 64 - 1.

Definition set_blocks (h : heap) (bs : gmap Z HeapBlock) : heap :=
  mkHeap bs (big_blocks h) (g_heap_storage h) (g_heap_initialized h)
    (mmap_results h) (mmap_calls h) (stdout h).

Definition set_block (h : heap) (a : Z) (b : HeapBlock) : heap :=
  set_blocks h (<[a := b]> (blocks h)).

Definition set_data (h : heap) (a : Z) (b : HeapBlock) (m : mem) : heap :=
  set_block h a (mkBlock (m_prev b) (m_next b) m).

Definition print (e : event) (h : heap) : heap :=
  mkHeap (blocks h) (big_blocks h) (g_heap_storage h) (g_heap_initialized h)
    (mmap_results h) (mmap_calls h) (stdout h ++ [e]).

(** One call of [mmap]: the address returned and the state after it. *)
Definition mmap (h : heap) : Z * heap :=
  (mmap_results h (mmap_calls h),
   mkHeap (blocks h) (big_blocks h) (g_heap_storage h) (g_heap_initialized h)
     (mmap_results h) (S (mmap_calls h)) (stdout h)).

(** [HeapBlock::HeapBlock(prev)] on zeroed storage. *)
Definition HeapBlock_new (prev : Z) : HeapBlock :=
  mkBlock prev 0 (init zero_mem).

Definition data_address (this : Z) : Z := this + offsetof_m_data.

(** ** [HeapBlock::ensure_next_allocated_from_os] *)

Definition ensure_next_allocated_from_os (h : heap) (this : Z)
  : heap * outcome unit :=
  match blocks h !! this with
  | None => (h, WildAccess)
  | Some b =>
    if m_next b =? 0 then
      let '(memory, h) := mmap h in
      if memory =? 0 then (print AllocMmapError h, Aborted)
      else if memory =? MAP_FAILED then (h, WildAccess)
      else
        let h := set_block h this (mkBlock (m_prev b) memory (m_data b)) in
        let h := set_block h memory (HeapBlock_new this) in
        (h, Returned tt)
    else (h, Returned tt)
  end.

(** ** [HeapBlock::merge_and_cleanup] *)

Definition merge_and_cleanup (h : heap) (this : Z) : heap * outcome unit :=
  match blocks h !! this with
  | None => (h, WildAccess)
  | Some b =>
    match merge_scan walk_fuel (m_data b) 0 with
    | MergeWild => (h, WildAccess)
    | MergeOutOfFuel => (h, OutOfFuel)
    | MergeDone m =>
      let h := set_data h this b m in
      let header := read_header m 0 in
      if available header
         && (size header =? sizeof_m_data - sizeof_HeapHeader * 2) then
        if negb (m_prev b =? 0) then
          let relink_next :=
            if negb (m_next b =? 0) then
              match blocks h !! m_next b with
              | None => None
              | Some n =>
                Some (set_block h (m_next b)
                        (mkBlock (m_prev b) (m_next n) (m_data n)))
              end
            else Some h in
          match relink_next with
          | None => (h, WildAccess)
          | Some h =>
            match blocks h !! m_prev b with
            | None => (h, WildAccess)
            | Some p =>
              let h := set_block h (m_prev b)
                         (mkBlock (m_prev p) (m_next b) (m_data p)) in
              (* munmap(this, sizeof(HeapBlock)) *)
              (set_blocks h (delete this (blocks h)), Returned tt)
            end
          end
        else (h, Returned tt)
      else (h, Returned tt)
    end
  end.

(** ** [HeapBlock::alloc] *)

(** The size after "Align size", for the alignment already raised to at
    least [sizeof(size_t)]. *)
Definition aligned_size (sz align : Z) : Z :=
  let old_size := sz in
  let sz := Z.land sz (not64 (wrap64 (align - 1))) in
  if negb (sz =? old_size) then wrap64 (sz + align) else sz.

Fixpoint HeapBlock_alloc (fuel : nat) (h : heap) (this : Z) (sz align : Z)
  : heap * outcome Z :=
  if align =? 0 then (print AllocInvalidAlign h, Returned 0)
  else
    let align := Z.max sizeof_ptr align in
    let old_size := sz in
    let sz := aligned_size sz align in
    if negb (old_size <=? sz) then (print AllocAssertFailed h, Aborted)
    else
      match blocks h !! this with
      | None => (h, WildAccess)
      | Some b =>
        match alloc_walk walk_fuel (m_data b) 0 sz with
        | Allocated m off =>
          (set_data h this b m,
           Returned (data_address this + off + sizeof_HeapHeader))
        | InvalidSignature sig off =>
          (print (AllocInvalidSignature sig (data_address this + off)) h,
           Aborted)
        | EndOfBlock =>
          match ensure_next_allocated_from_os h this with
          | (h, Returned _) =>
            match blocks h !! this with
            | None => (h, WildAccess)
            | Some b =>
              match fuel with
              | O => (h, OutOfFuel)
              | S fuel' => HeapBlock_alloc fuel' h (m_next b) sz align
              end
            end
          | (h, Aborted) => (h, Aborted)
          | (h, WildAccess) => (h, WildAccess)
          | (h, OutOfFuel) => (h, OutOfFuel)
          end
        | NoSuitableBlock => (print AllocNoSuitableBlock h, Returned 0)
        | AllocWild => (h, WildAccess)
        | AllocOutOfFuel => (h, OutOfFuel)
        end
      end.

(** ** [HeapBlock::free] *)

Fixpoint HeapBlock_free (fuel : nat) (h : heap) (this : Z) (addr : Z)
  : heap * outcome unit :=
  match blocks h !! this with
  | None => (h, WildAccess)
  | Some b =>
    if (addr <? data_address this)
       || (data_address this + sizeof_m_data <=? addr) then
      if negb (m_next b =? 0) then
        match fuel with
        | O => (h, OutOfFuel)
        | S fuel' => HeapBlock_free fuel' h (m_next b) addr
        end
      else (print (FreeNotAllocated addr) h, Aborted)
    else
      let off := addr - sizeof_HeapHeader - data_address this in
      (* below [m_data] the header pointer would alias the link fields *)
      if negb (in_data off) then (h, WildAccess) else
      let header := read_header (m_data b) off in
      if freed header then (print FreeAlreadyFreed h, Aborted)
      else if negb (valid_signature header) then
        (print (FreeInvalidSignature (signature header)
                  (data_address this + off)) h, Aborted)
      else
        let h := set_data h this b (write_signature (m_data b) off Freed) in
        merge_and_cleanup h this
  end.

(** ** [HeapBlock::leak_check] and [HeapBlock::dump] *)

(** The loop of [leak_check] over one block: the lines written and the
    final [leak_found]. *)
Fixpoint leak_walk (fuel : nat) (m : mem) (base : Z) (off : Z)
    (leak_found : bool) : merge_step (list event * bool) :=
  match fuel with
  | O => MergeOutOfFuel
  | S fuel' =>
    if negb (in_data off) then MergeWild else
    let header := read_header m off in
    if signature header =? sig_value Used then
      let '(out, leak_found) :=
        if 0 <? size header then
          ([LeakCheckLeaked (size header) (base + off + sizeof_HeapHeader)],
           true)
        else ([], leak_found) in
      match next off header with
      | None => MergeDone (out, leak_found)
      | Some off' =>
        match leak_walk fuel' m base off' leak_found with
        | MergeDone (out', lf) => MergeDone (out ++ out', lf)
        | r => r
        end
      end
    else if negb (valid_signature header) then
      MergeDone ([LeakCheckCorrupted (base + off)], true)
    else
      match next off header with
      | None => MergeDone ([], leak_found)
      | Some off' => leak_walk fuel' m base off' leak_found
      end
  end.

Fixpoint leak_check (fuel : nat) (h : heap) (this : Z) : heap * outcome unit :=
  match blocks h !! this with
  | None => (h, WildAccess)
  | Some b =>
    let h := print (LeakCheckStart this) h in
    match leak_walk walk_fuel (m_data b) (data_address this) 0 false with
    | MergeWild => (h, WildAccess)
    | MergeOutOfFuel => (h, OutOfFuel)
    | MergeDone (out, leak_found) =>
      let h := fold_left (fun h e => print e h) out h in
      let after_next :=
        if negb (m_next b =? 0) then
          match fuel with
          | O => (h, OutOfFuel)
          | S fuel' => leak_check fuel' h (m_next b)
          end
        else (h, Returned tt) in
      match after_next with
      | (h, Returned _) =>
        if negb leak_found then (print (LeakCheckNoLeak this) h, Returned tt)
        else (h, Returned tt)
      | r => r
      end
    end
  end.

(** The loop of [dump] over one block: the lines written, and whether it
    ran into [abort()]. *)
Fixpoint dump_walk (fuel : nat) (m : mem) (base : Z) (off : Z)
  : merge_step (list event * bool) :=
  match fuel with
  | O => MergeOutOfFuel
  | S fuel' =>
    if negb (in_data off) then MergeWild else
    let header := read_header m off in
    if negb (valid_signature header) then
      MergeDone ([DumpCorrupted (base + off) (signature header)], true)
    else
      let line :=
        DumpRegion off (size header)
          (next off header) (available header) (freed header)
          (signature_string header) (base + off + sizeof_HeapHeader) in
      match next off header with
      | None => MergeDone ([line], false)
      | Some off' =>
        match dump_walk fuel' m base off' with
        | MergeDone (out, ab) => MergeDone (line :: out, ab)
        | r => r
        end
      end
  end.

Fixpoint dump (fuel : nat) (h : heap) (this : Z) : heap * outcome unit :=
  match blocks h !! this with
  | None => (h, WildAccess)
  | Some b =>
    let h := print (DumpHeap this (m_next b)) h in
    match dump_walk walk_fuel (m_data b) (data_address this) 0 with
    | MergeWild => (h, WildAccess)
    | MergeOutOfFuel => (h, OutOfFuel)
    | MergeDone (out, aborted) =>
      let h := fold_left (fun h e => print e h) out h in
      if aborted then (h, Aborted)
      else if negb (m_next b =? 0) then
        match fuel with
        | O => (h, OutOfFuel)
        | S fuel' => dump fuel' h (m_next b)
        end
      else (h, Returned tt)
    end
  end.

(** ** [my_malloc] *)

Definition lazy_init (h : heap) : heap :=
  if g_heap_initialized h then h
  else
    mkHeap (<[g_heap_storage h := HeapBlock_new 0]> (blocks h))
      (big_blocks h) (g_heap_storage h) true
      (mmap_results h) (mmap_calls h) (stdout h).

Definition my_malloc (fuel : nat) (h : heap) (sz align : Z)
  : heap * outcome Z :=
  let h := lazy_init h in
  if sizeof_HeapBlock - sizeof_HeapHeader <? sz then
    let '(memory, h) := mmap h in
    if memory =? 0 then (print MallocMmapError h, Returned 0)
    else if memory =? MAP_FAILED then (h, WildAccess)
    else
      let bytes := write_signature zero_mem 0 BigBlock in
      let bytes := write_size bytes 0 (wrap32 (sz + sizeof_HeapHeader)) in
      (mkHeap (blocks h)
         (<[memory := (wrap64 (sz + sizeof_HeapHeader), bytes)]> (big_blocks h))
         (g_heap_storage h) (g_heap_initialized h)
         (mmap_results h) (mmap_calls h) (stdout h),
       Returned (memory + sizeof_HeapHeader))
  else HeapBlock_alloc fuel h (g_heap_storage h) sz align.

(** ** [my_free] *)

(** The 32-bit word at the address [a], read from the object that holds it:
    the data area of a live block or an oversized mapping.  [None]: the four
    bytes lie in no memory the allocator has mapped. *)
Definition in_block (a : Z) (kb : Z * HeapBlock) : bool :=
  (data_address (fst kb) <=? a)
  && (a + 4 <=? data_address (fst kb) + sizeof_m_data).

Definition in_big_block (a : Z) (kb : Z * (Z * mem)) : bool :=
  (fst kb <=? a) && (a + 4 <=? fst kb + fst (snd kb)).

Definition load_mapped (h : heap) (a : Z) : option Z :=
  match find (in_block a) (map_to_list (blocks h)) with
  | Some (this, b) => Some (load32 (m_data b) (a - data_address this))
  | None =>
    match find (in_big_block a) (map_to_list (big_blocks h)) with
    | Some (memory, (_, bytes)) => Some (load32 bytes (a - memory))
    | None => None
    end
  end.

(** [munmap(a, n)] as [my_free] calls it, the result ignored: an oversized
    mapping unmapped as a whole is gone.  Any other call (a length that is
    not the one mapped, an address that is not the start of an oversized
    mapping) is outside this model and reported as [WildAccess]. *)
Definition munmap (h : heap) (a n : Z) : heap * outcome unit :=
  match big_blocks h !! a with
  | Some (len, _) =>
    if n =? len then
      (mkHeap (blocks h) (delete a (big_blocks h)) (g_heap_storage h)
         (g_heap_initialized h) (mmap_results h) (mmap_calls h) (stdout h),
       Returned tt)
    else (h, WildAccess)
  | None => (h, WildAccess)
  end.

Definition my_free (fuel : nat) (h : heap) (addr : Z) : heap * outcome unit :=
  let header := addr - sizeof_HeapHeader in
  match load_mapped h header with
  | None => (h, WildAccess)
  | Some sig =>
    if sig =? sig_value BigBlock then
      let h := print FreeBigBlock h in
      match load_mapped h (header + 4) with
      | None => (h, WildAccess)
      | Some sz => munmap h header sz
      end
    else if negb (g_heap_initialized h) then
      (print FreeNotInitialized h, Aborted)
    else HeapBlock_free fuel h (g_heap_storage h) addr
  end.


(** ** [my_heap_dump] and [my_leak_check] *)

Definition my_heap_dump (fuel : nat) (h : heap) : heap * outcome unit :=
  let h := print DumpBegin h in
  if negb (g_heap_initialized h) then (print DumpNotInitialized h, Returned tt)
  else
    match dump fuel h (g_heap_storage h) with
    | (h, Returned _) => (print DumpEnd h, Returned tt)
    | r => r
    end.

Definition my_leak_check (fuel : nat) (h : heap) : heap * outcome unit :=
  leak_check fuel h (g_heap_storage h).

(** ** The region list of a block *)

(** A region proper: in use or available, with a payload. *)
Definition is_region (h : HeapHeader) : bool :=
  ((signature h =? sig_value Used) || available h) && (0 <? size h).

(** [layout m off l]: starting at [off] and stepping by header size plus
    byte length, memory holds exactly the headers [l], then the zero-length
    [EndEdge] header in the last eight bytes of [m_data]. *)
Fixpoint layout (m : mem) (off : Z) (l : list HeapHeader) : Prop :=
  match l with
  | [] =>
    read_header m off = header_of EndEdge 0
    /\ off = sizeof_m_data - sizeof_HeapHeader
  | h :: l' =>
    0 <= off /\ read_header m off = h /\ is_region h = true
    /\ layout m (off + sizeof_HeapHeader + size h) l'
  end.

(** Bytes taken by the regions [l], headers included. *)
Fixpoint span (l : list HeapHeader) : Z :=
  match l with
  | [] => 0
  | h :: l' => sizeof_HeapHeader + size h + span l'
  end.

(** The headers found by walking, when the walk ends at the end edge. *)
Fixpoint regions (fuel : nat) (m : mem) (off : Z) : option (list HeapHeader) :=
  match fuel with
  | O => None
  | S fuel' =>
    if negb (0 <=? off) then None else
    let h := read_header m off in
    if is_region h then
      match regions fuel' m (off + sizeof_HeapHeader + size h) with
      | Some l => Some (h :: l)
      | None => None
      end
    else if (signature h =? sig_value EndEdge) && (size h =? 0)
            && (off =? sizeof_m_data - sizeof_HeapHeader) then Some []
    else None
  end.

(** The region [r] of [l] has its header at [o], the first header of [l]
    being at [off]. *)
Fixpoint region_at (off : Z) (l : list HeapHeader) (o : Z) (r : HeapHeader)
  : Prop :=
  match l with
  | [] => False
  | h :: l' =>
    (o = off /\ r = h) \/ region_at (off + sizeof_HeapHeader + size h) l' o r
  end.

(** First fit on the region list: the offset of the region taken and the
    list after the split. *)
Fixpoint first_fit (off : Z) (l : list HeapHeader) (sz : Z)
  : option (Z * list HeapHeader) :=
  match l with
  | [] => None
  | h :: l' =>
    if available h && (sz + sizeof_HeapHeader * 2 <=? size h) then
      Some (off, header_of Used sz
                 :: header_of Empty (size h - sz - sizeof_HeapHeader) :: l')
    else
      match first_fit (off + sizeof_HeapHeader + size h) l' sz with
      | Some (o, r) => Some (o, h :: r)
      | None => None
      end
  end.

(** Coalescing on the region list, as the code does it: an available
    region absorbs the available regions that follow it. *)
Fixpoint absorb (sz : Z) (l : list HeapHeader) : Z * list HeapHeader :=
  match l with
  | h :: l' =>
    if available h then absorb (sz + size h + sizeof_HeapHeader) l'
    else (sz, l)
  | [] => (sz, [])
  end.

Fixpoint coalesce (l : list HeapHeader) : list HeapHeader :=
  match l with
  | [] => []
  | h :: l' =>
    match coalesce l' with
    | h' :: r =>
      if available h && available h' then
        mkHeader (signature h) (size h + size h' + sizeof_HeapHeader) :: r
      else h :: h' :: r
    | [] => [h]
    end
  end.





(** No two neighbours are both available. *)
Fixpoint coalesced (l : list HeapHeader) : Prop :=
  match l with
  | h :: ((h' :: _) as l') =>
    (available h && available h' = false) /\ coalesced l'
  | _ => True
  end.

(** The region whose header is at [o] marked [Freed]. *)
Fixpoint mark_freed (off : Z) (l : list HeapHeader) (o : Z)
  : list HeapHeader :=
  match l with
  | [] => []
  | h :: l' =>
    if o =? off then mkHeader (sig_value Freed) (size h) :: l'
    else h :: mark_freed (off + sizeof_HeapHeader + size h) l' o
  end.

(** ** What the diagnostics write *)

(** The lines of [leak_check] for the regions [l] of a block, the first
    header at offset [off]: one for each region in use. *)
Fixpoint leak_lines (base off : Z) (l : list HeapHeader) : list event :=
  match l with
  | [] => []
  | h :: l' =>
    (if signature h =? sig_value Used then
       [LeakCheckLeaked (size h) (base + off + sizeof_HeapHeader)]
     else [])
    ++ leak_lines base (off + sizeof_HeapHeader + size h) l'
  end.

Definition has_used (l : list HeapHeader) : bool :=
  existsb (fun h => signature h =? sig_value Used) l.

(** The lines of [leak_check] for a chain, given as the blocks' addresses
    with their regions: the line that closes a block comes after the lines
    of the blocks behind it. *)
Fixpoint leak_report (l : list (Z * list HeapHeader)) : list event :=
  match l with
  | [] => []
  | (a, regs) :: l' =>
    LeakCheckStart a :: leak_lines (data_address a) 0 regs
    ++ leak_report l'
    ++ (if has_used regs then [] else [LeakCheckNoLeak a])
  end.

(** The line of [dump] for the header [h] at offset [off]. *)
Definition dump_line (base off : Z) (h : HeapHeader) : event :=
  DumpRegion off (size h) (next off h) (available h) (freed h)
    (signature_string h) (base + off + sizeof_HeapHeader).

(** The lines of [dump] for the regions [l] of a block: one for each region
    and one for the end edge. *)
Fixpoint dump_lines (base off : Z) (l : list HeapHeader) : list event :=
  match l with
  | [] => [dump_line base off (header_of EndEdge 0)]
  | h :: l' =>
    dump_line base off h :: dump_lines base (off + sizeof_HeapHeader + size h) l'
  end.

(** The lines of [dump] for a chain: [nxt] is what follows the chain. *)
Fixpoint dump_report (l : list (Z * list HeapHeader)) (nxt : Z) : list event :=
  match l with
  | [] => []
  | (a, regs) :: l' =>
    DumpHeap a (hd nxt (map fst l')) :: dump_lines (data_address a) 0 regs
    ++ dump_report l' nxt
  end.

(** [out] written to the output. *)
Definition print_all (out : list event) (h : heap) : heap :=
  fold_left (fun h e => print e h) out h.

(** The blocks at [map fst l] have the regions [map snd l]. *)
Definition regions_of (h : heap) (l : list (Z * list HeapHeader)) : Prop :=
  Forall (fun ar => exists b, blocks h !! fst ar = Some b
                              /\ layout (m_data b) 0 (snd ar)) l.

(** ** The chain of blocks *)

(** [chain bs prev l nxt]: the blocks at the addresses [l] are linked in
    this order, the first one having [prev] before it and the last one [nxt]
    after it. *)
Fixpoint chain (bs : gmap Z HeapBlock) (prev : Z) (l : list Z) (nxt : Z)
  : Prop :=
  match l with
  | [] => True
  | a :: l' =>
    a <> 0
    /\ exists b, bs !! a = Some b /\ m_prev b = prev /\ m_next b = hd nxt l'
                /\ chain bs a l' nxt
  end.

(** The blocks do not overlap. *)
Fixpoint separated (l : list Z) : Prop :=
  match l with
  | [] => True
  | a :: l' =>
    Forall (fun a' => a + sizeof_HeapBlock <= a' \/ a' + sizeof_HeapBlock <= a) l'
    /\ separated l'
  end.

(** [addr] points into the data area of the block at [this]. *)
Definition in_block_data (this addr : Z) : Prop :=
  data_address this <= addr < data_address this + sizeof_m_data.

(** The heap once initialised: the chain [l] starts at the root block, and
    every block of it has a region list. *)
Definition wf_heap (h : heap) (l : list Z) : Prop :=
  hd_error l = Some (g_heap_storage h)
  /\ chain (blocks h) 0 l 0
  /\ separated l
  /\ (forall a b, a ∈ l -> blocks h !! a = Some b ->
                  exists regs, layout (m_data b) 0 regs).

(** The block consists of one available region. *)
Definition fully_empty (l : list HeapHeader) : Prop :=
  exists h, l = [h] /\ available h = true.

(** [addr] is the payload address of a region in use of the block at
    [this], whose header is at offset [off]: an address [alloc] has returned
    and [free] has not been given since. *)
Definition live_at (h : heap) (this : Z) (regs : list HeapHeader) (off : Z)
    (addr : Z) : Prop :=
  exists b r,
    blocks h !! this = Some b
    /\ layout (m_data b) 0 regs
    /\ region_at 0 regs off r
    /\ signature r = sig_value Used
    /\ addr = data_address this + off + sizeof_HeapHeader.

(** ** The data of a block under the operations of the heap *)

(** The layout invariant: the headers found by stepping from offset 0 cut
    the data area into regions, the bytes they take add up to the capacity
    less the end edge, and the end edge sits in the last eight bytes. *)
Definition layout_inv (m : mem) : Prop :=
  exists regs,
    layout m 0 regs
    /\ span regs + sizeof_HeapHeader = sizeof_m_data
    /\ read_header m (sizeof_m_data - sizeof_HeapHeader) = header_of EndEdge 0.

(** What [alloc] and [free] do to the data area of the block they settle
    in: a request is placed, or a region that is not yet freed is marked and
    the block coalesced. *)
Inductive step : mem -> mem -> Prop :=
| step_alloc (m m' : mem) (sz off : Z) :
    0 <= sz < 2 ^ 64 ->
    alloc_walk walk_fuel m 0 sz = Allocated m' off ->
    step m m'
| step_free (m m' : mem) (regs : list HeapHeader) (off : Z) (r : HeapHeader) :
    layout m 0 regs -> region_at 0 regs off r -> freed r = false ->
    merge_scan walk_fuel (write_signature m off Freed) 0 = MergeDone m' ->
    step m m'.

(** The states the data area of a block goes through, from [init] on. *)
Inductive reachable : mem -> Prop :=
| reach_init (m0 : mem) : reachable (init m0)
| reach_step (m m' : mem) : reachable m -> step m m' -> reachable m'.

(** The environment never fails and never hands out an address twice, nor
    the address [this]. *)
Definition fresh_mmap (h : heap) (this : Z) : Prop :=
  (forall n, (mmap_calls h <= n)%nat ->
     mmap_results h n <> 0 /\ mmap_results h n <> MAP_FAILED
     /\ mmap_results h n <> this)
  /\ (forall n n', (mmap_calls h <= n)%nat -> (n < n')%nat ->
        mmap_results h n <> mmap_results h n').

(** The next mapping the environment hands out does not overlap a block of
    [l]. *)
Definition fresh_block (h : heap) (l : list Z) : Prop :=
  let memory := mmap_results h (mmap_calls h) in
  memory <> 0 /\ memory <> MAP_FAILED
  /\ Forall (fun a => a + sizeof_HeapBlock <= memory
                      \/ memory + sizeof_HeapBlock <= a) l.

(** ** Histories *)

(** [served h live]: the state [h] is reached by calls of [my_malloc] and
    [my_free] from the start of the process, and [live] are the addresses
    [my_malloc] has returned and [my_free] has not been given since.  The
    requests are for sizes a block can hold, with an alignment that is a
    power of two; the environment maps memory that overlaps no block of the
    chain, and only live addresses are freed. *)
Inductive served : heap -> list Z -> Prop :=
| served_init (h : heap) :
    g_heap_initialized h = false -> g_heap_storage h <> 0 ->
    blocks h = ∅ -> big_blocks h = ∅ ->
    served (lazy_init h) []
| served_alloc (h h' : heap) (live : list Z) (fuel : nat) (sz k p : Z) :
    served h live ->
    0 <= k < 64 -> 0 < sz <= 16336 ->
    aligned_size sz (Z.max sizeof_ptr (2 ^ k)) <= 16336 ->
    (forall l, wf_heap h l -> fresh_block h l /\ (length l <= fuel)%nat) ->
    my_malloc fuel h sz (2 ^ k) = (h', Returned p) ->
    served h' (p :: live)
| served_free (h h' : heap) (live : list Z) (fuel : nat) (p : Z) :
    served h live ->
    p ∈ live ->
    (forall l, wf_heap h l -> (length l <= S fuel)%nat) ->
    my_free fuel h p = (h', Returned tt) ->
    served h' (filter (fun q => q <> p) live).

(** What [alloc] and [free] leave alone. *)
Definition same_frame (h h' : heap) : Prop :=
  big_blocks h' = big_blocks h
  /\ g_heap_storage h' = g_heap_storage h
  /\ g_heap_initialized h' = g_heap_initialized h.

(** What holds of a served state: the heap is initialised, the live blocks
    are those of the chain, which is well formed, nothing else is mapped, and
    every live address is the payload of a region in use of a block of the
    chain. *)
Definition heap_inv (h : heap) (l : list Z) (live : list Z) : Prop :=
  wf_heap h l
  /\ g_heap_initialized h = true
  /\ big_blocks h = ∅
  /\ (forall a, is_Some (blocks h !! a) -> a ∈ l)
  /\ forall p, p ∈ live ->
       exists this regs off, this ∈ l /\ live_at h this regs off p.


(** Every region in use is one of the addresses [live]. *)
Definition used_inv (h : heap) (live : list Z) : Prop :=
  forall this b regs off r,
    blocks h !! this = Some b -> layout (m_data b) 0 regs ->
    region_at 0 regs off r -> signature r = sig_value Used ->
    data_address this + off + sizeof_HeapHeader ∈ live.

(** The regions of every block are coalesced, and no block but the root
    consists of one available region. *)
Definition tidy_inv (h : heap) : Prop :=
  forall this b regs,
    blocks h !! this = Some b -> layout (m_data b) 0 regs ->
    coalesced regs /\ (this <> g_heap_storage h -> ~ fully_empty regs).

(** The byte lengths of the regions of every block are multiples of
    eight. *)
Definition sizes_inv (h : heap) : Prop :=
  forall this b regs,
    blocks h !! this = Some b -> layout (m_data b) 0 regs ->
    Forall (fun r => (8 | size r)) regs.

(** ** A process at its start *)

(** An environment whose [mmap] hands out fresh page-aligned mappings. *)
Definition bump_mmap (n : nat) : Z := 0x7f0000000000 + Z.of_nat n * 0x100000.

Definition heap0 : heap :=
  mkHeap ∅ ∅ 0x555555558000 false bump_mmap 0 [].

(** The state of a process after [my_malloc(24)], [my_malloc(8)] and the
    release of the first of the two: the root block starts with a freed
    region of 24 bytes, followed by a region in use. *)
Definition hole_heap : heap :=
  let r1 := my_malloc 1 heap0 24 1 in
  let r2 := my_malloc 1 (fst r1) 8 1 in
  match snd r1 with
  | Returned p => fst (my_free 1 (fst r2) p)
  | _ => heap0
  end.

(** The block at [a], for states in which there is one. *)
Definition block_of (h : heap) (a : Z) : HeapBlock :=
  match blocks h !! a with
  | Some b => b
  | None => mkBlock 0 0 zero_mem
  end.

(** The data of a block after a request of [sz] bytes was placed in it. *)
Definition alloc_mem (m : mem) (sz : Z) : mem :=
  match alloc_walk walk_fuel m 0 sz with
  | Allocated m' _ => m'
  | _ => m
  end.

(** The state of a process after [my_malloc(8)]. *)
Definition one_alloc_heap : heap := fst (my_malloc 1 heap0 8 1).

(** The state of a process after [my_malloc(16336)], which fills the root
    block, and [my_malloc(8)], which is placed in a second block. *)
Definition two_block_heap : heap :=
  fst (my_malloc 1 (fst (my_malloc 1 heap0 16336 1)) 8 1).

(** The same with the header of the region in the second block marked
    [Freed], as [free] leaves it for [merge_and_cleanup]. *)
Definition two_block_marked : heap :=
  set_data two_block_heap (bump_mmap 0)
    (block_of two_block_heap (bump_mmap 0))
    (write_signature (m_data (block_of two_block_heap (bump_mmap 0))) 0 Freed).

(** The state of a process after [my_malloc(8)], as a history. *)
Definition served_heap : heap := fst (my_malloc 1 (lazy_init heap0) 8 (2 ^ 0)).

(** The state of a process after [my_malloc(8)] and [my_malloc(24)], as a
    history. *)
Definition two_alloc_heap : heap := fst (my_malloc 1 served_heap 24 (2 ^ 0)).







(** ** Reading back what was written *)

Ltac sizes :=
  unfold sizeof_HeapHeader, data_address, offsetof_m_data, sizeof_ptr in *;
  change sizeof_m_data with 16368 in *;
  change sizeof_HeapBlock with 16384 in *;
  lia.

Ltac zbool :=
  repeat match goal with
  | |- context [?x <=? ?y] => destruct (Z.leb_spec x y)
  | |- context [?x <? ?y] => destruct (Z.ltb_spec x y)
  | |- context [?x =? ?y] => destruct (Z.eqb_spec x y)
  end; simpl; try lia.

Lemma bytes_of_u32 (v : Z) :
  0 <= v < 2 ^ 32 ->
  byte_of v 0 + 2 ^ 8 * byte_of v 1 + 2 ^ 16 * byte_of v 2
    + 2 ^ 24 * byte_of v 3 = v.
Proof.
  intros Hv. unfold byte_of.
  change (8 * 0) with 0; change (8 * 1) with 8;
    change (8 * 2) with 16; change (8 * 3) with 24.
  change (2 ^ 0) with 1; change (2 ^ 8) with 256;
    change (2 ^ 16) with 65536; change (2 ^ 24) with 16777216;
    change (2 ^ 32) with 4294967296 in Hv.
  Z.div_mod_to_equations. lia.
Qed.

Lemma load32_store32_same (m : mem) (a v : Z) :
  0 <= v < 2 ^ 32 -> load32 (store32 m a v) a = v.
Proof.
  intros Hv. unfold load32, store32.
  replace (a - a) with 0 by lia.
  replace (a + 1 - a) with 1 by lia.
  replace (a + 2 - a) with 2 by lia.
  replace (a + 3 - a) with 3 by lia.
  zbool. now apply bytes_of_u32.
Qed.

Lemma load32_store32_other (m : mem) (a v a' : Z) :
  a' + 4 <= a \/ a + 4 <= a' -> load32 (store32 m a v) a' = load32 m a'.
Proof. intros H. unfold load32, store32. zbool. Qed.

Lemma load32_ext (m m' : mem) (a : Z) :
  (forall x, a <= x < a + 4 -> m' x = m x) -> load32 m' a = load32 m a.
Proof. intros H. unfold load32. rewrite !H by lia. reflexivity. Qed.

Lemma read_header_ext (m m' : mem) (off : Z) :
  (forall x, off <= x < off + 8 -> m' x = m x) ->
  read_header m' off = read_header m off.
Proof.
  intros H. unfold read_header.
  rewrite (load32_ext m m' off), (load32_ext m m' (off + 4)); auto.
  all: intros; apply H; lia.
Qed.

(** ** Headers read back *)

Lemma read_write_signature (m : mem) (off : Z) (s : Signature) :
  read_header (write_signature m off s) off
  = mkHeader (sig_value s) (size (read_header m off)).
Proof.
  unfold read_header, write_signature. simpl. f_equal.
  - apply load32_store32_same. destruct s; simpl; lia.
  - apply load32_store32_other. lia.
Qed.

Lemma read_write_size (m : mem) (off v : Z) :
  0 <= v < 2 ^ 32 ->
  read_header (write_size m off v) off
  = mkHeader (signature (read_header m off)) v.
Proof.
  intros Hv. unfold read_header, write_size. simpl. f_equal.
  - apply load32_store32_other. lia.
  - now apply load32_store32_same.
Qed.

Lemma read_write_header (m : mem) (off : Z) (s : Signature) (v : Z) :
  0 <= v < 2 ^ 32 ->
  read_header (write_header m off s v) off = header_of s v.
Proof.
  intros Hv. unfold write_header.
  rewrite read_write_size, read_write_signature; auto.
Qed.

Lemma write_signature_other (m : mem) (off : Z) (s : Signature) (x : Z) :
  x < off \/ off + 4 <= x -> write_signature m off s x = m x.
Proof. intros H. unfold write_signature, store32. zbool. Qed.

Lemma write_size_other (m : mem) (off v x : Z) :
  x < off + 4 \/ off + 8 <= x -> write_size m off v x = m x.
Proof. intros H. unfold write_size, store32. zbool. Qed.

Lemma write_header_other (m : mem) (off : Z) (s : Signature) (v x : Z) :
  x < off \/ off + 8 <= x -> write_header m off s v x = m x.
Proof.
  intros H. unfold write_header.
  rewrite write_size_other, write_signature_other by lia. reflexivity.
Qed.

Lemma wrap32_small (z : Z) : 0 <= z < 2 ^ 32 -> wrap32 z = z.
Proof. intros H. unfold wrap32. now apply Z.mod_small. Qed.

Lemma wrap64_small (z : Z) : 0 <= z < 2 ^ 64 -> wrap64 z = z.
Proof. intros H. unfold wrap64. now apply Z.mod_small. Qed.

Lemma wrap32_range (z : Z) : 0 <= wrap32 z < 2 ^ 32.
Proof. unfold wrap32. apply Z.mod_pos_bound. lia. Qed.

Lemma wrap64_range (z : Z) : 0 <= wrap64 z < 2 ^ 64.
Proof. unfold wrap64. apply Z.mod_pos_bound. lia. Qed.

Lemma load32_range (m : mem) (a : Z) :
  (forall x, 0 <= m x < 2 ^ 8) -> 0 <= load32 m a < 2 ^ 32.
Proof.
  intros H. unfold load32.
  pose proof (H a); pose proof (H (a + 1));
    pose proof (H (a + 2)); pose proof (H (a + 3)). lia.
Qed.

(** ** Facts about layouts *)

Lemma sizeof_m_data_eq : sizeof_m_data = 16368.
Proof. reflexivity. Qed.

Lemma walk_fuel_eq : Z.of_nat walk_fuel = 16368.
Proof. reflexivity. Qed.

Lemma is_region_inv (h : HeapHeader) :
  is_region h = true ->
  0 < size h
  /\ valid_signature h = true
  /\ (signature h =? sig_value EndEdge) = false.
Proof.
  unfold is_region, valid_signature, available. destruct h as [sg s]. simpl.
  intros H. apply andb_prop in H as [H1 H2].
  apply Z.ltb_lt in H2. split; [exact H2|].
  destruct (Z.eqb_spec sg 557305946) as [->|]; [split; reflexivity|].
  destruct (Z.eqb_spec sg 3846330006) as [->|]; [split; reflexivity|].
  destruct (Z.eqb_spec sg 557309613) as [->|]; [split; reflexivity|].
  discriminate.
Qed.

Lemma layout_ext (m m' : mem) (l : list HeapHeader) : forall off,
  (forall x, off <= x -> m' x = m x) -> layout m off l -> layout m' off l.
Proof.
  induction l as [|h l IH]; simpl; intros off Hext H.
  - destruct H as [H1 H2]. split; auto.
    rewrite <- H1. apply read_header_ext. intros; apply Hext; lia.
  - destruct H as (H0 & H1 & H2 & H3).
    pose proof (is_region_inv _ H2) as [Hs _].
    repeat split; auto.
    + rewrite <- H1. apply read_header_ext. intros; apply Hext; lia.
    + apply IH; auto. intros; apply Hext. unfold sizeof_HeapHeader in *. lia.
Qed.

Lemma layout_span (m : mem) (l : list HeapHeader) : forall off,
  layout m off l -> off + span l + sizeof_HeapHeader = sizeof_m_data.
Proof.
  induction l as [|h l IH]; simpl; intros off H.
  - destruct H as [_ ->]. lia.
  - destruct H as (_ & _ & _ & H). apply IH in H. lia.
Qed.

Lemma span_nonneg (m : mem) (l : list HeapHeader) : forall off,
  layout m off l -> 9 * Z.of_nat (length l) <= span l.
Proof.
  induction l as [|h l IH]; simpl length; simpl span; intros off H.
  - simpl. lia.
  - destruct H as (_ & _ & Hr & H). apply IH in H.
    apply is_region_inv in Hr as [Hs _]. unfold sizeof_HeapHeader. lia.
Qed.

Lemma layout_in_data (m : mem) (l : list HeapHeader) (off : Z) :
  0 <= off -> layout m off l -> in_data off = true.
Proof.
  intros H0 H. pose proof (layout_span _ _ _ H) as Hs.
  pose proof (span_nonneg _ _ _ H) as Hn.
  unfold in_data. unfold sizeof_HeapHeader in *.
  apply andb_true_intro. split; [apply Z.leb_le|apply Z.leb_le]; lia.
Qed.

Lemma layout_fuel (m : mem) (l : list HeapHeader) (off : Z) :
  0 <= off -> layout m off l -> (length l < walk_fuel)%nat.
Proof.
  intros H0 H. pose proof (layout_span _ _ _ H) as Hs.
  pose proof (span_nonneg _ _ _ H) as Hn.
  pose proof walk_fuel_eq. rewrite sizeof_m_data_eq in Hs.
  unfold sizeof_HeapHeader in *. lia.
Qed.

Lemma layout_off_nonneg (m : mem) (l : list HeapHeader) (off : Z) :
  layout m off l -> 0 <= off.
Proof.
  destruct l; simpl; intros H.
  - destruct H as [_ ->]. rewrite sizeof_m_data_eq. unfold sizeof_HeapHeader. lia.
  - tauto.
Qed.

Lemma regions_layout (fuel : nat) (m : mem) : forall off l,
  regions fuel m off = Some l -> layout m off l.
Proof.
  induction fuel as [|fuel IH]; intros off l H; [discriminate|].
  cbn [regions] in H.
  destruct (Z.leb_spec 0 off); cbn [negb] in H; [|discriminate].
  destruct (is_region (read_header m off)) eqn:Hr.
  - destruct (regions fuel m _) eqn:Hrec; [|discriminate].
    injection H as <-. cbn [layout]. repeat split; auto.
  - destruct (_ && _) eqn:Hc; [|discriminate]. injection H as <-.
    apply andb_prop in Hc as [Hc H3]. apply andb_prop in Hc as [H1 H2].
    apply Z.eqb_eq in H1, H2, H3. split; auto.
    destruct (read_header m off) as [sg s]. cbn [signature size] in H1, H2.
    subst. reflexivity.
Qed.

(** ** The first-fit walk against the region list *)

Lemma first_fit_offset (l : list HeapHeader) : forall off sz o r,
  (forall h, In h l -> 0 <= size h) ->
  first_fit off l sz = Some (o, r) -> off <= o.
Proof.
  induction l as [|h l IH]; simpl; intros off sz o r Hpos H; [discriminate|].
  destruct (available h && _).
  - injection H as <- _. lia.
  - destruct (first_fit _ l sz) as [[o' r']|] eqn:E; [|discriminate].
    injection H as <- _. apply IH in E; auto.
    pose proof (Hpos h (or_introl eq_refl)). unfold sizeof_HeapHeader in *. lia.
Qed.

Lemma layout_sizes (m : mem) (l : list HeapHeader) : forall off,
  layout m off l -> forall h, In h l -> 0 < size h <= 16352.
Proof.
  induction l as [|h l IH]; simpl; intros off H h' Hin; [tauto|].
  destruct H as (H0 & H1 & H2 & H3).
  destruct Hin as [<-|Hin].
  - pose proof (is_region_inv _ H2) as [Hs _].
    pose proof (layout_span _ _ _ H3) as Hsp.
    pose proof (span_nonneg _ _ _ H3) as Hn.
    rewrite sizeof_m_data_eq in Hsp. unfold sizeof_HeapHeader in *. lia.
  - eapply IH; eauto.
Qed.

Lemma alloc_walk_layout (l : list HeapHeader) : forall fuel m off sz,
  layout m off l -> (length l < fuel)%nat ->
  0 < sz -> sz + 16 < 2 ^ 64 ->
  match first_fit off l sz with
  | Some (o, l') =>
    exists m', alloc_walk fuel m off sz = Allocated m' o
      /\ layout m' off l'
      /\ off <= o
      /\ (forall x, x < o \/ (o + 8 <= x < o + 8 + sz) \/ o + 16 + sz <= x ->
                    m' x = m x)
  | None => alloc_walk fuel m off sz = EndOfBlock
  end.
Proof.
  induction l as [|h l IH]; intros fuel m off sz Hl Hf Hsz Hsz'.
  - destruct fuel as [|fuel]; [simpl in Hf; lia|].
    pose proof (layout_off_nonneg _ _ _ Hl) as H0.
    cbn [first_fit alloc_walk]. rewrite (layout_in_data _ _ _ H0 Hl).
    destruct Hl as [Hh _]. rewrite Hh. reflexivity.
  - destruct fuel as [|fuel]; [simpl in Hf; lia|].
    pose proof (layout_off_nonneg _ _ _ Hl) as H0.
    pose proof (layout_sizes _ _ _ Hl h (or_introl eq_refl)) as Hhs.
    pose proof (layout_span _ _ _ Hl) as Hsp.
    cbn [first_fit alloc_walk]. rewrite (layout_in_data _ _ _ H0 Hl).
    destruct Hl as (_ & Hh & Hr & Hl). rewrite Hh.
    pose proof (is_region_inv _ Hr) as (_ & Hv & He). rewrite Hv.
    cbn [negb].
    pose proof (span_nonneg _ _ _ Hl) as Hn.
    cbn [span] in Hsp. rewrite sizeof_m_data_eq in Hsp.
    unfold sizeof_HeapHeader in *.
    rewrite (wrap64_small (sz + 8 * 2)) by lia.
    destruct (available h) eqn:Hav; cbn [andb].
    + destruct (Z.leb_spec (sz + 8 * 2) (size h)) as [Hfit|Hfit].
      * (* the region is split *)
        destruct (Z.ltb_spec (size h) (sz + 8 * 2)) as [?|_]; [lia|].
        cbn [negb].
        rewrite (wrap32_small sz) by lia.
        rewrite read_write_size, read_write_signature by lia.
        unfold next, sizeof_HeapHeader. cbn [size].
        destruct (Z.eqb_spec sz 0) as [?|_]; [lia|].
        assert (Hin : in_data (off + sz + 8) = true).
        { unfold in_data, sizeof_HeapHeader. rewrite sizeof_m_data_eq.
          apply andb_true_intro; split; apply Z.leb_le; lia. }
        rewrite Hin.
        rewrite (wrap64_small (size h - sz - 8)) by lia.
        rewrite (wrap32_small (size h - sz - 8)) by lia.
        eexists. split; [reflexivity|]. split; [|split; [lia|]].
        -- cbn [layout]. unfold sizeof_HeapHeader, header_of. cbn [size].
           split; [lia|]. split.
           { rewrite (read_header_ext
                        (write_size (write_signature m off Used) off sz)).
             - rewrite read_write_size, read_write_signature by lia.
               reflexivity.
             - intros x Hx. apply write_header_other. lia. }
           split. { unfold is_region. simpl. apply Z.ltb_lt. lia. }
           split; [lia|]. split.
           { replace (off + 8 + sz) with (off + sz + 8) by lia.
             apply read_write_header. lia. }
           split. { unfold is_region. simpl. apply Z.ltb_lt. lia. }
           replace (off + 8 + sz + 8 + (size h - sz - 8))
             with (off + 8 + size h) by lia.
           eapply layout_ext; [|exact Hl].
           intros x Hx.
           rewrite write_header_other, write_size_other,
             write_signature_other by lia.
           reflexivity.
        -- intros x Hx.
           rewrite write_header_other, write_size_other,
             write_signature_other by lia.
           reflexivity.
      * (* too small: go on *)
        destruct (Z.ltb_spec (size h) (sz + 8 * 2)) as [_|?]; [|lia].
        cbn [negb]. rewrite He. unfold next, sizeof_HeapHeader.
        destruct (Z.eqb_spec (size h) 0) as [?|_]; [lia|].
        unfold sizeof_HeapHeader.
        replace (off + size h + 8) with (off + 8 + size h) by lia.
        specialize (IH fuel m (off + 8 + size h) sz Hl
                      ltac:(simpl in Hf; lia) Hsz Hsz').
        destruct (first_fit (off + 8 + size h) l sz) as [[o r]|]; [|exact IH].
        destruct IH as (m' & Hw & Hl' & Ho & Hfr).
        exists m'. split; [exact Hw|]. split; [|split; [lia|exact Hfr]].
        cbn [layout]. unfold sizeof_HeapHeader.
        split; [lia|]. split; [|split; [exact Hr|exact Hl']].
        rewrite <- Hh. apply read_header_ext. intros x Hx. apply Hfr. lia.
    + (* in use: go on *)
      rewrite He. unfold next, sizeof_HeapHeader.
      destruct (Z.eqb_spec (size h) 0) as [?|_]; [lia|].
      unfold sizeof_HeapHeader.
      replace (off + size h + 8) with (off + 8 + size h) by lia.
      specialize (IH fuel m (off + 8 + size h) sz Hl
                    ltac:(simpl in Hf; lia) Hsz Hsz').
      destruct (first_fit (off + 8 + size h) l sz) as [[o r]|]; [|exact IH].
      destruct IH as (m' & Hw & Hl' & Ho & Hfr).
      exists m'. split; [exact Hw|]. split; [|split; [lia|exact Hfr]].
      cbn [layout]. unfold sizeof_HeapHeader.
      split; [lia|]. split; [|split; [exact Hr|exact Hl']].
      rewrite <- Hh. apply read_header_ext. intros x Hx. apply Hfr. lia.
Qed.

Lemma wrap32_high (sz : Z) :
  2 ^ 64 - 16 <= sz < 2 ^ 64 -> 2 ^ 32 - 16 <= wrap32 sz.
Proof.
  intros H. unfold wrap32.
  change (2 ^ 64) with 18446744073709551616 in H.
  change (2 ^ 32) with 4294967296.
  Z.div_mod_to_equations. lia.
Qed.

(** Outside the range of sizes that can be placed the walk never
    returns an address. *)
Lemma alloc_walk_degenerate (l : list HeapHeader) : forall fuel m off sz,
  layout m off l -> (length l < fuel)%nat ->
  0 <= sz < 2 ^ 64 -> sz = 0 \/ 2 ^ 64 <= sz + 16 ->
  alloc_walk fuel m off sz = AllocWild \/ alloc_walk fuel m off sz = EndOfBlock.
Proof.
  induction l as [|h l IH]; intros fuel m off sz Hl Hf Hsz Hdeg.
  - destruct fuel as [|fuel]; [simpl in Hf; lia|].
    pose proof (layout_off_nonneg _ _ _ Hl) as H0.
    cbn [alloc_walk]. rewrite (layout_in_data _ _ _ H0 Hl).
    destruct Hl as [Hh _]. rewrite Hh. right. reflexivity.
  - destruct fuel as [|fuel]; [simpl in Hf; lia|].
    pose proof (layout_off_nonneg _ _ _ Hl) as H0.
    pose proof (layout_sizes _ _ _ Hl h (or_introl eq_refl)) as Hhs.
    cbn [alloc_walk]. rewrite (layout_in_data _ _ _ H0 Hl).
    destruct Hl as (_ & Hh & Hr & Hl). rewrite Hh.
    pose proof (is_region_inv _ Hr) as (_ & Hv & He). rewrite Hv.
    cbn [negb].
    assert (Hgo : (if signature h =? sig_value EndEdge then EndOfBlock
                   else match next off h with
                        | Some off' => alloc_walk fuel m off' sz
                        | None => NoSuitableBlock
                        end) = AllocWild
                  \/ (if signature h =? sig_value EndEdge then EndOfBlock
                   else match next off h with
                        | Some off' => alloc_walk fuel m off' sz
                        | None => NoSuitableBlock
                        end) = EndOfBlock).
    { rewrite He. unfold next, sizeof_HeapHeader.
      destruct (Z.eqb_spec (size h) 0) as [?|_]; [lia|].
      replace (off + size h + 8) with (off + sizeof_HeapHeader + size h)
        by (unfold sizeof_HeapHeader; lia).
      apply IH; auto. simpl in Hf; lia. }
    destruct (available h && _) eqn:Hc; [|exact Hgo].
    left.
    pose proof (wrap32_range sz) as Hw.
    rewrite read_write_size, read_write_signature by exact Hw.
    unfold next, sizeof_HeapHeader. cbn [size].
    destruct Hdeg as [->|Hbig].
    + reflexivity.
    + pose proof (wrap32_high sz ltac:(lia)) as Hhi.
      destruct (Z.eqb_spec (wrap32 sz) 0) as [?|_]; [reflexivity|].
      assert (Hout : in_data (off + wrap32 sz + 8) = false).
      { unfold in_data, sizeof_HeapHeader. rewrite sizeof_m_data_eq.
        apply andb_false_intro2. apply Z.leb_gt. lia. }
      rewrite Hout. reflexivity.
Qed.

(** ** Coalescing on lists *)

Lemma absorb_shift (l : list HeapHeader) : forall s d,
  absorb (s + d) l = (fst (absorb s l) + d, snd (absorb s l)).
Proof.
  induction l as [|h l IH]; simpl; intros s d; [reflexivity|].
  destruct (available h); [|reflexivity].
  replace (s + d + size h + sizeof_HeapHeader)
    with (s + size h + sizeof_HeapHeader + d) by lia.
  apply IH.
Qed.

Lemma coalesce_head (h : HeapHeader) (l : list HeapHeader) :
  exists s r, coalesce (h :: l) = mkHeader (signature h) s :: r.
Proof.
  simpl. destruct (coalesce l) as [|h' r].
  - exists (size h), []. destruct h; reflexivity.
  - destruct (available h && available h'); eauto.
    exists (size h), (h' :: r). destruct h; reflexivity.
Qed.

Lemma available_sig (h h' : HeapHeader) :
  signature h = signature h' -> available h = available h'.
Proof. unfold available. intros ->. reflexivity. Qed.

Lemma coalesce_cons_used (h : HeapHeader) (l : list HeapHeader) :
  available h = false -> coalesce (h :: l) = h :: coalesce l.
Proof.
  intros H. simpl. rewrite H. simpl. destruct (coalesce l); reflexivity.
Qed.

Lemma coalesce_absorb (l : list HeapHeader) : forall h,
  available h = true ->
  coalesce (h :: l)
  = mkHeader (signature h) (fst (absorb (size h) l))
      :: coalesce (snd (absorb (size h) l)).
Proof.
  induction l as [|h1 l IH]; intros h Hav.
  - simpl. destruct h; reflexivity.
  - cbn [absorb]. destruct (available h1) eqn:Hav1.
    + change (coalesce (h :: h1 :: l))
        with (match coalesce (h1 :: l) with
              | h' :: r =>
                if available h && available h' then
                  mkHeader (signature h)
                    (size h + size h' + sizeof_HeapHeader) :: r
                else h :: h' :: r
              | [] => [h]
              end).
      rewrite (IH h1 Hav1). rewrite Hav.
      replace (available {| signature := signature h1;
                            size := fst (absorb (size h1) l) |})
        with true by (symmetry; rewrite <- Hav1; now apply available_sig).
      cbn [andb size].
      replace (size h + size h1 + sizeof_HeapHeader)
        with (size h1 + (size h + sizeof_HeapHeader)) by lia.
      rewrite absorb_shift. cbn [fst snd].
      f_equal. f_equal. lia.
    + change (coalesce (h :: h1 :: l))
        with (match coalesce (h1 :: l) with
              | h' :: r =>
                if available h && available h' then
                  mkHeader (signature h)
                    (size h + size h' + sizeof_HeapHeader) :: r
                else h :: h' :: r
              | [] => [h]
              end).
      rewrite (coalesce_cons_used h1 l Hav1). rewrite Hav1, andb_false_r.
      cbn [fst snd]. rewrite (coalesce_cons_used h1 l Hav1).
      destruct h; reflexivity.
Qed.

Lemma coalesced_coalesce (l : list HeapHeader) : coalesced (coalesce l).
Proof.
  induction l as [|h l IH]; [exact I|].
  cbn [coalesce]. destruct (coalesce l) as [|h' r]; [exact I|].
  destruct (available h && available h') eqn:Hc.
  - apply andb_prop in Hc as [Hh Hh'].
    destruct r as [|h2 r]; [exact I|].
    cbn [coalesced] in *. destruct IH as [H1 H2]. split; [|exact H2].
    rewrite Hh' in H1. cbn [andb] in H1.
    rewrite H1. apply andb_false_r.
  - cbn [coalesced]. split; [exact Hc|exact IH].
Qed.

Lemma span_coalesce (l : list HeapHeader) : span (coalesce l) = span l.
Proof.
  induction l as [|h l IH]; [reflexivity|].
  cbn [coalesce span]. rewrite <- IH.
  destruct (coalesce l) as [|h' r]; [reflexivity|].
  destruct (available h && available h'); cbn [span size]; lia.
Qed.

Lemma absorb_length (l : list HeapHeader) : forall s,
  (length (snd (absorb s l)) <= length l)%nat.
Proof.
  induction l as [|h l IH]; simpl; intros s; [lia|].
  destruct (available h); simpl; [|lia]. specialize (IH (s + size h + sizeof_HeapHeader)). lia.
Qed.




(** ** Regions and their offsets *)

Lemma region_at_ge (m : mem) (l : list HeapHeader) : forall off o r,
  layout m off l -> region_at off l o r -> off <= o.
Proof.
  induction l as [|h l IH]; cbn [region_at layout]; intros off o r Hl H;
    [contradiction|].
  destruct Hl as (_ & _ & Hr & Hl). apply is_region_inv in Hr as [Hs _].
  destruct H as [[-> _]|H]; [lia|].
  apply (IH _ _ _ Hl) in H. unfold sizeof_HeapHeader in *. lia.
Qed.

Lemma region_at_read (m : mem) (l : list HeapHeader) : forall off o r,
  layout m off l -> region_at off l o r ->
  read_header m o = r /\ is_region r = true /\ In r l
  /\ o + sizeof_HeapHeader + size r <= sizeof_m_data - sizeof_HeapHeader.
Proof.
  induction l as [|h l IH]; cbn [region_at layout]; intros off o r Hl H;
    [contradiction|].
  pose proof Hl as (_ & Hh & Hr & Hl').
  destruct H as [[-> ->]|H].
  - repeat split; auto; [now left|].
    pose proof (layout_span _ _ _ Hl') as Hsp.
    pose proof (span_nonneg _ _ _ Hl') as Hn. lia.
  - destruct (IH _ _ _ Hl' H) as (H1 & H2 & H3 & H4).
    repeat split; auto. now right.
Qed.

Lemma region_at_separated (m : mem) (l : list HeapHeader) :
  forall off o r o' r',
  layout m off l -> region_at off l o r -> region_at off l o' r' ->
  o = o' \/ o + sizeof_HeapHeader + size r <= o'
  \/ o' + sizeof_HeapHeader + size r' <= o.
Proof.
  induction l as [|h l IH]; cbn [region_at layout];
    intros off o r o' r' Hl H H'; [contradiction|].
  destruct Hl as (_ & _ & _ & Hl).
  destruct H as [[-> ->]|H], H' as [[-> ->]|H'].
  - now left.
  - right; left. apply (region_at_ge _ _ _ _ _ Hl H').
  - right; right. apply (region_at_ge _ _ _ _ _ Hl H).
  - eapply IH; eauto.
Qed.

Lemma region_at_in_data (m : mem) (l : list HeapHeader) (o : Z)
    (r : HeapHeader) :
  layout m 0 l -> region_at 0 l o r -> in_data o = true.
Proof.
  intros Hl H. pose proof (region_at_ge _ _ _ _ _ Hl H).
  destruct (region_at_read _ _ _ _ _ Hl H) as (_ & Hr & _ & Hb).
  apply is_region_inv in Hr as [Hs _].
  unfold in_data. apply andb_true_intro. split; apply Z.leb_le; sizes.
Qed.

Lemma freed_region_valid (r : HeapHeader) :
  is_region r = true -> valid_signature r = true.
Proof. intros H. now apply is_region_inv in H. Qed.

Lemma layout_mark_freed (l : list HeapHeader) : forall m off o r,
  layout m off l -> region_at off l o r ->
  layout (write_signature m o Freed) off (mark_freed off l o).
Proof.
  induction l as [|h l IH]; cbn [region_at]; intros m off o r Hl H;
    [contradiction|].
  pose proof Hl as (H0 & Hh & Hr & Hl'). cbn [mark_freed].
  pose proof (is_region_inv _ Hr) as [Hs _].
  destruct (Z.eqb_spec o off) as [->|Hne].
  - cbn [layout size]. split; [exact H0|]. split.
    { rewrite read_write_signature, Hh. reflexivity. }
    split.
    { unfold is_region. cbn [signature size].
      change (available {| signature := sig_value Freed; size := size h |})
        with true. rewrite orb_true_r. now apply Z.ltb_lt. }
    eapply layout_ext; [|exact Hl'].
    intros x Hx. apply write_signature_other.
    unfold sizeof_HeapHeader in *. lia.
  - destruct H as [[-> _]|H]; [contradiction|].
    pose proof (region_at_ge _ _ _ _ _ Hl' H) as Hge.
    cbn [layout]. split; [exact H0|]. split.
    { rewrite <- Hh. apply read_header_ext. intros x Hx.
      apply write_signature_other. unfold sizeof_HeapHeader in *. lia. }
    split; [exact Hr|]. eapply IH; eauto.
Qed.

Lemma layout_end_edge (m : mem) (l : list HeapHeader) : forall off,
  layout m off l ->
  read_header m (sizeof_m_data - sizeof_HeapHeader) = header_of EndEdge 0.
Proof.
  induction l as [|h l IH]; cbn [layout]; intros off H.
  - destruct H as [H ->]. exact H.
  - destruct H as (_ & _ & _ & H). eapply IH; eauto.
Qed.

Lemma absorb_region_at (l : list HeapHeader) : forall s off o r,
  region_at (off + (fst (absorb s l) - s)) (snd (absorb s l)) o r ->
  region_at off l o r.
Proof.
  induction l as [|h l IH]; cbn [absorb]; intros s off o r H.
  - exact H.
  - destruct (available h).
    + cbn [region_at]. right.
      apply (IH (s + size h + sizeof_HeapHeader)).
      replace (off + sizeof_HeapHeader + size h
               + (fst (absorb (s + size h + sizeof_HeapHeader) l)
                  - (s + size h + sizeof_HeapHeader)))
        with (off + (fst (absorb (s + size h + sizeof_HeapHeader) l) - s))
        by lia.
      exact H.
    + cbn [fst snd] in H. replace (off + (s - s)) with off in H by lia.
      exact H.
Qed.

(** ** The merge loops against the region list *)

Lemma merge_run_layout (l : list HeapHeader) : forall fuel m off noff acc,
  next off (read_header m off) = Some noff ->
  layout m noff l -> (length l < fuel)%nat ->
  0 <= acc -> acc + (sizeof_m_data - noff) < 2 ^ 64 ->
  exists off',
    merge_run fuel m off acc = MergeDone (fst (absorb acc l), Some off')
    /\ layout m off' (snd (absorb acc l))
    /\ fst (absorb acc l) = acc + (off' - noff)
    /\ noff <= off'.
Proof.
  induction l as [|h l IH]; intros fuel m off noff acc Hn Hl Hf Ha Hb.
  - destruct fuel as [|fuel]; [simpl in Hf; lia|].
    pose proof (layout_off_nonneg _ _ _ Hl) as H0.
    cbn [merge_run absorb fst snd]. rewrite Hn.
    rewrite (layout_in_data _ _ _ H0 Hl). cbn [negb].
    pose proof Hl as [Hh _]. rewrite Hh.
    change (available (header_of EndEdge 0)) with false. cbv iota.
    exists noff. split; [reflexivity|]. split; [exact Hl|]. lia.
  - destruct fuel as [|fuel]; [simpl in Hf; lia|].
    pose proof (layout_off_nonneg _ _ _ Hl) as H0.
    pose proof (layout_sizes _ _ _ Hl h (or_introl eq_refl)) as Hhs.
    pose proof (layout_span _ _ _ Hl) as Hsp.
    pose proof (span_nonneg _ _ _ Hl) as Hnn.
    cbn [merge_run absorb]. rewrite Hn.
    rewrite (layout_in_data _ _ _ H0 Hl). cbn [negb].
    pose proof Hl as (_ & Hh & Hr & Hl'). rewrite Hh.
    destruct (available h) eqn:Hav.
    + cbn [span] in Hsp. rewrite sizeof_m_data_eq in *.
      pose proof (span_nonneg _ _ _ Hl') as Hnn'.
      unfold sizeof_HeapHeader in *.
      rewrite wrap64_small by lia.
      destruct (IH fuel m noff (noff + 8 + size h) (acc + size h + 8))
        as (off' & Hm & Hl2 & Hacc & Hle); auto.
      * rewrite Hh. unfold next, sizeof_HeapHeader.
        destruct (Z.eqb_spec (size h) 0); [lia|]. f_equal. lia.
      * simpl in Hf. lia.
      * lia.
      * lia.
      * exists off'. repeat split; auto; lia.
    + cbn [fst snd]. exists noff. repeat split; auto; lia.
Qed.

Lemma merge_scan_layout (fuel : nat) : forall l m off,
  layout m off l -> (length l < fuel)%nat ->
  exists m',
    merge_scan fuel m off = MergeDone m'
    /\ layout m' off (coalesce l)
    /\ (forall x, x < off -> m' x = m x)
    /\ (forall x, (forall o r, region_at off l o r -> x < o + 4 \/ o + 8 <= x) ->
                  m' x = m x).
Proof.
  induction fuel as [|fuel IH]; intros l m off Hl Hf; [lia|].
  pose proof (layout_off_nonneg _ _ _ Hl) as H0.
  cbn [merge_scan]. rewrite (layout_in_data _ _ _ H0 Hl). cbn [negb].
  destruct l as [|h l].
  - pose proof Hl as [Hh Ho]. rewrite Hh.
    change (available (header_of EndEdge 0)) with false. cbv iota.
    change (next off (header_of EndEdge 0)) with (@None Z). cbv iota.
    exists m. repeat split; auto.
  - pose proof (layout_sizes _ _ _ Hl h (or_introl eq_refl)) as Hhs.
    pose proof (layout_span _ _ _ Hl) as Hsp.
    pose proof (layout_fuel _ _ _ H0 Hl) as Hwf.
    pose proof Hl as (_ & Hh & Hr & Hl'). rewrite Hh.
    pose proof (span_nonneg _ _ _ Hl') as Hnn.
    cbn [span] in Hsp. rewrite sizeof_m_data_eq in Hsp.
    destruct (available h) eqn:Hav.
    + assert (Hnext : next off (read_header m off)
                      = Some (off + sizeof_HeapHeader + size h)).
      { rewrite Hh. unfold next, sizeof_HeapHeader.
        destruct (Z.eqb_spec (size h) 0); [lia|]. f_equal. lia. }
      destruct (merge_run_layout l walk_fuel m off _ (size h) Hnext Hl')
        as (off' & Hm & Hl2 & Hacc & Hle).
      { simpl in Hwf. lia. }
      { lia. }
      { rewrite sizeof_m_data_eq. unfold sizeof_HeapHeader in *. lia. }
      rewrite Hm.
      pose proof (layout_span _ _ _ Hl2) as Hsp2.
      pose proof (span_nonneg _ _ _ Hl2) as Hnn2.
      rewrite sizeof_m_data_eq in Hsp2.
      unfold sizeof_HeapHeader in *.
      rewrite wrap32_small by lia.
      set (m1 := write_size m off (fst (absorb (size h) l))).
      assert (Hl3 : layout m1 off' (snd (absorb (size h) l))).
      { eapply layout_ext; [|exact Hl2]. intros x Hx. unfold m1.
        apply write_size_other. lia. }
      destruct (IH _ m1 off' Hl3) as (m' & Hs & Hl4 & Hfr & Hfr').
      { pose proof (absorb_length l (size h)). simpl in Hf. lia. }
      rewrite Hs. exists m'. split; [reflexivity|]. split; [|split].
      * rewrite (coalesce_absorb l h Hav). cbn [layout size].
        split; [lia|]. split.
        { rewrite (read_header_ext m1) by (intros; apply Hfr; lia).
          unfold m1. rewrite read_write_size by lia. now rewrite Hh. }
        split.
        { unfold is_region. cbn [signature size].
          replace (available {| signature := signature h;
                                size := fst (absorb (size h) l) |})
            with true by (symmetry; rewrite <- Hav; now apply available_sig).
          rewrite orb_true_r. apply Z.ltb_lt. lia. }
        unfold sizeof_HeapHeader.
        replace (off + 8 + fst (absorb (size h) l)) with off' by lia.
        exact Hl4.
      * intros x Hx. rewrite Hfr by lia. unfold m1.
        apply write_size_other. lia.
      * intros x Hx. rewrite Hfr'.
        -- unfold m1. apply write_size_other.
           specialize (Hx off h (or_introl (conj eq_refl eq_refl))). lia.
        -- intros o r Ho. apply (Hx o r). cbn [region_at]. right.
           apply (absorb_region_at l (size h)).
           replace (off + sizeof_HeapHeader + size h
                    + (fst (absorb (size h) l) - size h)) with off'
             by (unfold sizeof_HeapHeader; lia).
           exact Ho.
    + unfold next, sizeof_HeapHeader in *.
      destruct (Z.eqb_spec (size h) 0); [lia|].
      replace (off + size h + 8) with (off + 8 + size h) by lia.
      destruct (IH _ m _ Hl') as (m' & Hs & Hl4 & Hfr & Hfr').
      { simpl in Hf. lia. }
      rewrite Hs. exists m'. split; [reflexivity|]. split; [|split].
      * rewrite (coalesce_cons_used h l Hav). cbn [layout].
        unfold sizeof_HeapHeader.
        split; [lia|]. split; [|split; [exact Hr|exact Hl4]].
        rewrite <- Hh. apply read_header_ext. intros; apply Hfr; lia.
      * intros x Hx. apply Hfr. lia.
      * intros x Hx. apply Hfr'. intros o r Ho. apply (Hx o r).
        cbn [region_at]. right. exact Ho.
Qed.

(** ** Rounding the size *)

Lemma land_not64_pow2 (sz k : Z) :
  0 <= sz < 2 ^ 64 -> 0 <= k < 64 ->
  Z.land sz (not64 (wrap64 (2 ^ k - 1))) = 2 ^ k * (sz / 2 ^ k).
Proof.
  intros Hsz Hk.
  assert (Hp : 0 < 2 ^ k < 2 ^ 64).
  { split; [apply Z.pow_pos_nonneg; lia|].
    apply Z.pow_lt_mono_r; lia. }
  rewrite wrap64_small by lia.
  unfold not64, wrap64.
  rewrite <- (Z.land_ones _ 64) by lia.
  rewrite (Z.land_comm (Z.lnot _)), Z.land_assoc.
  rewrite (Z.land_ones sz 64) by lia.
  rewrite (Z.mod_small sz) by lia.
  replace (2 ^ k - 1) with (Z.ones k) by (rewrite Z.ones_equiv; lia).
  rewrite <- Z.ldiff_land, Z.ldiff_ones_r by lia.
  rewrite Z.shiftl_mul_pow2, Z.shiftr_div_pow2 by lia. lia.
Qed.

Lemma aligned_size_pow2 (sz k : Z) :
  0 <= sz < 2 ^ 64 -> 0 <= k < 64 ->
  2 ^ k * ((sz + 2 ^ k - 1) / 2 ^ k) < 2 ^ 64 ->
  aligned_size sz (2 ^ k) = 2 ^ k * ((sz + 2 ^ k - 1) / 2 ^ k).
Proof.
  intros Hsz Hk Hfit.
  assert (Hp : 0 < 2 ^ k) by (apply Z.pow_pos_nonneg; lia).
  unfold aligned_size. rewrite land_not64_pow2 by assumption.
  pose proof (Z.div_mod sz (2 ^ k) ltac:(lia)) as Hdm.
  pose proof (Z.mod_pos_bound sz (2 ^ k) Hp) as Hmb.
  destruct (Z.eqb_spec (2 ^ k * (sz / 2 ^ k)) sz) as [He|Hne]; cbn [negb].
  - (* already a multiple *)
    assert (Hm : sz mod 2 ^ k = 0) by lia.
    replace (sz + 2 ^ k - 1) with ((2 ^ k - 1) + (sz / 2 ^ k) * 2 ^ k) by lia.
    rewrite Z.div_add by lia.
    rewrite (Z.div_small (2 ^ k - 1)) by lia. lia.
  - assert (Hm : 0 < sz mod 2 ^ k) by lia.
    assert (Hq : (sz + 2 ^ k - 1) / 2 ^ k = sz / 2 ^ k + 1).
    { replace (sz + 2 ^ k - 1)
        with ((sz mod 2 ^ k - 1) + (sz / 2 ^ k + 1) * 2 ^ k) by lia.
      rewrite Z.div_add by lia.
      rewrite (Z.div_small (sz mod 2 ^ k - 1)) by lia. lia. }
    rewrite Hq in *.
    assert (0 <= sz / 2 ^ k) by (apply Z.div_pos; lia).
    rewrite wrap64_small by nia. lia.
Qed.

Lemma round_up_least (sz a : Z) :
  0 < a -> 0 <= sz ->
  let r := a * ((sz + a - 1) / a) in
  (a | r) /\ sz <= r /\ (forall r', (a | r') -> sz <= r' -> r <= r').
Proof.
  intros Ha Hsz r. subst r.
  pose proof (Z.div_mod (sz + a - 1) a ltac:(lia)) as Hdm.
  pose proof (Z.mod_pos_bound (sz + a - 1) a Ha) as Hmb.
  split; [exists ((sz + a - 1) / a); lia|]. split; [lia|].
  intros r' [q ->] Hle.
  assert ((sz + a - 1) / a < q + 1); [|nia].
  apply Z.div_lt_upper_bound; lia.
Qed.

(** ** Alignment zero *)

(** C2, as the code has it: a request with alignment zero that reaches
    [HeapBlock::alloc] (every request of at most
    [sizeof(HeapBlock) - sizeof(HeapHeader)] bytes) writes the
    invalid-alignment diagnostic and returns the null pointer to the caller;
    the process does not abort and no block is touched. *)
Theorem zero_align_returns_null (fuel : nat) (h : heap) (sz : Z) :
  sz <= sizeof_HeapBlock - sizeof_HeapHeader ->
  my_malloc fuel h sz 0 = (print AllocInvalidAlign (lazy_init h), Returned 0)
  /\ forall this,
       HeapBlock_alloc fuel h this sz 0 = (print AllocInvalidAlign h, Returned 0).
Proof.
  intros Hsz. split.
  - unfold my_malloc.
    destruct (Z.ltb_spec (sizeof_HeapBlock - sizeof_HeapHeader) sz); [lia|].
    destruct fuel; reflexivity.
  - intros this. destruct fuel; reflexivity.
Qed.

Lemma zero_align_returns_null_witness :
  my_malloc 1 heap0 8 0 = (print AllocInvalidAlign (lazy_init heap0), Returned 0)
  /\ forall this,
       HeapBlock_alloc 1 heap0 this 8 0
       = (print AllocInvalidAlign heap0, Returned 0).
Proof. apply (zero_align_returns_null 1 heap0 8). vm_compute. discriminate. Defined.

(** C2 as stated fails: the first request of a process, for 8 bytes with
    alignment zero, returns null after the diagnostic instead of aborting. *)
Lemma zero_align_does_not_abort :
  snd (my_malloc 1 heap0 8 0) = Returned 0
  /\ stdout (fst (my_malloc 1 heap0 8 0)) = [AllocInvalidAlign]
  /\ snd (my_malloc 1 heap0 8 0) <> Aborted.
Proof. vm_compute. repeat split. discriminate. Qed.

(** ** Diagnostics on a corrupt header *)





(** ** Rounding, as claimed *)

Lemma max_ptr_pow2 (k : Z) :
  0 <= k -> Z.max sizeof_ptr (2 ^ k) = 2 ^ Z.max 3 k.
Proof.
  intros Hk. unfold sizeof_ptr. change 8 with (2 ^ 3).
  destruct (Z.le_gt_cases k 3) as [H|H].
  - rewrite (Z.max_l 3 k) by lia. apply Z.max_l.
    apply Z.pow_le_mono_r; lia.
  - rewrite (Z.max_r 3 k) by lia. apply Z.max_r.
    apply Z.pow_le_mono_r; lia.
Qed.




(** ** The layout invariant *)

Lemma memset_other (m : mem) (a c n x : Z) :
  x < a \/ a + n <= x -> memset m a c n x = m x.
Proof. intros H. unfold memset. zbool. Qed.

Lemma layout_init (m0 : mem) : layout (init m0) 0 [header_of Empty 16352].
Proof.
  unfold init, place_edge_headers.
  change (sizeof_m_data - sizeof_HeapHeader * 2) with 16352.
  change (sizeof_m_data - sizeof_HeapHeader) with 16360.
  change sizeof_HeapHeader with 8.
  cbn [layout]. split; [lia|]. split.
  { rewrite (read_header_ext (write_header m0 0 Empty 16352)).
    - apply read_write_header. lia.
    - intros x Hx. rewrite memset_other, write_header_other by lia.
      reflexivity. }
  split; [reflexivity|]. split; [|reflexivity].
  change (0 + sizeof_HeapHeader + size (header_of Empty 16352)) with 16360.
  rewrite (read_header_ext
             (write_header (write_header m0 0 Empty 16352) 16360 EndEdge 0)).
  - apply read_write_header. lia.
  - intros x Hx. apply memset_other. lia.
Qed.

Lemma layout_layout_inv (m : mem) (regs : list HeapHeader) :
  layout m 0 regs -> layout_inv m.
Proof.
  intros H. exists regs. split; [exact H|]. split.
  - pose proof (layout_span _ _ _ H). lia.
  - eapply layout_end_edge; eauto.
Qed.

Lemma alloc_walk_allocated (m m' : mem) (regs : list HeapHeader) (sz off : Z) :
  layout m 0 regs -> 0 <= sz < 2 ^ 64 ->
  alloc_walk walk_fuel m 0 sz = Allocated m' off ->
  0 < sz /\ sz + 16 < 2 ^ 64
  /\ exists regs', first_fit 0 regs sz = Some (off, regs') /\ layout m' 0 regs'
     /\ (forall x, x < off \/ (off + 8 <= x < off + 8 + sz)
                   \/ off + 16 + sz <= x -> m' x = m x).
Proof.
  intros Hl Hsz Hw.
  pose proof (layout_fuel _ _ _ (Z.le_refl 0) Hl) as Hf.
  assert (Hok : 0 < sz /\ sz + 16 < 2 ^ 64).
  { destruct (Z.eq_dec sz 0) as [->|Hne].
    - destruct (alloc_walk_degenerate regs walk_fuel m 0 0 Hl Hf Hsz
                  (or_introl eq_refl)) as [H|H]; congruence.
    - destruct (Z.lt_ge_cases (sz + 16) (2 ^ 64)) as [Hlt|Hge]; [lia|].
      destruct (alloc_walk_degenerate regs walk_fuel m 0 sz Hl Hf Hsz
                  (or_intror Hge)) as [H|H]; congruence. }
  destruct Hok as [H1 H2]. split; [exact H1|]. split; [exact H2|].
  pose proof (alloc_walk_layout regs walk_fuel m 0 sz Hl Hf H1 H2) as H.
  destruct (first_fit 0 regs sz) as [[o regs']|]; [|congruence].
  destruct H as (m1 & Hw1 & Hl1 & _ & Hfr).
  rewrite Hw in Hw1. injection Hw1 as <- <-.
  exists regs'. auto.
Qed.

Lemma step_layout (m m' : mem) :
  step m m' -> forall regs, layout m 0 regs -> exists regs', layout m' 0 regs'.
Proof.
  intros [m1 m1' sz off Hsz Hw | m1 m1' regs0 off r Hl0 Hr Hf Hm] regs Hl.
  - destruct (alloc_walk_allocated _ _ _ _ _ Hl Hsz Hw)
      as (_ & _ & regs' & _ & Hl' & _). eauto.
  - pose proof (layout_mark_freed _ _ _ _ _ Hl0 Hr) as Hl1.
    pose proof (layout_fuel _ _ _ (Z.le_refl 0) Hl1) as Hfu.
    destruct (merge_scan_layout walk_fuel _ _ _ Hl1 Hfu)
      as (m2 & Hm2 & Hl2 & _).
    rewrite Hm in Hm2. injection Hm2 as <-. eauto.
Qed.

Lemma init_layout_inv (m0 : mem) : layout_inv (init m0).
Proof. eapply layout_layout_inv. apply layout_init. Qed.

Lemma step_layout_inv (m m' : mem) : layout_inv m -> step m m' -> layout_inv m'.
Proof.
  intros (regs & Hl & _) Hs.
  destruct (step_layout _ _ Hs _ Hl) as (regs' & Hl').
  eapply layout_layout_inv; eauto.
Qed.

(** ** Chains of blocks *)

Lemma chain_insert_links (bs : gmap Z HeapBlock) (a : Z) (b b' : HeapBlock)
    (l : list Z) : forall prev nxt,
  bs !! a = Some b -> m_prev b' = m_prev b -> m_next b' = m_next b ->
  chain bs prev l nxt -> chain (<[a := b']> bs) prev l nxt.
Proof.
  induction l as [|x l IH]; cbn [chain]; intros prev nxt Ha Hp Hn H; [exact I|].
  destruct H as (Hx & bx & Hbx & Hpx & Hnx & Hc). split; [exact Hx|].
  destruct (decide (a = x)) as [->|Hne].
  - exists b'. rewrite lookup_insert_eq.
    assert (bx = b) by congruence. subst bx.
    repeat split; try congruence. apply IH; auto.
  - exists bx. rewrite lookup_insert_ne by exact Hne.
    repeat split; auto.
Qed.

Lemma chain_insert_fresh (bs : gmap Z HeapBlock) (a : Z) (b : HeapBlock)
    (l : list Z) : forall prev nxt,
  a ∉ l -> chain bs prev l nxt -> chain (<[a := b]> bs) prev l nxt.
Proof.
  induction l as [|x l IH]; cbn [chain]; intros prev nxt Ha H; [exact I|].
  destruct H as (Hx & bx & Hbx & Hpx & Hnx & Hc). split; [exact Hx|].
  apply not_elem_of_cons in Ha as [Hne Ha].
  exists bx. rewrite lookup_insert_ne by exact Hne. repeat split; auto.
Qed.

Lemma chain_delete_fresh (bs : gmap Z HeapBlock) (a : Z) (l : list Z) :
  forall prev nxt,
  a ∉ l -> chain bs prev l nxt -> chain (delete a bs) prev l nxt.
Proof.
  induction l as [|x l IH]; cbn [chain]; intros prev nxt Ha H; [exact I|].
  destruct H as (Hx & bx & Hbx & Hpx & Hnx & Hc). split; [exact Hx|].
  apply not_elem_of_cons in Ha as [Hne Ha].
  exists bx. rewrite lookup_delete_ne by exact Hne. repeat split; auto.
Qed.

Lemma last_cons_default (l : list Z) : forall x d,
  List.last (x :: l) d = List.last l x.
Proof.
  induction l as [|y l IH]; intros x d; [reflexivity|].
  change (List.last (x :: y :: l) d) with (List.last (y :: l) d).
  rewrite (IH y d), (IH y x). reflexivity.
Qed.

Lemma chain_app (bs : gmap Z HeapBlock) (l1 l2 : list Z) : forall prev nxt,
  chain bs prev (l1 ++ l2) nxt <->
  chain bs prev l1 (hd nxt l2) /\ chain bs (List.last l1 prev) l2 nxt.
Proof.
  induction l1 as [|x l1 IH]; intros prev nxt.
  - cbn [app chain List.last]. tauto.
  - change ((x :: l1) ++ l2) with (x :: (l1 ++ l2)). cbn [chain].
    assert (Hhd : hd nxt (l1 ++ l2) = hd (hd nxt l2) l1)
      by (destruct l1; reflexivity).
    rewrite last_cons_default, Hhd. split.
    + intros (Hx & b & Hb & Hp & Hn & Hc). apply IH in Hc as [Hc1 Hc2].
      split; [|exact Hc2]. split; [exact Hx|]. exists b. auto.
    + intros ((Hx & b & Hb & Hp & Hn & Hc1) & Hc2).
      split; [exact Hx|]. exists b. repeat split; auto. apply IH. auto.
Qed.

Lemma chain_lookup (bs : gmap Z HeapBlock) (l : list Z) : forall prev nxt a,
  chain bs prev l nxt -> a ∈ l -> a <> 0 /\ is_Some (bs !! a).
Proof.
  induction l as [|x l IH]; cbn [chain]; intros prev nxt a H Ha.
  - apply elem_of_nil in Ha. contradiction.
  - destruct H as (Hx & b & Hb & _ & _ & Hc).
    apply elem_of_cons in Ha as [->|Ha]; [eauto|]. eapply IH; eauto.
Qed.

Lemma separated_app (l1 l2 : list Z) :
  separated (l1 ++ l2) ->
  separated l1 /\ separated l2
  /\ forall a a', a ∈ l1 -> a' ∈ l2 ->
       a + sizeof_HeapBlock <= a' \/ a' + sizeof_HeapBlock <= a.
Proof.
  induction l1 as [|x l1 IH]; cbn [app separated].
  - intros H. repeat split; auto. intros a a' Ha. apply elem_of_nil in Ha.
    contradiction.
  - intros [Hf Hs]. apply IH in Hs as (H1 & H2 & H3).
    apply Forall_app in Hf as [Hf1 Hf2].
    repeat split; auto.
    intros a a' Ha Ha'. apply elem_of_cons in Ha as [->|Ha]; [|auto].
    rewrite Forall_forall in Hf2. apply Hf2. exact Ha'.
Qed.

Lemma separated_cons_notin (a : Z) (l : list Z) : separated (a :: l) -> a ∉ l.
Proof.
  cbn [separated]. intros [Hf _] Hin. rewrite Forall_forall in Hf.
  specialize (Hf a Hin). sizes.
Qed.

Lemma separated_app_intro (l1 l2 : list Z) :
  separated l1 -> separated l2 ->
  (forall a a', a ∈ l1 -> a' ∈ l2 ->
     a + sizeof_HeapBlock <= a' \/ a' + sizeof_HeapBlock <= a) ->
  separated (l1 ++ l2).
Proof.
  induction l1 as [|x l1 IH]; cbn [app separated]; intros H1 H2 H3; [exact H2|].
  destruct H1 as [Hf Hs]. split.
  - apply Forall_app. split; [exact Hf|]. apply Forall_forall.
    intros a' Ha'. apply H3; [apply list_elem_of_here|exact Ha'].
  - apply IH; auto. intros a a' Ha Ha'. apply H3; [|exact Ha'].
    now apply list_elem_of_further.
Qed.

(** ** [HeapBlock::free] along the chain *)

Lemma HeapBlock_free_eq (fuel : nat) (h : heap) (this addr : Z) :
  HeapBlock_free fuel h this addr =
  match blocks h !! this with
  | None => (h, WildAccess)
  | Some b =>
    if (addr <? data_address this)
       || (data_address this + sizeof_m_data <=? addr) then
      if negb (m_next b =? 0) then
        match fuel with
        | O => (h, OutOfFuel)
        | S fuel' => HeapBlock_free fuel' h (m_next b) addr
        end
      else (print (FreeNotAllocated addr) h, Aborted)
    else
      let off := addr - sizeof_HeapHeader - data_address this in
      if negb (in_data off) then (h, WildAccess) else
      let header := read_header (m_data b) off in
      if freed header then (print FreeAlreadyFreed h, Aborted)
      else if negb (valid_signature header) then
        (print (FreeInvalidSignature (signature header)
                  (data_address this + off)) h, Aborted)
      else
        let h := set_data h this b (write_signature (m_data b) off Freed) in
        merge_and_cleanup h this
  end.
Proof. destruct fuel; reflexivity. Qed.

Lemma out_of_block_data (this addr : Z) :
  ~ in_block_data this addr ->
  (addr <? data_address this) || (data_address this + sizeof_m_data <=? addr)
  = true.
Proof. unfold in_block_data. intros H. zbool. Qed.

Lemma inside_block_data (this addr : Z) :
  in_block_data this addr ->
  (addr <? data_address this) || (data_address this + sizeof_m_data <=? addr)
  = false.
Proof. unfold in_block_data. intros H. zbool. Qed.

Lemma free_skip (h : heap) (addr this : Z) (l2 : list Z) (nxt : Z) :
  forall l1 fuel prev,
  chain (blocks h) prev (l1 ++ this :: l2) nxt ->
  (forall a, a ∈ l1 -> ~ in_block_data a addr) ->
  (length l1 <= fuel)%nat ->
  HeapBlock_free fuel h (hd 0 (l1 ++ this :: l2)) addr
  = HeapBlock_free (fuel - length l1) h this addr.
Proof.
  induction l1 as [|a l1 IH]; intros fuel prev Hc Hout Hf.
  - cbn [app hd length]. rewrite Nat.sub_0_r. reflexivity.
  - change ((a :: l1) ++ this :: l2) with (a :: (l1 ++ this :: l2)) in *.
    cbn [hd chain] in *.
    destruct Hc as (Ha & b & Hb & Hp & Hn & Hc).
    rewrite HeapBlock_free_eq, Hb.
    rewrite out_of_block_data by (apply Hout; apply list_elem_of_here).
    assert (Hnz : hd nxt (l1 ++ this :: l2) <> 0).
    { destruct l1 as [|a' l1]; cbn [app hd chain] in *; tauto. }
    assert (Hhd : hd nxt (l1 ++ this :: l2) = hd 0 (l1 ++ this :: l2))
      by (destruct l1; reflexivity).
    rewrite Hn. destruct (Z.eqb_spec (hd nxt (l1 ++ this :: l2)) 0);
      [contradiction|]. cbn [negb].
    destruct fuel as [|fuel]; [simpl in Hf; lia|].
    rewrite Hhd. cbn [length Nat.sub].
    apply (IH fuel a Hc).
    + intros x Hx. apply Hout. now apply list_elem_of_further.
    + simpl in Hf. lia.
Qed.

Lemma free_not_found (h : heap) (addr : Z) : forall l fuel prev,
  chain (blocks h) prev l 0 -> l <> [] ->
  (forall a, a ∈ l -> ~ in_block_data a addr) ->
  (length l <= S fuel)%nat ->
  HeapBlock_free fuel h (hd 0 l) addr = (print (FreeNotAllocated addr) h, Aborted).
Proof.
  induction l as [|a l IH]; intros fuel prev Hc Hne Hout Hf; [congruence|].
  cbn [hd chain] in *. destruct Hc as (Ha & b & Hb & Hp & Hn & Hc).
  rewrite HeapBlock_free_eq, Hb.
  rewrite out_of_block_data by (apply Hout; apply list_elem_of_here).
  rewrite Hn. destruct l as [|a' l].
  - reflexivity.
  - cbn [hd]. assert (Ha' : a' <> 0) by (cbn [chain] in Hc; tauto).
    destruct (Z.eqb_spec a' 0); [contradiction|]. cbn [negb].
    destruct fuel as [|fuel]; [simpl in Hf; lia|].
    apply (IH fuel a Hc); [discriminate| |simpl in Hf |- *; lia].
    intros x Hx. apply Hout. now apply list_elem_of_further.
Qed.

Lemma free_here (fuel : nat) (h : heap) (this addr : Z) (b : HeapBlock)
    (regs : list HeapHeader) (off : Z) (r : HeapHeader) :
  blocks h !! this = Some b ->
  layout (m_data b) 0 regs -> region_at 0 regs off r ->
  addr = data_address this + off + sizeof_HeapHeader ->
  HeapBlock_free fuel h this addr =
  if freed r then (print FreeAlreadyFreed h, Aborted)
  else merge_and_cleanup
         (set_data h this b (write_signature (m_data b) off Freed)) this.
Proof.
  intros Hb Hl Hr ->.
  pose proof (region_at_ge _ _ _ _ _ Hl Hr) as Hge.
  destruct (region_at_read _ _ _ _ _ Hl Hr) as (Hrd & Hreg & _ & Hbd).
  pose proof (is_region_inv _ Hreg) as (Hs & Hv & _).
  rewrite HeapBlock_free_eq, Hb.
  rewrite inside_block_data by (unfold in_block_data; sizes).
  cbv zeta.
  replace (data_address this + off + sizeof_HeapHeader - sizeof_HeapHeader
           - data_address this) with off by lia.
  rewrite (region_at_in_data _ _ _ _ Hl Hr). cbn [negb].
  rewrite Hrd, Hv. cbn [negb]. reflexivity.
Qed.

Lemma in_block_data_separated (a a' addr : Z) :
  a + sizeof_HeapBlock <= a' \/ a' + sizeof_HeapBlock <= a ->
  in_block_data a addr -> ~ in_block_data a' addr.
Proof. unfold in_block_data. intros H H1 H2. sizes. Qed.

(** ** [HeapBlock::merge_and_cleanup] *)

Lemma fully_empty_check (m : mem) (l : list HeapHeader) :
  layout m 0 l ->
  (available (read_header m 0)
   && (size (read_header m 0) =? sizeof_m_data - sizeof_HeapHeader * 2) = true
   <-> fully_empty l).
Proof.
  intros Hl. pose proof (layout_span _ _ _ Hl) as Hsp.
  destruct l as [|r0 rest].
  - cbn [span] in Hsp. exfalso. sizes.
  - pose proof Hl as (_ & Hh & Hr & Hl'). rewrite Hh.
    pose proof (span_nonneg _ _ _ Hl') as Hn. cbn [span] in Hsp.
    split.
    + intros H. apply andb_prop in H as [Hav Hs]. apply Z.eqb_eq in Hs.
      exists r0. split; [|exact Hav]. f_equal.
      destruct rest as [|r1 rest]; [reflexivity|].
      exfalso. cbn [length] in Hn. sizes.
    + intros (h & He & Hav). injection He as <- ->. cbn [span] in Hsp.
      rewrite Hav. cbn [andb]. apply Z.eqb_eq. sizes.
Qed.

Lemma fully_empty_dec (l : list HeapHeader) : fully_empty l \/ ~ fully_empty l.
Proof.
  destruct l as [|h [|h' l]].
  - right. intros (x & H & _). discriminate.
  - destruct (available h) eqn:Hav.
    + left. exists h. auto.
    + right. intros (x & H & Hx). injection H as <-. congruence.
  - right. intros (x & H & _). discriminate.
Qed.

(** The block is kept: it is the root, or it is not empty. *)
Lemma merge_and_cleanup_keep (h : heap) (this : Z) (b : HeapBlock)
    (regs : list HeapHeader) :
  blocks h !! this = Some b -> layout (m_data b) 0 regs ->
  ~ (fully_empty (coalesce regs) /\ m_prev b <> 0) ->
  exists m',
    merge_scan walk_fuel (m_data b) 0 = MergeDone m'
    /\ layout m' 0 (coalesce regs)
    /\ merge_and_cleanup h this = (set_data h this b m', Returned tt).
Proof.
  intros Hb Hl Hk.
  pose proof (layout_fuel _ _ _ (Z.le_refl 0) Hl) as Hf.
  destruct (merge_scan_layout walk_fuel _ _ _ Hl Hf) as (m' & Hm & Hl' & _).
  exists m'. split; [exact Hm|]. split; [exact Hl'|].
  unfold merge_and_cleanup. rewrite Hb, Hm. cbv zeta.
  pose proof (fully_empty_check _ _ Hl') as Hfe.
  destruct (available (read_header m' 0) && _) eqn:Hc; [|reflexivity].
  destruct (Z.eqb_spec (m_prev b) 0) as [H0|H0]; [reflexivity|].
  exfalso. apply Hk. split; [|exact H0]. apply Hfe. reflexivity.
Qed.

(** The block is released: it is empty and not the root. *)
Lemma merge_and_cleanup_release (h : heap) (this : Z) (b p : HeapBlock)
    (regs : list HeapHeader) :
  blocks h !! this = Some b -> layout (m_data b) 0 regs ->
  fully_empty (coalesce regs) -> m_prev b <> 0 ->
  m_prev b <> this -> m_next b <> this -> m_prev b <> m_next b ->
  blocks h !! m_prev b = Some p ->
  (m_next b = 0 \/ is_Some (blocks h !! m_next b)) ->
  exists bs1,
    (match blocks h !! m_next b with
     | Some n =>
       if m_next b =? 0 then bs1 = blocks h
       else bs1 = <[m_next b := mkBlock (m_prev b) (m_next n) (m_data n)]>
                    (blocks h)
     | None => bs1 = blocks h
     end)
    /\ merge_and_cleanup h this
       = (set_blocks h
            (delete this
               (<[m_prev b := mkBlock (m_prev p) (m_next b) (m_data p)]> bs1)),
          Returned tt).
Proof.
  intros Hb Hl Hfe Hp0 Hpt Hnt Hpn Hp Hn.
  pose proof (layout_fuel _ _ _ (Z.le_refl 0) Hl) as Hf.
  destruct (merge_scan_layout walk_fuel _ _ _ Hl Hf) as (m' & Hm & Hl' & _).
  unfold merge_and_cleanup. rewrite Hb, Hm. cbv zeta.
  apply (fully_empty_check _ _ Hl') in Hfe. rewrite Hfe.
  destruct (Z.eqb_spec (m_prev b) 0) as [?|_]; [contradiction|]. cbn [negb].
  destruct (Z.eqb_spec (m_next b) 0) as [Hn0|Hn0]; cbn [negb].
  - exists (blocks h). split.
    { destruct (blocks h !! m_next b); reflexivity. }
    unfold set_data, set_block, set_blocks. cbn [blocks].
    rewrite lookup_insert_ne by congruence. rewrite Hp. cbn.
    f_equal. f_equal.
    apply map_eq. intros i.
    destruct (decide (i = this)) as [->|Hi].
    + rewrite !lookup_delete_eq. reflexivity.
    + rewrite !lookup_delete_ne by congruence.
      destruct (decide (i = m_prev b)) as [->|Hi2].
      * rewrite !lookup_insert_eq. reflexivity.
      * rewrite !(lookup_insert_ne _ (m_prev b)) by congruence.
        rewrite lookup_insert_ne by congruence. reflexivity.
  - destruct Hn as [?|[n Hn]]; [contradiction|]. rewrite Hn.
    exists (<[m_next b := mkBlock (m_prev b) (m_next n) (m_data n)]> (blocks h)).
    split; [reflexivity|].
    unfold set_data, set_block, set_blocks. cbn [blocks].
    rewrite lookup_insert_ne by congruence. rewrite Hn. cbn [blocks].
    rewrite lookup_insert_ne by congruence.
    rewrite lookup_insert_ne by congruence. rewrite Hp. cbn.
    f_equal. f_equal.
    apply map_eq. intros i.
    destruct (decide (i = this)) as [->|Hi].
    + rewrite !lookup_delete_eq. reflexivity.
    + rewrite !lookup_delete_ne by congruence.
      destruct (decide (i = m_prev b)) as [->|Hi2].
      * rewrite !lookup_insert_eq. reflexivity.
      * rewrite !(lookup_insert_ne _ (m_prev b)) by congruence.
        destruct (decide (i = m_next b)) as [->|Hi3].
        -- rewrite !lookup_insert_eq. reflexivity.
        -- rewrite !(lookup_insert_ne _ (m_next b)) by congruence.
           rewrite lookup_insert_ne by congruence. reflexivity.
Qed.

Lemma separated_sep (l1 : list Z) (x : Z) (l2 : list Z) :
  separated (l1 ++ x :: l2) -> (x ∉ l1) /\ (x ∉ l2).
Proof.
  intros H. apply separated_app in H as (_ & H2 & H3). split.
  - intros Hin. specialize (H3 x x Hin (list_elem_of_here _ _)). sizes.
  - now apply separated_cons_notin.
Qed.

Lemma separated_remove (l1 : list Z) (x : Z) (l2 : list Z) :
  separated (l1 ++ x :: l2) -> separated (l1 ++ l2).
Proof.
  intros H. apply separated_app in H as (H1 & H2 & H3).
  apply separated_app_intro; auto.
  - cbn [separated] in H2. tauto.
  - intros a a' Ha Ha'. apply H3; auto. now apply list_elem_of_further.
Qed.

(** Taking the block [this] out of the chain: the block before it gets its
    successor, the block after it its predecessor. *)
Lemma unlink_chain (bs : gmap Z HeapBlock) (l1 : list Z) (p this : Z)
    (l2 : list Z) (b bp : HeapBlock) (prev : Z) :
  chain bs prev (l1 ++ p :: this :: l2) 0 ->
  separated (l1 ++ p :: this :: l2) ->
  bs !! this = Some b -> bs !! p = Some bp ->
  let bs1 :=
    match l2 with
    | [] => bs
    | n :: _ =>
      match bs !! n with
      | Some bn => <[n := mkBlock p (m_next bn) (m_data bn)]> bs
      | None => bs
      end
    end in
  chain (delete this (<[p := mkBlock (m_prev bp) (hd 0 l2) (m_data bp)]> bs1))
    prev (l1 ++ p :: l2) 0.
Proof.
  intros Hc Hs Hb Hbp bs1.
  pose proof (separated_sep _ _ _ Hs) as [Hp1 Hp2].
  pose proof (separated_sep (l1 ++ [p]) this l2) as Ht.
  rewrite <- app_assoc in Ht. specialize (Ht Hs). destruct Ht as [Ht1 Ht2].
  apply not_elem_of_app in Ht1 as [Ht1 Htp].
  apply not_elem_of_cons in Htp as [Htp _].
  apply not_elem_of_cons in Hp2 as [_ Hp2].
  apply chain_app in Hc as [Hc1 Hc2]. cbn [hd] in Hc1.
  cbn [chain] in Hc2.
  destruct Hc2 as (Hp0 & bp' & Hbp' & Hpp & Hpn & Ht0 & b' & Hb' & Hbprev
                   & Hbnext & Hc3).
  assert (bp' = bp) by congruence. subst bp'.
  assert (b' = b) by congruence. subst b'. cbn [hd] in Hpn.
  apply chain_app. cbn [hd]. split.
  - (* the blocks before [p] are untouched *)
    apply chain_delete_fresh; [exact Ht1|].
    apply chain_insert_fresh; [exact Hp1|].
    subst bs1. destruct l2 as [|n l2]; [exact Hc1|].
    destruct (bs !! n) as [bn|]; [|exact Hc1].
    apply chain_insert_fresh; [|exact Hc1].
    pose proof (separated_sep (l1 ++ [p; this]) n l2) as Hn.
    rewrite <- app_assoc in Hn. specialize (Hn Hs). destruct Hn as [Hn _].
    intros Hin. apply Hn. apply elem_of_app. now left.
  - cbn [chain]. split; [exact Hp0|].
    eexists. rewrite lookup_delete_ne by congruence.
    rewrite lookup_insert_eq. split; [reflexivity|]. cbn [m_prev m_next].
    split; [exact Hpp|]. split; [reflexivity|].
    subst bs1. destruct l2 as [|n l2]; [exact I|].
    cbn [chain hd] in Hc3 |- *.
    destruct Hc3 as (Hn0 & bn & Hbn & Hnp & Hnn & Hc4).
    rewrite Hbn. split; [exact Hn0|].
    pose proof (separated_sep (l1 ++ [p; this]) n l2) as Hn.
    rewrite <- app_assoc in Hn. specialize (Hn Hs). destruct Hn as [Hn1 Hn2].
    apply not_elem_of_app in Hn1 as [_ Hn1].
    apply not_elem_of_cons in Hn1 as [Hnp' Hn1].
    apply not_elem_of_cons in Hn1 as [Hnt _].
    apply not_elem_of_cons in Ht2 as [_ Ht2].
    apply not_elem_of_cons in Hp2 as [_ Hp2].
    eexists. rewrite lookup_delete_ne by congruence.
    rewrite lookup_insert_ne by congruence.
    rewrite lookup_insert_eq. split; [reflexivity|]. cbn [m_prev m_next].
    split; [reflexivity|]. split; [exact Hnn|].
    apply chain_delete_fresh; [exact Ht2|].
    apply chain_insert_fresh; [exact Hp2|].
    apply chain_insert_fresh; [exact Hn2|]. exact Hc4.
Qed.

Lemma wf_heap_set_data (h : heap) (l : list Z) (this : Z) (b : HeapBlock)
    (m : mem) (regs : list HeapHeader) :
  wf_heap h l -> blocks h !! this = Some b -> layout m 0 regs ->
  wf_heap (set_data h this b m) l.
Proof.
  intros (Hhd & Hc & Hs & Hly) Hb Hl.
  split; [exact Hhd|]. split; [|split; [exact Hs|]].
  - unfold set_data, set_block, set_blocks. cbn [blocks].
    eapply chain_insert_links; eauto.
  - intros a b' Ha Hb'. unfold set_data, set_block, set_blocks in Hb'.
    cbn [blocks] in Hb'.
    destruct (decide (this = a)) as [->|Hne].
    + rewrite lookup_insert_eq in Hb'. injection Hb' as <-. eauto.
    + rewrite lookup_insert_ne in Hb' by exact Hne. eauto.
Qed.

Lemma wf_heap_block (h : heap) (l1 : list Z) (this : Z) (l2 : list Z) :
  wf_heap h (l1 ++ this :: l2) ->
  exists b,
    blocks h !! this = Some b
    /\ m_prev b = List.last l1 0 /\ m_next b = hd 0 l2
    /\ this <> 0
    /\ (l1 = [] <-> this = g_heap_storage h)
    /\ (l1 = [] <-> m_prev b = 0).
Proof.
  intros (Hhd & Hc & Hs & _).
  pose proof (separated_sep _ _ _ Hs) as [Hn1 _].
  pose proof Hc as Hc0.
  apply chain_app in Hc as [Hc1 Hc2]. cbn [chain] in Hc2.
  destruct Hc2 as (H0 & b & Hb & Hp & Hn & _).
  exists b. repeat split; auto.
  - intros ->. cbn in Hhd. congruence.
  - intros He. destruct l1 as [|x l1]; [reflexivity|].
    cbn in Hhd. injection Hhd as Hx. exfalso. apply Hn1.
    rewrite He, <- Hx. apply list_elem_of_here.
  - intros ->. exact Hp.
  - intros He. destruct l1 as [|x l1]; [reflexivity|]. exfalso.
    rewrite Hp in He.
    destruct (exists_last (l := x :: l1) ltac:(discriminate)) as (l' & y & Hy).
    rewrite Hy in He, Hc0. rewrite last_last in He. subst y.
    rewrite <- app_assoc in Hc0. apply chain_app in Hc0 as [_ Hc0].
    cbn [app chain] in Hc0. tauto.
Qed.

(** Releasing a block that is not the root keeps the heap well formed, with
    the block gone from the chain. *)
Lemma release_wf (h : heap) (l1 : list Z) (p this : Z) (l2 : list Z)
    (b : HeapBlock) (regs : list HeapHeader) :
  wf_heap h (l1 ++ p :: this :: l2) ->
  blocks h !! this = Some b -> layout (m_data b) 0 regs ->
  fully_empty (coalesce regs) ->
  exists h',
    merge_and_cleanup h this = (h', Returned tt)
    /\ wf_heap h' (l1 ++ p :: l2)
    /\ blocks h' !! this = None
    /\ g_heap_storage h' = g_heap_storage h
    /\ stdout h' = stdout h.
Proof.
  intros Hwf Hb Hl Hfe.
  pose proof Hwf as (Hhd & Hc & Hs & Hly).
  pose proof (wf_heap_block h (l1 ++ [p]) this l2) as Hblk.
  rewrite <- app_assoc in Hblk. specialize (Hblk Hwf).
  destruct Hblk as (b' & Hb' & Hbp & Hbn & Ht0 & _ & Hroot).
  assert (b' = b) by congruence. subst b'.
  rewrite last_last in Hbp.
  destruct (wf_heap_block h l1 p (this :: l2) Hwf)
    as (bp & Hbp' & _ & _ & Hp0 & _ & _).
  pose proof (separated_sep (l1 ++ [p]) this l2) as Ht.
  rewrite <- app_assoc in Ht. specialize (Ht Hs). destruct Ht as [Ht1 Ht2].
  apply not_elem_of_app in Ht1 as [Ht1 Htp].
  apply not_elem_of_cons in Htp as [Htp _].
  pose proof (separated_sep _ _ _ Hs) as [Hp1 Hp2].
  apply not_elem_of_cons in Hp2 as [_ Hp2].
  assert (Hnx : m_next b = 0 \/ is_Some (blocks h !! m_next b)).
  { rewrite Hbn. destruct l2 as [|n l2]; [now left|right]. cbn [hd].
    eapply (chain_lookup _ _ _ _ n Hc).
    rewrite !elem_of_app, !elem_of_cons. auto. }
  assert (Hnt : m_next b <> this).
  { rewrite Hbn. destruct l2 as [|n l2]; cbn [hd]; [congruence|].
    apply not_elem_of_cons in Ht2. intros ->. tauto. }
  assert (Hpn : m_prev b <> m_next b).
  { rewrite Hbp, Hbn. destruct l2 as [|n l2]; cbn [hd]; [congruence|].
    apply not_elem_of_cons in Hp2. intros ->. tauto. }
  destruct (merge_and_cleanup_release h this b bp regs Hb Hl Hfe)
    as (bs1 & Hbs1 & Hres); try congruence.
  rewrite Hres. eexists. split; [reflexivity|].
  assert (Hbs1' : bs1 =
    match l2 with
    | [] => blocks h
    | n :: _ =>
      match blocks h !! n with
      | Some bn => <[n := mkBlock p (m_next bn) (m_data bn)]> (blocks h)
      | None => blocks h
      end
    end).
  { rewrite Hbn, Hbp in Hbs1. destruct l2 as [|n l2]; cbn [hd] in Hbs1.
    - destruct (blocks h !! 0); exact Hbs1.
    - destruct (blocks h !! n) as [bn|]; [|exact Hbs1].
      assert (n <> 0).
      { eapply (chain_lookup _ _ _ _ n Hc).
        rewrite !elem_of_app, !elem_of_cons. auto. }
      destruct (Z.eqb_spec n 0); [contradiction|exact Hbs1]. }
  split; [|split; [|split; reflexivity]].
  - split; [|split; [|split]].
    + cbn [g_heap_storage set_blocks]. rewrite <- Hhd.
      destruct l1; reflexivity.
    + unfold set_blocks. cbn [blocks]. rewrite Hbp, Hbn, Hbs1'.
      apply (unlink_chain (blocks h) l1 p this l2 b bp 0 Hc Hs Hb Hbp').
    + pose proof (separated_remove (l1 ++ [p]) this l2) as Hrm.
      rewrite <- !app_assoc in Hrm. exact (Hrm Hs).
    + intros a ba Ha Hba. unfold set_blocks in Hba. cbn [blocks] in Hba.
      assert (Hat : a <> this).
      { intros ->. rewrite elem_of_app, elem_of_cons in Ha.
        destruct Ha as [?|[?|?]]; tauto. }
      rewrite lookup_delete_ne in Hba by congruence.
      assert (Hin : a ∈ l1 ++ p :: this :: l2).
      { rewrite elem_of_app, !elem_of_cons in *. tauto. }
      rewrite Hbp in Hba.
      destruct (decide (p = a)) as [->|Hap].
      { rewrite lookup_insert_eq in Hba. injection Hba as <-.
        cbn [m_data]. eapply Hly; eauto. }
      rewrite lookup_insert_ne in Hba by exact Hap.
      rewrite Hbs1' in Hba. destruct l2 as [|n l2]; [eapply Hly; eauto|].
      destruct (blocks h !! n) as [bn|] eqn:Hbn'; [|eapply Hly; eauto].
      destruct (decide (n = a)) as [->|Han].
      { rewrite lookup_insert_eq in Hba. injection Hba as <-.
        cbn [m_data]. eapply Hly; eauto. }
      rewrite lookup_insert_ne in Hba by exact Han. eapply Hly; eauto.
  - unfold set_blocks. cbn [blocks]. apply lookup_delete_eq.
Qed.

Lemma wf_heap_root (h : heap) (l : list Z) :
  wf_heap h l -> is_Some (blocks h !! g_heap_storage h).
Proof.
  intros (Hhd & Hc & _). destruct l as [|a l]; [discriminate|].
  injection Hhd as <-. cbn [chain] in Hc.
  destruct Hc as (_ & b & Hb & _). eauto.
Qed.

Lemma merge_and_cleanup_wf (h : heap) (l1 : list Z) (this : Z)
    (l2 : list Z) (b : HeapBlock) (regs : list HeapHeader) :
  wf_heap h (l1 ++ this :: l2) ->
  blocks h !! this = Some b -> layout (m_data b) 0 regs ->
  exists h',
    merge_and_cleanup h this = (h', Returned tt)
    /\ g_heap_storage h' = g_heap_storage h
    /\ (blocks h' !! this = None
        <-> fully_empty (coalesce regs) /\ this <> g_heap_storage h)
    /\ (blocks h' !! this = None -> wf_heap h' (l1 ++ l2))
    /\ (blocks h' !! this <> None ->
        wf_heap h' (l1 ++ this :: l2)
        /\ exists b', blocks h' !! this = Some b'
                      /\ layout (m_data b') 0 (coalesce regs)
                      /\ merge_scan walk_fuel (m_data b) 0
                         = MergeDone (m_data b'))
    /\ is_Some (blocks h' !! g_heap_storage h')
    /\ stdout h' = stdout h.
Proof.
  intros Hwf Hb Hl.
  destruct (wf_heap_block _ _ _ _ Hwf) as (b' & Hb' & Hbp & Hbn & Ht0 & Hroot
                                            & Hprev).
  assert (b' = b) by congruence. subst b'.
  assert (Hkeep : ~ (fully_empty (coalesce regs) /\ m_prev b <> 0) ->
    exists h',
      merge_and_cleanup h this = (h', Returned tt)
      /\ g_heap_storage h' = g_heap_storage h
      /\ (blocks h' !! this = None
          <-> fully_empty (coalesce regs) /\ this <> g_heap_storage h)
      /\ (blocks h' !! this = None -> wf_heap h' (l1 ++ l2))
      /\ (blocks h' !! this <> None ->
          wf_heap h' (l1 ++ this :: l2)
          /\ exists b', blocks h' !! this = Some b'
                        /\ layout (m_data b') 0 (coalesce regs)
                        /\ merge_scan walk_fuel (m_data b) 0
                           = MergeDone (m_data b'))
      /\ is_Some (blocks h' !! g_heap_storage h')
      /\ stdout h' = stdout h).
  { intros Hk.
    destruct (merge_and_cleanup_keep h this b regs Hb Hl Hk)
      as (m' & Hm & Hl' & Hres).
    exists (set_data h this b m'). split; [exact Hres|].
    assert (Hlk : blocks (set_data h this b m') !! this
                  = Some (mkBlock (m_prev b) (m_next b) m')).
    { unfold set_data, set_block, set_blocks. cbn [blocks].
      apply lookup_insert_eq. }
    assert (Hwf' : wf_heap (set_data h this b m') (l1 ++ this :: l2))
      by (eapply wf_heap_set_data; eauto).
    split; [reflexivity|]. split; [|split; [|split; [|split]]].
    - rewrite Hlk. split; [discriminate|].
      intros [Hfe Hnr]. exfalso. apply Hk. split; [exact Hfe|].
      intros H0. apply Hnr. apply Hroot. apply Hprev. exact H0.
    - rewrite Hlk. discriminate.
    - intros _. split; [exact Hwf'|]. eexists. split; [exact Hlk|].
      split; [exact Hl'|exact Hm].
    - eapply wf_heap_root. exact Hwf'.
    - reflexivity. }
  destruct (fully_empty_dec (coalesce regs)) as [Hfe|Hnfe];
    [|apply Hkeep; tauto].
  destruct l1 as [|x l1].
  { apply Hkeep. intros [_ H0]. apply H0. apply Hprev. reflexivity. }
  destruct (exists_last (l := x :: l1) ltac:(discriminate)) as (l1' & p & Hp).
  rewrite Hp in *. rewrite <- app_assoc in Hwf. cbn [app] in Hwf.
  destruct (release_wf h l1' p this l2 b regs Hwf Hb Hl Hfe)
    as (h' & Hres & Hwf' & Hgone & Hg & Hout).
  exists h'. split; [exact Hres|]. split; [exact Hg|].
  assert (Hnr : this <> g_heap_storage h).
  { intros He. apply Hroot in He. destruct l1'; discriminate. }
  split; [|split; [|split; [|split]]].
  - rewrite Hgone. tauto.
  - intros _. rewrite <- app_assoc. exact Hwf'.
  - rewrite Hgone. congruence.
  - eapply wf_heap_root. exact Hwf'.
  - exact Hout.
Qed.

(** C7: after coalescing, the block is taken out of the chain and unmapped
    exactly when it has become one available region and is not the root; the
    chain that remains is linked up again, and the root is still there. *)
Theorem cleanup_releases_non_root (h : heap) (l1 : list Z) (this : Z)
    (l2 : list Z) (b : HeapBlock) (regs : list HeapHeader) :
  wf_heap h (l1 ++ this :: l2) ->
  blocks h !! this = Some b -> layout (m_data b) 0 regs ->
  exists h',
    merge_and_cleanup h this = (h', Returned tt)
    /\ g_heap_storage h' = g_heap_storage h
    /\ (blocks h' !! this = None
        <-> fully_empty (coalesce regs) /\ this <> g_heap_storage h)
    /\ (blocks h' !! this = None -> wf_heap h' (l1 ++ l2))
    /\ (blocks h' !! this <> None ->
        wf_heap h' (l1 ++ this :: l2)
        /\ exists b', blocks h' !! this = Some b'
                      /\ layout (m_data b') 0 (coalesce regs))
    /\ is_Some (blocks h' !! g_heap_storage h').
Proof.
  intros Hwf Hb Hl.
  destruct (merge_and_cleanup_wf h l1 this l2 b regs Hwf Hb Hl)
    as (h' & H1 & H2 & H3 & H4 & H5 & H6 & _).
  exists h'. split; [exact H1|]. split; [exact H2|]. split; [exact H3|].
  split; [exact H4|]. split; [|exact H6].
  intros Hn. destruct (H5 Hn) as (Hw & b' & Hb' & Hl' & _). eauto.
Qed.


(** ** Freeing a region in use *)

Lemma merge_scan_signature (m m' : mem) (l : list HeapHeader) (o : Z)
    (r : HeapHeader) :
  layout m 0 l -> region_at 0 l o r ->
  merge_scan walk_fuel m 0 = MergeDone m' ->
  signature (read_header m' o) = signature r.
Proof.
  intros Hl Hr Hm.
  pose proof (layout_fuel _ _ _ (Z.le_refl 0) Hl) as Hf.
  destruct (merge_scan_layout walk_fuel _ _ _ Hl Hf)
    as (m2 & Hm2 & _ & _ & Hfr).
  rewrite Hm in Hm2. injection Hm2 as <-.
  destruct (region_at_read _ _ _ _ _ Hl Hr) as (Hrd & Hreg & _).
  rewrite <- Hrd. unfold read_header. cbn [signature].
  apply load32_ext. intros x Hx. apply Hfr. intros o' r' Hr'.
  destruct (region_at_read _ _ _ _ _ Hl Hr') as (_ & Hreg' & _).
  apply is_region_inv in Hreg as [Hs _]. apply is_region_inv in Hreg' as [Hs' _].
  destruct (region_at_separated _ _ _ _ _ _ _ Hl Hr Hr') as [->|[H|H]];
    unfold sizeof_HeapHeader in *; lia.
Qed.

Lemma region_at_mark_freed (m : mem) (l : list HeapHeader) : forall off o r,
  layout m off l -> region_at off l o r ->
  region_at off (mark_freed off l o) o (mkHeader (sig_value Freed) (size r)).
Proof.
  induction l as [|h l IH]; cbn [region_at mark_freed]; intros off o r Hl H;
    [contradiction|].
  pose proof Hl as (_ & _ & Hreg & Hl').
  apply is_region_inv in Hreg as [Hs _].
  destruct (Z.eqb_spec o off) as [->|Hne].
  - destruct H as [[_ ->]|H]; cbn [region_at]; [now left|].
    pose proof (region_at_ge _ _ _ _ _ Hl' H). unfold sizeof_HeapHeader in *.
    lia.
  - destruct H as [[-> _]|H]; [contradiction|].
    cbn [region_at]. right. now apply (IH _ _ _ Hl').
Qed.

Lemma free_live_wf (fuel : nat) (h : heap) (l1 : list Z) (this : Z)
    (l2 : list Z) (b : HeapBlock) (regs : list HeapHeader) (off : Z)
    (r : HeapHeader) (addr : Z) :
  wf_heap h (l1 ++ this :: l2) ->
  blocks h !! this = Some b -> layout (m_data b) 0 regs ->
  region_at 0 regs off r -> freed r = false ->
  addr = data_address this + off + sizeof_HeapHeader ->
  exists h',
    HeapBlock_free fuel h this addr = (h', Returned tt)
    /\ g_heap_storage h' = g_heap_storage h
    /\ stdout h' = stdout h
    /\ (blocks h' !! this = None
        <-> fully_empty (coalesce (mark_freed 0 regs off))
            /\ this <> g_heap_storage h)
    /\ (blocks h' !! this = None -> wf_heap h' (l1 ++ l2))
    /\ (blocks h' !! this <> None ->
        wf_heap h' (l1 ++ this :: l2)
        /\ exists b', blocks h' !! this = Some b'
             /\ layout (m_data b') 0 (coalesce (mark_freed 0 regs off))
             /\ freed (read_header (m_data b') off) = true).
Proof.
  intros Hwf Hb Hl Hr Hfr Haddr.
  rewrite (free_here fuel h this addr b regs off r Hb Hl Hr Haddr), Hfr.
  set (m1 := write_signature (m_data b) off Freed).
  pose proof (layout_mark_freed _ _ _ _ _ Hl Hr) as Hl1. fold m1 in Hl1.
  assert (Hwf1 : wf_heap (set_data h this b m1) (l1 ++ this :: l2))
    by (eapply wf_heap_set_data; eauto).
  assert (Hb1 : blocks (set_data h this b m1) !! this
                = Some (mkBlock (m_prev b) (m_next b) m1)).
  { unfold set_data, set_block, set_blocks. cbn [blocks].
    apply lookup_insert_eq. }
  destruct (merge_and_cleanup_wf _ _ _ _ _ _ Hwf1 Hb1 Hl1)
    as (h' & H1 & H2 & H3 & H4 & H5 & _ & H7).
  exists h'. split; [exact H1|]. split; [exact H2|]. split; [exact H7|].
  split; [exact H3|]. split; [exact H4|].
  intros Hn. destruct (H5 Hn) as (Hw & b' & Hb' & Hl' & Hm).
  split; [exact Hw|]. exists b'. split; [exact Hb'|]. split; [exact Hl'|].
  cbn [m_data] in Hm. unfold freed. apply Z.eqb_eq.
  apply (merge_scan_signature _ _ _ off
           (mkHeader (sig_value Freed) (size r)) Hl1); [|exact Hm].
  eapply region_at_mark_freed; eauto.
Qed.

(** ** Runs *)




(** ** Addresses in use *)

Lemma wf_heap_head (h : heap) (l : list Z) :
  wf_heap h l -> hd 0 l = g_heap_storage h.
Proof. intros (Hhd & _). destruct l; [discriminate|]. now injection Hhd. Qed.

Lemma live_in_block_data (h : heap) (this : Z) (regs : list HeapHeader)
    (off addr : Z) :
  live_at h this regs off addr -> in_block_data this addr.
Proof.
  intros (b & r & Hb & Hl & Hr & _ & ->).
  pose proof (region_at_ge _ _ _ _ _ Hl Hr).
  destruct (region_at_read _ _ _ _ _ Hl Hr) as (_ & Hreg & _ & Hbd).
  apply is_region_inv in Hreg as [Hs _].
  unfold in_block_data. sizes.
Qed.

(** ** [HeapBlock::alloc] in the block it is called on *)

Lemma HeapBlock_alloc_eq (fuel : nat) (h : heap) (this sz align : Z) :
  HeapBlock_alloc fuel h this sz align =
  if align =? 0 then (print AllocInvalidAlign h, Returned 0)
  else
    let align := Z.max sizeof_ptr align in
    let old_size := sz in
    let sz := aligned_size sz align in
    if negb (old_size <=? sz) then (print AllocAssertFailed h, Aborted)
    else
      match blocks h !! this with
      | None => (h, WildAccess)
      | Some b =>
        match alloc_walk walk_fuel (m_data b) 0 sz with
        | Allocated m off =>
          (set_data h this b m,
           Returned (data_address this + off + sizeof_HeapHeader))
        | InvalidSignature sig off =>
          (print (AllocInvalidSignature sig (data_address this + off)) h,
           Aborted)
        | EndOfBlock =>
          match ensure_next_allocated_from_os h this with
          | (h, Returned _) =>
            match blocks h !! this with
            | None => (h, WildAccess)
            | Some b =>
              match fuel with
              | O => (h, OutOfFuel)
              | S fuel' => HeapBlock_alloc fuel' h (m_next b) sz align
              end
            end
          | (h, Aborted) => (h, Aborted)
          | (h, WildAccess) => (h, WildAccess)
          | (h, OutOfFuel) => (h, OutOfFuel)
          end
        | NoSuitableBlock => (print AllocNoSuitableBlock h, Returned 0)
        | AllocWild => (h, WildAccess)
        | AllocOutOfFuel => (h, OutOfFuel)
        end
      end.
Proof. destruct fuel; reflexivity. Qed.

(** The request is placed in the block [alloc] is called on when a region
    of it has room. *)
Lemma alloc_here (fuel : nat) (h : heap) (this : Z) (b : HeapBlock)
    (regs regs' : list HeapHeader) (sz0 align o : Z) :
  blocks h !! this = Some b -> layout (m_data b) 0 regs ->
  align <> 0 ->
  let sz := aligned_size sz0 (Z.max sizeof_ptr align) in
  sz0 <= sz -> 0 < sz -> sz + 16 < 2 ^ 64 ->
  first_fit 0 regs sz = Some (o, regs') ->
  exists m',
    HeapBlock_alloc fuel h this sz0 align
    = (set_data h this b m',
       Returned (data_address this + o + sizeof_HeapHeader))
    /\ layout m' 0 regs'.
Proof.
  intros Hb Hl Ha sz Hle Hpos Hsmall Hff.
  pose proof (layout_fuel _ _ _ (Z.le_refl 0) Hl) as Hf.
  pose proof (alloc_walk_layout regs walk_fuel (m_data b) 0 sz Hl Hf Hpos Hsmall)
    as Hw.
  rewrite Hff in Hw. destruct Hw as (m' & Hw & Hl' & _).
  exists m'. split; [|exact Hl'].
  rewrite HeapBlock_alloc_eq.
  destruct (Z.eqb_spec align 0); [contradiction|]. cbv zeta. fold sz.
  destruct (Z.leb_spec sz0 sz); [|lia]. cbn [negb].
  rewrite Hb, Hw. reflexivity.
Qed.

Lemma first_fit_region (l : list HeapHeader) : forall off sz o l',
  first_fit off l sz = Some (o, l') ->
  region_at off l' o (header_of Used sz)
  /\ exists r, region_at off l o r /\ available r = true
               /\ sz + 16 <= size r.
Proof.
  induction l as [|h l IH]; cbn [first_fit]; intros off sz o l' H;
    [discriminate|].
  destruct (available h && _) eqn:Hc.
  - injection H as <- <-. apply andb_prop in Hc as [Hav Hs].
    apply Z.leb_le in Hs. split; [cbn [region_at]; now left|].
    exists h. split; [cbn [region_at]; now left|]. split; [exact Hav|].
    unfold sizeof_HeapHeader in *. lia.
  - destruct (first_fit _ l sz) as [[o' r']|] eqn:E; [|discriminate].
    injection H as <- <-. destruct (IH _ _ _ _ E) as (H1 & r & H2 & H3).
    split; [cbn [region_at]; now right|].
    exists r. split; [cbn [region_at]; now right|exact H3].
Qed.

(** What [alloc] returns is live. *)
Lemma alloc_here_live (fuel : nat) (h : heap) (this : Z) (b : HeapBlock)
    (regs regs' : list HeapHeader) (sz0 align o : Z) :
  blocks h !! this = Some b -> layout (m_data b) 0 regs ->
  align <> 0 ->
  let sz := aligned_size sz0 (Z.max sizeof_ptr align) in
  sz0 <= sz -> 0 < sz -> sz + 16 < 2 ^ 64 ->
  first_fit 0 regs sz = Some (o, regs') ->
  exists h',
    HeapBlock_alloc fuel h this sz0 align
    = (h', Returned (data_address this + o + sizeof_HeapHeader))
    /\ live_at h' this regs' o (data_address this + o + sizeof_HeapHeader).
Proof.
  intros Hb Hl Ha sz Hle Hpos Hsmall Hff.
  destruct (alloc_here fuel h this b regs regs' sz0 align o Hb Hl Ha Hle Hpos
              Hsmall Hff) as (m' & Hres & Hl').
  eexists. split; [exact Hres|].
  exists (mkBlock (m_prev b) (m_next b) m'), (header_of Used sz).
  split.
  { unfold set_data, set_block, set_blocks. cbn [blocks].
    apply lookup_insert_eq. }
  split; [exact Hl'|]. split; [|split; reflexivity].
  apply (first_fit_region _ _ _ _ _ Hff).
Qed.

(** ** Allocate, free, allocate again *)

Lemma coalesce_id (l : list HeapHeader) : coalesced l -> coalesce l = l.
Proof.
  induction l as [|h l IH]; [reflexivity|].
  intros Hc. cbn [coalesce].
  destruct l as [|h' l]; [reflexivity|].
  cbn [coalesced] in Hc. destruct Hc as [Hn Hc].
  rewrite (IH Hc), Hn. reflexivity.
Qed.

Lemma coalesced_tail (h : HeapHeader) (l : list HeapHeader) :
  coalesced (h :: l) -> coalesced l.
Proof. destruct l; cbn [coalesced]; tauto. Qed.

Lemma mark_freed_head_available (m : mem) (l : list HeapHeader) :
  forall off sz o l1,
  layout m off l -> first_fit off l sz = Some (o, l1) ->
  match mark_freed off l o, l with
  | x :: _, y :: _ => available x = available y
  | [], [] => True
  | _, _ => False
  end.
Proof.
  destruct l as [|h l]; cbn [first_fit mark_freed]; intros off sz o l1 Hl H;
    [discriminate|].
  destruct (available h && _) eqn:Hc.
  - injection H as <- _. rewrite Z.eqb_refl.
    apply andb_prop in Hc as [Hav _]. rewrite Hav. reflexivity.
  - destruct (first_fit _ l sz) as [[o' r']|] eqn:E; [|discriminate].
    injection H as <- _.
    pose proof Hl as (_ & _ & Hreg & Hl').
    apply is_region_inv in Hreg as [Hs _].
    assert (Hge : off + sizeof_HeapHeader + size h <= o').
    { apply (first_fit_offset l _ sz o' r'); [|exact E].
      intros x Hx. pose proof (layout_sizes _ _ _ Hl' x Hx). lia. }
    destruct (Z.eqb_spec o' off) as [He|_];
      [unfold sizeof_HeapHeader in *; lia|reflexivity].
Qed.

Lemma coalesce_after_free (m : mem) (l : list HeapHeader) :
  forall off sz o l1,
  layout m off l -> coalesced l -> 0 < sz ->
  first_fit off l sz = Some (o, l1) ->
  coalesce (mark_freed off l1 o) = mark_freed off l o.
Proof.
  induction l as [|h l IH]; cbn [first_fit]; intros off sz o l1 Hl Hc Hsz H;
    [discriminate|].
  pose proof Hl as (_ & _ & Hreg & Hl').
  apply is_region_inv in Hreg as [Hs _].
  destruct (available h && _) eqn:Hfit.
  - injection H as <- <-. apply andb_prop in Hfit as [Hav Hle].
    apply Z.leb_le in Hle. cbn [mark_freed]. rewrite Z.eqb_refl.
    cbn [size header_of].
    rewrite (coalesce_absorb _ (mkHeader (sig_value Freed) sz) eq_refl).
    cbn [size signature absorb].
    change (available (header_of Empty (size h - sz - sizeof_HeapHeader)))
      with true. cbv iota.
    assert (Habs : absorb (sz + size (header_of Empty
                                        (size h - sz - sizeof_HeapHeader))
                           + sizeof_HeapHeader) l = (size h, l)).
    { cbn [size header_of].
      replace (sz + (size h - sz - sizeof_HeapHeader) + sizeof_HeapHeader)
        with (size h) by lia.
      destruct l as [|h' l]; [reflexivity|]. cbn [absorb].
      cbn [coalesced] in Hc. destruct Hc as [Hn _]. rewrite Hav in Hn.
      cbn [andb] in Hn. rewrite Hn. reflexivity. }
    rewrite Habs. cbn [fst snd].
    rewrite (coalesce_id l (coalesced_tail _ _ Hc)). reflexivity.
  - destruct (first_fit _ l sz) as [[o' r']|] eqn:E; [|discriminate].
    injection H as <- <-.
    assert (Hge : off + sizeof_HeapHeader + size h <= o').
    { apply (first_fit_offset l _ sz o' r'); [|exact E].
      intros x Hx. pose proof (layout_sizes _ _ _ Hl' x Hx). lia. }
    cbn [mark_freed].
    destruct (Z.eqb_spec o' off) as [He|_];
      [unfold sizeof_HeapHeader in *; lia|].
    pose proof (IH _ _ _ _ Hl' (coalesced_tail _ _ Hc) Hsz E) as IH'.
    pose proof (mark_freed_head_available m l _ _ _ _ Hl' E) as Hhd.
    cbn [coalesce]. rewrite IH'.
    destruct (mark_freed _ l o') as [|x xs] eqn:Hm, l as [|y ys];
      try contradiction; [reflexivity|].
    cbn [coalesced] in Hc. destruct Hc as [Hn _].
    rewrite Hhd, Hn. reflexivity.
Qed.

Lemma first_fit_mark_freed (m : mem) (l : list HeapHeader) :
  forall off sz o l1,
  layout m off l -> first_fit off l sz = Some (o, l1) ->
  exists l2, first_fit off (mark_freed off l o) sz = Some (o, l2).
Proof.
  induction l as [|h l IH]; cbn [first_fit]; intros off sz o l1 Hl H;
    [discriminate|].
  pose proof Hl as (_ & _ & Hreg & Hl').
  apply is_region_inv in Hreg as [Hs _].
  destruct (available h && _) eqn:Hfit.
  - injection H as <- _. cbn [mark_freed]. rewrite Z.eqb_refl.
    cbn [first_fit size].
    apply andb_prop in Hfit as [_ Hle]. rewrite Hle.
    change (available {| signature := sig_value Freed; size := size h |})
      with true. cbn [andb]. eauto.
  - destruct (first_fit _ l sz) as [[o' r']|] eqn:E; [|discriminate].
    injection H as <- _.
    assert (Hge : off + sizeof_HeapHeader + size h <= o').
    { apply (first_fit_offset l _ sz o' r'); [|exact E].
      intros x Hx. pose proof (layout_sizes _ _ _ Hl' x Hx). lia. }
    cbn [mark_freed].
    destruct (Z.eqb_spec o' off) as [He|_];
      [unfold sizeof_HeapHeader in *; lia|].
    cbn [first_fit]. rewrite Hfit.
    destruct (IH _ _ _ _ Hl' E) as (l2 & Hl2). rewrite Hl2. eauto.
Qed.

Lemma fully_empty_mark_freed (l : list HeapHeader) (off sz o : Z)
    (l1 : list HeapHeader) :
  first_fit off l sz = Some (o, l1) ->
  fully_empty (mark_freed off l o) -> fully_empty l.
Proof.
  destruct l as [|h [|h' l]]; cbn [first_fit mark_freed]; intros H Hfe.
  - discriminate.
  - destruct (available h && _) eqn:Hfit; [|discriminate].
    apply andb_prop in Hfit as [Hav _]. exists h. auto.
  - destruct Hfe as (x & He & _).
    destruct (o =? off); [discriminate|].
    destruct (o =? _); discriminate.
Qed.

Lemma alloc_free_alloc (fuel : nat) (h : heap) (this : Z) (b : HeapBlock)
    (regs regs1 regs1' : list HeapHeader) (sz0 sz0' align o : Z) :
  blocks h !! this = Some b -> layout (m_data b) 0 regs -> coalesced regs ->
  m_prev b = 0 \/ ~ fully_empty regs ->
  align <> 0 ->
  let sz := aligned_size sz0 (Z.max sizeof_ptr align) in
  let sz' := aligned_size sz0' (Z.max sizeof_ptr align) in
  sz0 <= sz -> 0 < sz -> sz + 16 < 2 ^ 64 ->
  sz0' <= sz' -> 0 < sz' -> sz' + 16 < 2 ^ 64 ->
  first_fit 0 regs sz = Some (o, regs1) ->
  first_fit 0 regs sz' = Some (o, regs1') ->
  let p := data_address this + o + sizeof_HeapHeader in
  exists h1 h2 h3,
    HeapBlock_alloc fuel h this sz0 align = (h1, Returned p)
    /\ HeapBlock_free fuel h1 this p = (h2, Returned tt)
    /\ HeapBlock_alloc fuel h2 this sz0' align = (h3, Returned p).
Proof.
  intros Hb Hl Hco Hkeep Ha sz sz' Hle Hpos Hsmall Hle' Hpos' Hsmall' Hff Hff' p.
  (* the first allocation *)
  destruct (alloc_here fuel h this b regs regs1 sz0 align o Hb Hl Ha Hle Hpos
              Hsmall Hff) as (m1 & Hres1 & Hl1).
  set (h1 := set_data h this b m1) in *.
  set (b1 := mkBlock (m_prev b) (m_next b) m1).
  assert (Hb1 : blocks h1 !! this = Some b1).
  { unfold h1, set_data, set_block, set_blocks. cbn [blocks].
    apply lookup_insert_eq. }
  (* the free *)
  destruct (first_fit_region _ _ _ _ _ Hff) as (Hr1 & _).
  pose proof (free_here fuel h1 this p b1 regs1 o (header_of Used sz) Hb1 Hl1
                Hr1 eq_refl) as Hfree.
  change (freed (header_of Used sz)) with false in Hfree. cbv iota in Hfree.
  set (mm := write_signature (m_data b1) o Freed) in *.
  pose proof (layout_mark_freed _ _ _ _ _ Hl1 Hr1) as Hlm.
  change (m_data b1) with m1 in *. fold mm in Hlm.
  assert (Hbm : blocks (set_data h1 this b1 mm) !! this
                = Some (mkBlock (m_prev b1) (m_next b1) mm)).
  { unfold set_data, set_block, set_blocks. cbn [blocks].
    apply lookup_insert_eq. }
  pose proof (coalesce_after_free _ _ _ _ _ _ Hl Hco Hpos Hff) as Hrest.
  destruct (merge_and_cleanup_keep _ this _ _ Hbm Hlm) as (m2 & _ & Hl2 & Hres2).
  { cbn [m_prev b1]. rewrite Hrest. intros [Hfe Hp].
    destruct Hkeep as [Hk|Hk]; [contradiction|].
    apply Hk. eapply fully_empty_mark_freed; eauto. }
  rewrite Hres2 in Hfree. rewrite Hrest in Hl2.
  set (h2 := set_data (set_data h1 this b1 mm) this
               (mkBlock (m_prev b1) (m_next b1) mm) m2) in *.
  assert (Hb2 : blocks h2 !! this = Some (mkBlock (m_prev b) (m_next b) m2)).
  { unfold h2, set_data, set_block, set_blocks. cbn [blocks].
    apply lookup_insert_eq. }
  (* the second allocation *)
  destruct (first_fit_mark_freed _ _ _ _ _ _ Hl Hff') as (regs2 & Hff2).
  destruct (alloc_here fuel h2 this _ _ regs2 sz0' align o Hb2 Hl2 Ha Hle' Hpos'
              Hsmall' Hff2) as (m3 & Hres3 & _).
  exists h1, h2. eexists. split; [exact Hres1|]. split; [exact Hfree|].
  exact Hres3.
Qed.

Lemma first_fit_coalesced (l : list HeapHeader) : forall off sz o l',
  coalesced l -> first_fit off l sz = Some (o, l') -> coalesced l'.
Proof.
  induction l as [|h l IH]; cbn [first_fit]; intros off sz o l' Hc H;
    [discriminate|].
  destruct (available h && _) eqn:Hfit.
  - injection H as _ <-. apply andb_prop in Hfit as [Hav _].
    cbn [coalesced]. split; [reflexivity|].
    destruct l as [|h' l]; [exact I|].
    cbn [coalesced] in Hc. destruct Hc as [Hn Hc]. rewrite Hav in Hn.
    split; [exact Hn|exact Hc].
  - destruct (first_fit _ l sz) as [[o' r']|] eqn:E; [|discriminate].
    injection H as _ <-.
    pose proof (IH _ _ _ _ (coalesced_tail _ _ Hc) E) as Hr.
    destruct l as [|h' l]; [discriminate|].
    cbn [coalesced] in Hc. destruct Hc as [Hn _].
    cbn [first_fit] in E.
    destruct (available h' && _) eqn:Hfit'.
    + injection E as _ <-. cbn [coalesced] in *.
      split; [|exact Hr]. apply andb_false_r.
    + destruct (first_fit _ l sz) as [[o2 r2]|]; [|discriminate].
      injection E as _ <-. cbn [coalesced]. split; [exact Hn|exact Hr].
Qed.

(** The data of a block is coalesced in every state it goes through. *)
Lemma reachable_coalesced (m : mem) :
  reachable m -> exists regs, layout m 0 regs /\ coalesced regs.
Proof.
  induction 1 as [m0|m m' _ (regs & Hl & Hc) Hs].
  - exists [header_of Empty 16352]. split; [apply layout_init|exact I].
  - destruct Hs as [m1 m1' sz off Hsz Hw | m1 m1' regs0 off r Hl0 Hr Hf Hm].
    + destruct (alloc_walk_allocated _ _ _ _ _ Hl Hsz Hw)
        as (_ & _ & regs' & Hff & Hl' & _).
      exists regs'. split; [exact Hl'|]. eapply first_fit_coalesced; eauto.
    + pose proof (layout_mark_freed _ _ _ _ _ Hl0 Hr) as Hl1.
      pose proof (layout_fuel _ _ _ (Z.le_refl 0) Hl1) as Hfu.
      destruct (merge_scan_layout walk_fuel _ _ _ Hl1 Hfu)
        as (m2 & Hm2 & Hl2 & _).
      rewrite Hm in Hm2. injection Hm2 as <-.
      eexists. split; [exact Hl2|]. apply coalesced_coalesce.
Qed.

(** C9, as the code has it: in a block that the release leaves in the chain
    (the root, or a block holding something else), a request that is placed,
    released, and followed by a request for which the first-fit walk of the
    block stops at the same region as it did for the first one is given the
    same address again.  This is so whenever the second request rounds to the
    size of the first. *)
Theorem reuse_same_region (fuel : nat) (h : heap) (this : Z) (b : HeapBlock)
    (regs regs1 regs1' : list HeapHeader) (sz0 sz0' align o : Z) :
  blocks h !! this = Some b -> layout (m_data b) 0 regs -> coalesced regs ->
  m_prev b = 0 \/ ~ fully_empty regs ->
  align <> 0 ->
  let sz := aligned_size sz0 (Z.max sizeof_ptr align) in
  let sz' := aligned_size sz0' (Z.max sizeof_ptr align) in
  sz0 <= sz -> 0 < sz -> sz + 16 < 2 ^ 64 ->
  sz0' <= sz' -> 0 < sz' -> sz' + 16 < 2 ^ 64 ->
  first_fit 0 regs sz = Some (o, regs1) ->
  first_fit 0 regs sz' = Some (o, regs1') ->
  let p := data_address this + o + sizeof_HeapHeader in
  exists h1 h2 h3,
    HeapBlock_alloc fuel h this sz0 align = (h1, Returned p)
    /\ HeapBlock_free fuel h1 this p = (h2, Returned tt)
    /\ HeapBlock_alloc fuel h2 this sz0' align = (h3, Returned p).
Proof.
  exact (alloc_free_alloc fuel h this b regs regs1 regs1' sz0 sz0' align o).
Qed.

(** C9 as stated fails: with a freed region of 24 bytes at the start of the
    block, 16 bytes are placed behind it, released, and the following request
    for 8 bytes, with the same alignment and nothing allocated in between, is
    placed in the region at the start. *)
Lemma reuse_other_region :
  let r1 := my_malloc 1 hole_heap 16 1 in
  let r2 := my_free 1 (fst r1) 93824992247880 in
  let r3 := my_malloc 1 (fst r2) 8 1 in
  snd r1 = Returned 93824992247880
  /\ snd r2 = Returned tt
  /\ snd r3 = Returned 93824992247832
  /\ 8 <= 16.
Proof. vm_compute. repeat split. discriminate. Qed.

(** ** Requests between the payload limit and the threshold of [my_malloc] *)

Lemma first_fit_none_large (m : mem) (l : list HeapHeader) : forall off sz,
  layout m off l -> 16336 < sz -> first_fit off l sz = None.
Proof.
  induction l as [|h l IH]; cbn [first_fit]; intros off sz Hl Hsz;
    [reflexivity|].
  pose proof (layout_sizes _ _ _ Hl h (or_introl eq_refl)) as Hs.
  destruct Hl as (_ & _ & _ & Hl).
  destruct (Z.leb_spec (sz + sizeof_HeapHeader * 2) (size h)) as [H|_];
    [unfold sizeof_HeapHeader in H; lia|].
  rewrite andb_false_r. rewrite (IH _ _ Hl Hsz). reflexivity.
Qed.

(** 16336 bytes is the most a block can ever hold in one region. *)
Lemma max_payload (m : mem) (regs : list HeapHeader) (sz : Z) :
  layout m 0 regs -> 16336 < sz -> sz + 16 < 2 ^ 64 ->
  alloc_walk walk_fuel m 0 sz = EndOfBlock.
Proof.
  intros Hl Hsz Hsmall.
  pose proof (layout_fuel _ _ _ (Z.le_refl 0) Hl) as Hf.
  pose proof (alloc_walk_layout regs walk_fuel m 0 sz Hl Hf ltac:(lia) Hsmall)
    as Hw.
  rewrite (first_fit_none_large _ _ _ _ Hl Hsz) in Hw. exact Hw.
Qed.

Lemma ensure_next_fresh (h : heap) (this : Z) (b : HeapBlock) :
  blocks h !! this = Some b -> m_next b = 0 ->
  let memory := mmap_results h (mmap_calls h) in
  memory <> 0 -> memory <> MAP_FAILED -> memory <> this ->
  exists h',
    ensure_next_allocated_from_os h this = (h', Returned tt)
    /\ blocks h' !! this = Some (mkBlock (m_prev b) memory (m_data b))
    /\ blocks h' !! memory = Some (HeapBlock_new this)
    /\ mmap_calls h' = S (mmap_calls h)
    /\ mmap_results h' = mmap_results h
    /\ big_blocks h' = big_blocks h
    /\ g_heap_storage h' = g_heap_storage h
    /\ stdout h' = stdout h
    /\ blocks h' = <[memory := HeapBlock_new this]>
                     (<[this := mkBlock (m_prev b) memory (m_data b)]>
                        (blocks h)).
Proof.
  intros Hb Hn memory H0 Hf Ht.
  unfold ensure_next_allocated_from_os. rewrite Hb, Hn.
  change (0 =? 0) with true. cbv iota. unfold mmap. cbv zeta. fold memory.
  destruct (Z.eqb_spec memory 0); [contradiction|].
  destruct (Z.eqb_spec memory MAP_FAILED); [contradiction|].
  eexists. split; [reflexivity|].
  unfold set_block, set_blocks. cbn [blocks mmap_calls mmap_results big_blocks].
  rewrite lookup_insert_ne by congruence. rewrite !lookup_insert_eq.
  repeat split.
Qed.

Lemma alloc_grows_forever (fuel : nat) :
  forall (h : heap) (this : Z) (b : HeapBlock) (regs : list HeapHeader)
         (sz0 align : Z),
  blocks h !! this = Some b -> m_next b = 0 -> layout (m_data b) 0 regs ->
  align <> 0 ->
  let a := Z.max sizeof_ptr align in
  let sz := aligned_size sz0 a in
  sz0 <= sz -> aligned_size sz a = sz -> 16336 < sz -> sz + 16 < 2 ^ 64 ->
  fresh_mmap h this ->
  snd (HeapBlock_alloc fuel h this sz0 align) = OutOfFuel
  /\ mmap_calls (fst (HeapBlock_alloc fuel h this sz0 align))
     = (mmap_calls h + S fuel)%nat
  /\ big_blocks (fst (HeapBlock_alloc fuel h this sz0 align)) = big_blocks h.
Proof.
  induction fuel as [|fuel IH];
    intros h this b regs sz0 align Hb Hn Hl Ha a sz Hle Hidem Hbig Hsmall
           [Hfresh Hinj].
  all: rewrite HeapBlock_alloc_eq.
  all: destruct (Z.eqb_spec align 0); [contradiction|].
  all: cbv zeta; fold a; fold sz.
  all: destruct (Z.leb_spec sz0 sz); [|lia]; cbn [negb].
  all: rewrite Hb, (max_payload _ _ _ Hl Hbig Hsmall).
  all: destruct (Hfresh (mmap_calls h) (le_n _)) as (Hm0 & Hmf & Hmt).
  all: destruct (ensure_next_fresh h this b Hb Hn Hm0 Hmf Hmt)
         as (h2 & He & Hb2 & Hbm & Hc2 & Hr2 & Hg2 & _).
  all: rewrite He, Hb2.
  - cbn [snd fst]. rewrite Hc2, Hg2. repeat split. lia.
  - cbn [m_next].
    destruct (IH h2 (mmap_results h (mmap_calls h)) (HeapBlock_new this)
                [header_of Empty 16352] sz a) as (H1 & H2 & H3).
    + exact Hbm.
    + reflexivity.
    + apply layout_init.
    + unfold a, sizeof_ptr. lia.
    + replace (Z.max sizeof_ptr a) with a by (unfold a; lia).
      rewrite Hidem. lia.
    + replace (Z.max sizeof_ptr a) with a by (unfold a; lia).
      rewrite !Hidem. reflexivity.
    + replace (Z.max sizeof_ptr a) with a by (unfold a; lia).
      rewrite Hidem. exact Hbig.
    + replace (Z.max sizeof_ptr a) with a by (unfold a; lia).
      rewrite Hidem. exact Hsmall.
    + unfold fresh_mmap. rewrite Hc2, Hr2. split.
      * intros k Hk. destruct (Hfresh k ltac:(lia)) as (K0 & Kf & _).
        repeat split; auto.
        intros He'. apply (Hinj (mmap_calls h) k); [lia|lia|congruence].
      * intros k k' Hk Hk'. apply Hinj; lia.
    + rewrite H1, H2, H3, Hc2, Hg2. repeat split. lia.
Qed.

Lemma bump_mmap_fresh (this : Z) :
  this < 0x7f0000000000 -> fresh_mmap (lazy_init heap0) this.
Proof.
  intros Ht. unfold fresh_mmap, lazy_init, heap0. cbn. unfold bump_mmap, MAP_FAILED.
  split.
  - intros k _. repeat split; lia.
  - intros k k' _ Hk. lia.
Qed.

(** C1 fails between the two limits.  16336 bytes is the most a block can
    hold, [my_malloc] sends a request to the oversized path only above
    [sizeof(HeapBlock) - sizeof(HeapHeader)] = 16376 bytes, and a request in
    between is given to the chain, where it fits no block: each block passes
    it on to a block mapped for it, without end. *)
Theorem threshold_request_never_served (fuel : nat) :
  alloc_walk walk_fuel fresh_data 0 (aligned_size 16337 (Z.max sizeof_ptr 1))
  = EndOfBlock
  /\ snd (my_malloc fuel heap0 16337 1) = OutOfFuel
  /\ mmap_calls (fst (my_malloc fuel heap0 16337 1)) = S fuel
  /\ big_blocks (fst (my_malloc fuel heap0 16337 1)) = ∅.
Proof.
  split; [vm_compute; reflexivity|].
  unfold my_malloc.
  change (sizeof_HeapBlock - sizeof_HeapHeader <? 16337) with false. cbv iota.
  destruct (alloc_grows_forever fuel (lazy_init heap0)
              (g_heap_storage (lazy_init heap0)) (HeapBlock_new 0)
              [header_of Empty 16352] 16337 1) as (H1 & H2 & H3).
  - reflexivity.
  - reflexivity.
  - apply layout_init.
  - discriminate.
  - vm_compute. discriminate.
  - vm_compute. reflexivity.
  - vm_compute. reflexivity.
  - vm_compute. reflexivity.
  - apply bump_mmap_fresh. vm_compute. reflexivity.
  - rewrite H1, H2, H3. repeat split.
Qed.

(** The largest request a block can hold is served from the root block. *)
Lemma max_payload_served :
  snd (my_malloc 0 heap0 16336 1)
  = Returned (data_address (g_heap_storage heap0) + sizeof_HeapHeader).
Proof. vm_compute. reflexivity. Qed.

(** X3: above the threshold the request is given a mapping of its own, the
    header of which is tagged [BigBlock] and holds the length as a [u32];
    the address returned is the one behind that header, and the blocks of
    the chain are those the first call sets up, untouched. *)
Lemma my_malloc_oversized (fuel : nat) (h : heap) (sz align : Z) :
  sizeof_HeapBlock - sizeof_HeapHeader < sz ->
  let memory := mmap_results h (mmap_calls h) in
  memory <> 0 -> memory <> MAP_FAILED ->
  exists h' bytes,
    my_malloc fuel h sz align = (h', Returned (memory + sizeof_HeapHeader))
    /\ big_blocks h' !! memory = Some (wrap64 (sz + sizeof_HeapHeader), bytes)
    /\ read_header bytes 0
       = header_of BigBlock (wrap32 (sz + sizeof_HeapHeader))
    /\ blocks h' = blocks (lazy_init h).
Proof.
  intros Hsz memory H0 Hf. unfold my_malloc.
  destruct (Z.ltb_spec (sizeof_HeapBlock - sizeof_HeapHeader) sz); [|lia].
  unfold mmap. cbv zeta.
  assert (Hm : mmap_results (lazy_init h) (mmap_calls (lazy_init h)) = memory).
  { unfold lazy_init. destruct (g_heap_initialized h); reflexivity. }
  rewrite Hm.
  destruct (Z.eqb_spec memory 0); [contradiction|].
  destruct (Z.eqb_spec memory MAP_FAILED); [contradiction|].
  eexists. eexists. split; [reflexivity|]. cbn [big_blocks blocks].
  split; [apply lookup_insert_eq|]. split; [|reflexivity].
  rewrite read_write_size by apply wrap32_range.
  rewrite read_write_signature. reflexivity.
Qed.

(** ** A request for no bytes *)

(** C5 fails for a request that rounds to zero bytes: the region is marked
    in use with length zero, [next()] of it is then the null pointer, and the
    new header is constructed there. *)
Theorem zero_size_request_wild (fuel : nat) :
  snd (my_malloc fuel heap0 0 1) = WildAccess
  /\ alloc_walk walk_fuel fresh_data 0 (aligned_size 0 (Z.max sizeof_ptr 1))
     = AllocWild.
Proof.
  split.
  - unfold my_malloc. rewrite HeapBlock_alloc_eq. vm_compute. reflexivity.
  - vm_compute. reflexivity.
Qed.

(** ** Chains of one and two blocks *)

Lemma wf_heap_one (h : heap) (b : HeapBlock) (regs : list HeapHeader) :
  blocks h !! g_heap_storage h = Some b -> g_heap_storage h <> 0 ->
  m_prev b = 0 -> m_next b = 0 -> layout (m_data b) 0 regs ->
  wf_heap h [g_heap_storage h].
Proof.
  intros Hb H0 Hp Hn Hl. split; [reflexivity|]. split; [|split].
  - cbn [chain hd]. split; [exact H0|]. exists b. auto.
  - cbn [separated]. auto.
  - intros a b' Ha Hb'. apply elem_of_cons in Ha as [->|Ha].
    + rewrite Hb in Hb'. injection Hb' as <-. eauto.
    + apply elem_of_nil in Ha. contradiction.
Qed.

Lemma wf_heap_two (h : heap) (a : Z) (b1 b2 : HeapBlock)
    (regs1 regs2 : list HeapHeader) :
  blocks h !! g_heap_storage h = Some b1 -> blocks h !! a = Some b2 ->
  g_heap_storage h <> 0 -> a <> 0 ->
  g_heap_storage h + sizeof_HeapBlock <= a
  \/ a + sizeof_HeapBlock <= g_heap_storage h ->
  m_prev b1 = 0 -> m_next b1 = a -> m_prev b2 = g_heap_storage h ->
  m_next b2 = 0 ->
  layout (m_data b1) 0 regs1 -> layout (m_data b2) 0 regs2 ->
  wf_heap h [g_heap_storage h; a].
Proof.
  intros Hb1 Hb2 H0 Ha0 Hsep Hp1 Hn1 Hp2 Hn2 Hl1 Hl2.
  split; [reflexivity|]. split; [|split].
  - cbn [chain hd]. split; [exact H0|]. exists b1.
    repeat split; auto. exists b2. auto.
  - cbn [separated]. repeat split; auto.
  - intros x b' Hx Hb'. apply elem_of_cons in Hx as [->|Hx].
    + rewrite Hb1 in Hb'. injection Hb' as <-. eauto.
    + apply elem_of_cons in Hx as [->|Hx].
      * rewrite Hb2 in Hb'. injection Hb' as <-. eauto.
      * apply elem_of_nil in Hx. contradiction.
Qed.

(** ** [HeapBlock::alloc] along the chain *)

Lemma alloc_rounded (fuel : nat) (h : heap) (this sz0 align : Z) :
  align <> 0 ->
  let a := Z.max sizeof_ptr align in
  let sz := aligned_size sz0 a in
  sz0 <= sz -> aligned_size sz a = sz ->
  HeapBlock_alloc fuel h this sz0 align = HeapBlock_alloc fuel h this sz a.
Proof.
  intros Ha a sz Hle Hidem. rewrite !HeapBlock_alloc_eq.
  destruct (Z.eqb_spec align 0); [contradiction|].
  assert (Ha8 : 8 <= a) by (unfold a, sizeof_ptr; lia).
  destruct (Z.eqb_spec a 0); [lia|]. cbv zeta. fold a. fold sz.
  replace (Z.max sizeof_ptr a) with a by (unfold sizeof_ptr; lia).
  rewrite Hidem.
  destruct (Z.leb_spec sz0 sz); [|lia].
  destruct (Z.leb_spec sz sz); [|lia]. reflexivity.
Qed.

Lemma wf_heap_grow (h : heap) (l : list Z) (this : Z) (b : HeapBlock)
    (memory : Z) (bs' : gmap Z HeapBlock) (h' : heap) :
  wf_heap h (l ++ [this]) -> blocks h !! this = Some b ->
  memory <> 0 ->
  Forall (fun a => a + sizeof_HeapBlock <= memory
                   \/ memory + sizeof_HeapBlock <= a) (l ++ [this]) ->
  g_heap_storage h' = g_heap_storage h ->
  blocks h' = <[memory := HeapBlock_new this]>
                (<[this := mkBlock (m_prev b) memory (m_data b)]> (blocks h)) ->
  wf_heap h' (l ++ [this; memory]).
Proof.
  intros (Hhd & Hc & Hs & Hly) Hb Hm0 Hfresh Hg Hbs.
  assert (Hnotin : memory ∉ l ++ [this]).
  { intros Hin. rewrite Forall_forall in Hfresh. specialize (Hfresh _ Hin).
    sizes. }
  apply not_elem_of_app in Hnotin as [Hml Hmt].
  apply not_elem_of_cons in Hmt as [Hmt _].
  pose proof (separated_sep _ _ _ Hs) as [Htl _].
  split; [|split; [|split]].
  - rewrite Hg, <- Hhd. destruct l; reflexivity.
  - rewrite Hbs. apply chain_app in Hc as [Hc1 Hc2]. cbn [hd] in Hc1.
    apply chain_app. cbn [hd]. split.
    + apply chain_insert_fresh; [exact Hml|].
      apply chain_insert_fresh; [exact Htl|exact Hc1].
    + cbn [chain hd] in Hc2 |- *.
      destruct Hc2 as (Ht0 & b' & Hb' & Hp & _).
      assert (b' = b) by congruence. subst b'.
      split; [exact Ht0|]. eexists.
      rewrite lookup_insert_ne by congruence. rewrite lookup_insert_eq.
      split; [reflexivity|]. cbn [m_prev m_next].
      split; [exact Hp|]. split; [reflexivity|].
      split; [exact Hm0|]. eexists. rewrite lookup_insert_eq.
      split; [reflexivity|]. repeat split.
  - replace (l ++ [this; memory]) with ((l ++ [this]) ++ [memory])
      by (rewrite <- app_assoc; reflexivity).
    apply separated_app_intro; [exact Hs|cbn [separated]; auto|].
    intros x y Hx Hy. apply list_elem_of_singleton in Hy as ->.
    rewrite Forall_forall in Hfresh. apply (Hfresh x Hx).
  - intros x bx Hx Hbx. rewrite Hbs in Hbx.
    destruct (decide (memory = x)) as [<-|Hne].
    { rewrite lookup_insert_eq in Hbx. injection Hbx as <-.
      exists [header_of Empty 16352]. apply layout_init. }
    rewrite lookup_insert_ne in Hbx by exact Hne.
    destruct (decide (this = x)) as [<-|Hne'].
    { rewrite lookup_insert_eq in Hbx. injection Hbx as <-. cbn [m_data].
      apply (Hly this b); [|exact Hb].
      apply elem_of_app. right. apply list_elem_of_here. }
    rewrite lookup_insert_ne in Hbx by exact Hne'.
    apply (Hly x bx); [|exact Hbx].
    rewrite elem_of_app, !elem_of_cons in Hx.
    apply elem_of_app. rewrite elem_of_cons.
    destruct Hx as [?|[?|[?|Hx]]]; try tauto; try congruence.
    all: try (apply elem_of_nil in Hx; contradiction).
Qed.

Lemma first_fit_fresh (sz : Z) :
  0 < sz <= 16336 ->
  first_fit 0 [header_of Empty 16352] sz
  = Some (0, [header_of Used sz; header_of Empty (16352 - sz - 8)]).
Proof.
  intros Hsz. cbn [first_fit header_of size].
  change (available {| signature := sig_value Empty; size := 16352 |})
    with true.
  destruct (Z.leb_spec (sz + sizeof_HeapHeader * 2) 16352);
    [reflexivity|unfold sizeof_HeapHeader in *; lia].
Qed.

Lemma alloc_here_rounded (fuel : nat) (h : heap) (this : Z) (b : HeapBlock)
    (regs regs' : list HeapHeader) (sz a o : Z) :
  blocks h !! this = Some b -> layout (m_data b) 0 regs ->
  8 <= a -> aligned_size sz a = sz -> 0 < sz -> sz + 16 < 2 ^ 64 ->
  first_fit 0 regs sz = Some (o, regs') ->
  exists m',
    HeapBlock_alloc fuel h this sz a
    = (set_data h this b m',
       Returned (data_address this + o + sizeof_HeapHeader))
    /\ layout m' 0 regs'
    /\ live_at (set_data h this b m') this regs' o
         (data_address this + o + sizeof_HeapHeader).
Proof.
  intros Hb Hl Ha Hidem Hpos Hsmall Hff.
  assert (Hmax : Z.max sizeof_ptr a = a) by (unfold sizeof_ptr; lia).
  destruct (alloc_here fuel h this b regs regs' sz a o Hb Hl) as (m' & Hres & Hl');
    rewrite ?Hmax, ?Hidem; try lia; try exact Hff.
  exists m'. split; [exact Hres|]. split; [exact Hl'|].
  exists (mkBlock (m_prev b) (m_next b) m'), (header_of Used sz).
  split.
  { unfold set_data, set_block, set_blocks. cbn [blocks].
    apply lookup_insert_eq. }
  split; [exact Hl'|]. split; [|split; reflexivity].
  apply (first_fit_region _ _ _ _ _ Hff).
Qed.

(** ** Live addresses under [alloc] and [free] *)

Lemma layout_unique (m : mem) (l : list HeapHeader) : forall off l',
  layout m off l -> layout m off l' -> l = l'.
Proof.
  induction l as [|h l IH]; intros off [|h' l'] H H'; cbn [layout] in *.
  - reflexivity.
  - destruct H as [H _]. destruct H' as (_ & H1 & H2 & _).
    rewrite H in H1. subst h'. discriminate.
  - destruct H' as [H' _]. destruct H as (_ & H1 & H2 & _).
    rewrite H' in H1. subst h. discriminate.
  - destruct H as (_ & H1 & _ & H3). destruct H' as (_ & H1' & _ & H3').
    assert (He : h = h') by congruence. rewrite <- He in *.
    f_equal. exact (IH _ _ H3 H3').
Qed.

Lemma region_at_first_fit (l : list HeapHeader) : forall off sz o l' x r,
  first_fit off l sz = Some (o, l') ->
  region_at off l x r -> available r = false -> region_at off l' x r.
Proof.
  induction l as [|h l IH]; cbn [first_fit region_at];
    intros off sz o l' x r H Hr Hav; [contradiction|].
  destruct (available h && _) eqn:Hfit.
  - injection H as _ <-. apply andb_prop in Hfit as [Hh _].
    destruct Hr as [[_ ->]|Hr]; [congruence|].
    cbn [region_at size header_of]. right. right.
    replace (off + sizeof_HeapHeader + sz + sizeof_HeapHeader
             + (size h - sz - sizeof_HeapHeader))
      with (off + sizeof_HeapHeader + size h) by lia.
    exact Hr.
  - destruct (first_fit _ l sz) as [[o' r']|] eqn:E; [|discriminate].
    injection H as _ <-. cbn [region_at].
    destruct Hr as [Hr|Hr]; [now left|right]. eapply IH; eauto.
Qed.

Lemma region_at_mark_freed_other (l : list HeapHeader) : forall off o x r,
  region_at off l x r -> x <> o -> region_at off (mark_freed off l o) x r.
Proof.
  induction l as [|h l IH]; cbn [region_at mark_freed]; intros off o x r Hr Hne;
    [contradiction|].
  destruct (Z.eqb_spec o off) as [->|Ho].
  - destruct Hr as [[-> _]|Hr]; [contradiction|].
    cbn [region_at size]. right. exact Hr.
  - cbn [region_at]. destruct Hr as [Hr|Hr]; [now left|right]. now apply IH.
Qed.

Lemma region_at_coalesce (l : list HeapHeader) : forall off x r,
  region_at off l x r -> available r = false ->
  region_at off (coalesce l) x r.
Proof.
  induction l as [|h l IH]; intros off x r Hr Hav; [contradiction|].
  cbn [region_at] in Hr. destruct Hr as [[-> ->]|Hr].
  - rewrite (coalesce_cons_used h l Hav). cbn [region_at]. now left.
  - apply (IH _ _ _ Hr) in Hav as Hc. cbn [coalesce].
    destruct (coalesce l) as [|h' r'] eqn:E; [contradiction|].
    destruct (available h && available h') eqn:Hb.
    + apply andb_prop in Hb as [_ Hh'].
      cbn [region_at] in Hc |- *. destruct Hc as [[_ ->]|Hc]; [congruence|].
      right. cbn [size].
      replace (off + sizeof_HeapHeader + (size h + size h' + sizeof_HeapHeader))
        with (off + sizeof_HeapHeader + size h + sizeof_HeapHeader + size h')
        by lia.
      exact Hc.
    + cbn [region_at]. right. exact Hc.
Qed.

Lemma fully_empty_available (l : list HeapHeader) (off x : Z) (r : HeapHeader) :
  fully_empty l -> region_at off l x r -> available r = true.
Proof.
  intros (h & -> & Hav) Hr. cbn [region_at] in Hr.
  destruct Hr as [[_ ->]|[]]. exact Hav.
Qed.

Lemma used_not_available (r : HeapHeader) :
  signature r = sig_value Used -> available r = false.
Proof. unfold available. intros ->. reflexivity. Qed.

Lemma live_at_same_data (h h' : heap) (t : Z) (regs : list HeapHeader)
    (off q : Z) :
  live_at h t regs off q ->
  (forall b, blocks h !! t = Some b ->
     exists b', blocks h' !! t = Some b' /\ m_data b' = m_data b) ->
  live_at h' t regs off q.
Proof.
  intros (b & r & Hb & Hl & Hr & Hu & Hq) Hsame.
  destruct (Hsame b Hb) as (b' & Hb' & Hd).
  exists b', r. rewrite Hd. auto.
Qed.

(** [merge_and_cleanup] leaves the data of the other blocks alone. *)
Lemma merge_and_cleanup_others (h h' : heap) (this x : Z) (bx : HeapBlock) :
  merge_and_cleanup h this = (h', Returned tt) ->
  x <> this -> blocks h !! x = Some bx ->
  exists bx', blocks h' !! x = Some bx' /\ m_data bx' = m_data bx.
Proof.
  unfold merge_and_cleanup. intros H Hx Hbx.
  destruct (blocks h !! this) as [b|]; [|discriminate].
  destruct (merge_scan _ _ _) as [m| |]; try discriminate. cbv zeta in H.
  assert (Hkeep : blocks (set_data h this b m) !! x = Some bx).
  { unfold set_data, set_block, set_blocks. cbn [blocks].
    rewrite lookup_insert_ne by congruence. exact Hbx. }
  destruct (available _ && _); [|injection H as <-; eauto].
  destruct (negb (m_prev b =? 0)); [|injection H as <-; eauto].
  set (h1 := set_data h this b m) in *.
  destruct (negb (m_next b =? 0)).
  - destruct (blocks h1 !! m_next b) as [n|] eqn:Hn; [|discriminate].
    set (h2 := set_block h1 (m_next b) _) in *.
    assert (H2 : exists b2, blocks h2 !! x = Some b2 /\ m_data b2 = m_data bx).
    { unfold h2, set_block, set_blocks. cbn [blocks].
      destruct (decide (m_next b = x)) as [He|Hne].
      - rewrite He in *. rewrite lookup_insert_eq. eexists. split; [reflexivity|].
        cbn [m_data]. congruence.
      - rewrite lookup_insert_ne by exact Hne. eauto. }
    destruct H2 as (b2 & Hb2 & Hd2).
    destruct (blocks h2 !! m_prev b) as [p|] eqn:Hp; [|discriminate].
    injection H as <-. unfold set_blocks, set_block. cbn [blocks].
    rewrite lookup_delete_ne by congruence.
    destruct (decide (m_prev b = x)) as [He|Hne].
    + rewrite He in *. rewrite lookup_insert_eq. eexists. split; [reflexivity|].
      cbn [m_data]. congruence.
    + rewrite lookup_insert_ne by exact Hne. eauto.
  - destruct (blocks h1 !! m_prev b) as [p|] eqn:Hp; [|discriminate].
    injection H as <-. unfold set_blocks, set_block. cbn [blocks].
    rewrite lookup_delete_ne by congruence.
    destruct (decide (m_prev b = x)) as [He|Hne].
    + rewrite He in *. rewrite lookup_insert_eq. eexists. split; [reflexivity|].
      cbn [m_data]. congruence.
    + rewrite lookup_insert_ne by exact Hne. eauto.
Qed.

(** On a well-formed heap [alloc] at the root returns: the request is
    placed in the first block with room for it, or in a block mapped for it
    behind the last one; the heap stays well formed, the address returned is
    live, and the addresses that were live still are. *)
Lemma alloc_chain (sz a : Z) : forall lrest lpre fuel h,
  wf_heap h (lpre ++ lrest) -> lrest <> [] ->
  8 <= a -> aligned_size sz a = sz -> 0 < sz <= 16336 ->
  fresh_block h (lpre ++ lrest) ->
  (length lrest <= fuel)%nat ->
  exists h' l' this regs o,
    HeapBlock_alloc fuel h (hd 0 lrest) sz a
    = (h', Returned (data_address this + o + sizeof_HeapHeader))
    /\ wf_heap h' l'
    /\ this ∈ l'
    /\ live_at h' this regs o (data_address this + o + sizeof_HeapHeader)
    /\ (l' = lpre ++ lrest
        \/ l' = lpre ++ lrest ++ [mmap_results h (mmap_calls h)])
    /\ stdout h' = stdout h
    /\ (forall x, is_Some (blocks h' !! x) -> is_Some (blocks h !! x) \/ x ∈ l')
    /\ (forall q t regs0 off0,
          t ∈ lpre ++ lrest -> live_at h t regs0 off0 q ->
          exists regs1, live_at h' t regs1 off0 q).
Proof.
  induction lrest as [|this rest IH];
    intros lpre fuel h Hwf Hne Ha Hidem Hsz Hfresh Hfuel; [congruence|].
  cbn [hd].
  destruct (wf_heap_block _ _ _ _ Hwf) as (b & Hb & Hbp & Hbn & Ht0 & _).
  pose proof Hwf as (_ & _ & _ & Hly).
  destruct (Hly this b) as (regs & Hl); [|exact Hb|].
  { apply elem_of_app. right. apply list_elem_of_here. }
  assert (Hmax : Z.max sizeof_ptr a = a) by (unfold sizeof_ptr; lia).
  destruct (first_fit 0 regs sz) as [[o regs']|] eqn:Hff.
  - (* placed here *)
    destruct (alloc_here_rounded fuel h this b regs regs' sz a o Hb Hl Ha Hidem
                ltac:(lia) ltac:(lia) Hff) as (m' & Hres & Hl' & Hlive).
    exists (set_data h this b m'), (lpre ++ this :: rest), this, regs', o.
    split; [exact Hres|]. split; [eapply wf_heap_set_data; eauto|].
    split; [apply elem_of_app; right; apply list_elem_of_here|].
    split; [exact Hlive|]. split; [now left|]. split; [reflexivity|].
    split.
    { intros x. unfold set_data, set_block, set_blocks. cbn [blocks].
      rewrite lookup_insert_is_Some. intros [<-|[_ Hx]]; left; eauto. }
    intros q t regs0 off0 _ Hq.
    destruct (decide (t = this)) as [->|Hne'].
    + destruct Hq as (b0 & r & Hb0 & Hl0 & Hr0 & Hu & Hqa).
      assert (b0 = b) by congruence. subst b0.
      rewrite <- (layout_unique _ _ _ _ Hl Hl0) in Hr0.
      exists regs', (mkBlock (m_prev b) (m_next b) m'), r.
      split.
      { unfold set_data, set_block, set_blocks. cbn [blocks].
        apply lookup_insert_eq. }
      split; [exact Hl'|]. split; [|auto].
      eapply region_at_first_fit; eauto. now apply used_not_available.
    + exists regs0. apply (live_at_same_data h _ _ _ _ _ Hq).
      intros b0 Hb0. exists b0. split; [|reflexivity].
      unfold set_data, set_block, set_blocks. cbn [blocks].
      rewrite lookup_insert_ne by congruence. exact Hb0.
  - (* no room here *)
    pose proof (layout_fuel _ _ _ (Z.le_refl 0) Hl) as Hf.
    pose proof (alloc_walk_layout regs walk_fuel (m_data b) 0 sz Hl Hf
                  ltac:(lia) ltac:(lia)) as Hw.
    rewrite Hff in Hw.
    rewrite HeapBlock_alloc_eq.
    destruct (Z.eqb_spec a 0) as [?|_]; [lia|]. cbv zeta.
    rewrite Hmax, Hidem.
    destruct (Z.leb_spec sz sz); [|lia]. cbn [negb].
    rewrite Hb, Hw.
    destruct fuel as [|fuel]; [simpl in Hfuel; lia|].
    destruct rest as [|nx rest].
    + (* the last block: a new one is mapped *)
      cbn [hd] in Hbn.
      destruct Hfresh as (Hm0 & Hmf & Hsep).
      assert (Hmt : mmap_results h (mmap_calls h) <> this).
      { rewrite Forall_forall in Hsep.
        specialize (Hsep this ltac:(apply elem_of_app; right;
                                     apply list_elem_of_here)). sizes. }
      destruct (ensure_next_fresh h this b Hb Hbn Hm0 Hmf Hmt)
        as (h2 & He & Hb2 & Hbm & Hc2 & Hr2 & Hg2 & Hgs & Hout & Hbs).
      rewrite He, Hb2. cbn [m_next].
      set (memory := mmap_results h (mmap_calls h)) in *.
      assert (Hwf2 : wf_heap h2 (lpre ++ [this; memory]))
        by (apply (wf_heap_grow h lpre this b memory (blocks h2) h2 Hwf Hb Hm0
                     Hsep Hgs Hbs)).
      destruct (alloc_here_rounded fuel h2 memory (HeapBlock_new this)
                  [header_of Empty 16352] _ sz a 0 Hbm (layout_init zero_mem)
                  Ha Hidem ltac:(lia) ltac:(lia)
                  (first_fit_fresh sz Hsz)) as (m' & Hres & Hl' & Hlive).
      eexists _, (lpre ++ [this; memory]), memory, _, 0.
      split; [exact Hres|]. split.
      { eapply wf_heap_set_data; eauto. }
      split.
      { rewrite elem_of_app, !elem_of_cons. tauto. }
      split; [exact Hlive|]. split; [right; reflexivity|].
      split; [exact Hout|]. split.
      { intros x. unfold set_data, set_block, set_blocks. cbn [blocks].
        rewrite lookup_insert_is_Some, Hbs, !lookup_insert_is_Some.
        rewrite elem_of_app, !elem_of_cons.
        intros [<-|[_ [<-|[_ [<-|[_ Hx]]]]]]; auto 10. }
      intros q t regs0 off0 Ht Hq. exists regs0.
      apply (live_at_same_data h _ _ _ _ _ Hq).
      intros b0 Hb0.
      assert (Htm : t <> memory).
      { rewrite Forall_forall in Hsep. specialize (Hsep t Ht).
        intros ->. sizes. }
      unfold set_data, set_block, set_blocks. cbn [blocks].
      rewrite lookup_insert_ne by congruence. rewrite Hbs.
      rewrite lookup_insert_ne by congruence.
      destruct (decide (this = t)) as [<-|Hnt].
      * rewrite lookup_insert_eq. eexists. split; [reflexivity|].
        cbn [m_data]. congruence.
      * rewrite lookup_insert_ne by exact Hnt. eauto.
    + (* on to the next block *)
      cbn [hd] in Hbn.
      assert (Hn0 : nx <> 0).
      { destruct Hwf as (_ & Hc & _).
        eapply (chain_lookup _ _ _ _ nx Hc).
        rewrite elem_of_app, !elem_of_cons. tauto. }
      unfold ensure_next_allocated_from_os. rewrite Hb, Hbn.
      destruct (Z.eqb_spec nx 0); [contradiction|].
      rewrite Hb, Hbn.
      replace (lpre ++ this :: nx :: rest)
        with ((lpre ++ [this]) ++ nx :: rest)
        in * by (rewrite <- app_assoc; reflexivity).
      destruct (IH (lpre ++ [this]) fuel h Hwf ltac:(discriminate) Ha Hidem Hsz
                  Hfresh ltac:(simpl in Hfuel |- *; lia))
        as (h' & l' & t & regs' & o & H1 & H2 & H3 & H4 & H5 & H6 & H7 & H8).
      cbn [hd] in H1.
      exists h', l', t, regs', o. split; [exact H1|].
      repeat rewrite <- app_assoc in H5. repeat rewrite <- app_assoc.
      cbn [app] in H5 |- *.
      split; [exact H2|]. split; [exact H3|]. split; [exact H4|].
      split; [exact H5|]. split; [exact H6|]. split; [exact H7|].
      intros q t0 regs0 off0 Ht0' Hq. apply (H8 q t0 regs0 off0); [|exact Hq].
      rewrite <- app_assoc. exact Ht0'.
Qed.

(** ** What [alloc] and [free] leave alone *)

Lemma same_frame_refl (h : heap) : same_frame h h.
Proof. repeat split. Qed.

Lemma same_frame_trans (h1 h2 h3 : heap) :
  same_frame h1 h2 -> same_frame h2 h3 -> same_frame h1 h3.
Proof. unfold same_frame. intuition congruence. Qed.

Lemma ensure_next_frame (h : heap) (this : Z) :
  same_frame h (fst (ensure_next_allocated_from_os h this)).
Proof.
  unfold ensure_next_allocated_from_os, mmap.
  destruct (blocks h !! this) as [b|]; [|apply same_frame_refl].
  destruct (m_next b =? 0); [|apply same_frame_refl].
  destruct (_ =? 0); [repeat split|].
  destruct (_ =? MAP_FAILED); repeat split.
Qed.

Lemma HeapBlock_alloc_frame (fuel : nat) : forall h this sz align,
  same_frame h (fst (HeapBlock_alloc fuel h this sz align)).
Proof.
  induction fuel as [|fuel IH]; intros h this sz align;
    rewrite HeapBlock_alloc_eq.
  all: destruct (align =? 0); [repeat split|]; cbv zeta.
  all: destruct (negb _); [repeat split|].
  all: destruct (blocks h !! this) as [b|]; [|apply same_frame_refl].
  all: destruct (alloc_walk _ _ _ _); try (repeat split; fail).
  all: pose proof (ensure_next_frame h this) as Hf.
  all: destruct (ensure_next_allocated_from_os h this) as [h1 [[]| | |]];
    cbn [fst] in Hf |- *; try exact Hf.
  all: destruct (blocks h1 !! this) as [b1|]; [|exact Hf].
  - exact Hf.
  - eapply same_frame_trans; [exact Hf|apply IH].
Qed.

Lemma merge_and_cleanup_frame (h : heap) (this : Z) :
  same_frame h (fst (merge_and_cleanup h this)).
Proof.
  unfold merge_and_cleanup.
  destruct (blocks h !! this) as [b|]; [|apply same_frame_refl].
  destruct (merge_scan _ _ _) as [m| |]; try apply same_frame_refl.
  cbv zeta. destruct (available _ && _); [|repeat split].
  destruct (negb (m_prev b =? 0)); [|repeat split].
  destruct (negb (m_next b =? 0)).
  - destruct (blocks _ !! m_next b); [|repeat split].
    destruct (blocks _ !! m_prev b); repeat split.
  - destruct (blocks _ !! m_prev b); repeat split.
Qed.

(** [merge_and_cleanup] maps nothing. *)
Lemma merge_and_cleanup_dom (h : heap) (this x : Z) :
  is_Some (blocks (fst (merge_and_cleanup h this)) !! x) ->
  is_Some (blocks h !! x).
Proof.
  unfold merge_and_cleanup.
  destruct (blocks h !! this) as [b|] eqn:Hb; [|auto].
  destruct (merge_scan _ _ _) as [m| |]; auto. cbv zeta.
  assert (H1 : is_Some (blocks (set_data h this b m) !! x) ->
               is_Some (blocks h !! x)).
  { unfold set_data, set_block, set_blocks. cbn [blocks].
    rewrite lookup_insert_is_Some. intros [<-|[_ H]]; [eauto|exact H]. }
  destruct (available _ && _); [|exact H1].
  destruct (negb (m_prev b =? 0)); [|exact H1].
  set (h1 := set_data h this b m) in *.
  assert (H2 : forall h2,
    (forall y, is_Some (blocks h2 !! y) -> is_Some (blocks h1 !! y)) ->
    is_Some (blocks (fst
      match blocks h2 !! m_prev b with
      | Some p =>
        (set_blocks
           (set_block h2 (m_prev b) (mkBlock (m_prev p) (m_next b) (m_data p)))
           (delete this
              (blocks (set_block h2 (m_prev b)
                         (mkBlock (m_prev p) (m_next b) (m_data p))))),
         Returned tt)
      | None => (h2, WildAccess)
      end) !! x) -> is_Some (blocks h !! x)).
  { intros h2 Hh2. destruct (blocks h2 !! m_prev b) as [p|] eqn:Hp.
    - cbn [fst]. unfold set_block, set_blocks. cbn [blocks].
      rewrite lookup_delete_is_Some, lookup_insert_is_Some.
      intros [_ [<-|[_ H]]]; apply H1, Hh2; eauto.
    - cbn [fst]. intros H. apply H1, Hh2, H. }
  destruct (negb (m_next b =? 0)).
  - destruct (blocks h1 !! m_next b) as [n|] eqn:Hn; [|exact H1].
    apply H2. intros y. unfold set_block, set_blocks. cbn [blocks].
    rewrite lookup_insert_is_Some. intros [<-|[_ H]]; eauto.
  - apply H2. auto.
Qed.

Lemma separated_elems (l : list Z) : forall x y,
  separated l -> x ∈ l -> y ∈ l -> x <> y ->
  x + sizeof_HeapBlock <= y \/ y + sizeof_HeapBlock <= x.
Proof.
  induction l as [|a l IH]; intros x y Hs Hx Hy Hne.
  - apply elem_of_nil in Hx. contradiction.
  - cbn [separated] in Hs. destruct Hs as [Hf Hs].
    rewrite Forall_forall in Hf.
    apply elem_of_cons in Hx as [->|Hx]; apply elem_of_cons in Hy as [->|Hy].
    + contradiction.
    + apply (Hf y Hy).
    + specialize (Hf x Hx). lia.
    + apply IH; assumption.
Qed.

(** ** [my_free] *)

Lemma load_mapped_block (h : heap) (l : list Z) (this : Z) (b : HeapBlock)
    (o : Z) :
  blocks h !! this = Some b ->
  (forall a, is_Some (blocks h !! a) -> a ∈ l) -> separated l ->
  0 <= o -> o + 4 <= sizeof_m_data ->
  load_mapped h (data_address this + o) = Some (load32 (m_data b) o).
Proof.
  intros Hb Hdom Hs Ho1 Ho2. unfold load_mapped.
  destruct (find _ _) as [[base b']|] eqn:Hf.
  - apply find_some in Hf as [Hin Hp].
    apply list_elem_of_In, elem_of_map_to_list in Hin.
    unfold in_block in Hp. cbn [fst] in Hp.
    apply andb_prop in Hp as [H1 H2]. apply Z.leb_le in H1, H2.
    assert (base = this).
    { destruct (decide (base = this)) as [|Hne]; [assumption|]. exfalso.
      assert (Hbl : base ∈ l) by (apply Hdom; eauto).
      assert (Htl : this ∈ l) by (apply Hdom; eauto).
      pose proof (separated_elems l base this Hs Hbl Htl Hne).
      sizes. }
    subst base. assert (b' = b) by congruence. subst b'.
    f_equal. f_equal. lia.
  - exfalso. assert (Hin : In (this, b) (map_to_list (blocks h))).
    { apply list_elem_of_In, elem_of_map_to_list. exact Hb. }
    pose proof (find_none _ _ Hf _ Hin) as Hn.
    unfold in_block in Hn. cbn [fst] in Hn.
    apply andb_false_iff in Hn as [Hn|Hn]; apply Z.leb_gt in Hn; lia.
Qed.

Lemma load_mapped_none (h : heap) (this : Z) (o : Z) :
  big_blocks h = ∅ ->
  (forall a, is_Some (blocks h !! a) ->
     a + sizeof_HeapBlock <= this \/ this + sizeof_HeapBlock <= a) ->
  0 <= o -> o + 4 <= sizeof_m_data ->
  load_mapped h (data_address this + o) = None.
Proof.
  intros Hbig Hsep Ho1 Ho2. unfold load_mapped.
  destruct (find _ _) as [[base b']|] eqn:Hf.
  - exfalso. apply find_some in Hf as [Hin Hp].
    apply list_elem_of_In, elem_of_map_to_list in Hin.
    unfold in_block in Hp. cbn [fst] in Hp.
    apply andb_prop in Hp as [H1 H2]. apply Z.leb_le in H1, H2.
    pose proof (Hsep base ltac:(eauto)). sizes.
  - rewrite Hbig, map_to_list_empty. reflexivity.
Qed.

(** In front of an address of the data area of a live block [my_free] finds
    the header of that block, and hands the address to the root. *)
Lemma my_free_in_block (fuel : nat) (h : heap) (l : list Z) (this : Z)
    (b : HeapBlock) (off p : Z) :
  (forall a, is_Some (blocks h !! a) -> a ∈ l) -> separated l ->
  g_heap_initialized h = true ->
  blocks h !! this = Some b -> in_data off = true ->
  (signature (read_header (m_data b) off) =? sig_value BigBlock) = false ->
  p = data_address this + off + sizeof_HeapHeader ->
  my_free fuel h p = HeapBlock_free fuel h (g_heap_storage h) p.
Proof.
  intros Hdom Hs Hinit Hb Hin Hsig ->. unfold my_free. cbv zeta.
  unfold in_data in Hin. apply andb_prop in Hin as [H1 H2].
  apply Z.leb_le in H1, H2.
  replace (data_address this + off + sizeof_HeapHeader - sizeof_HeapHeader)
    with (data_address this + off) by lia.
  rewrite (load_mapped_block h l this b off Hb Hdom Hs) by sizes.
  cbn [read_header signature] in Hsig. rewrite Hsig, Hinit. reflexivity.
Qed.

(** In front of an address of a block that is no longer mapped there is
    nothing to read. *)
Lemma my_free_unmapped (fuel : nat) (h : heap) (this off p : Z) :
  big_blocks h = ∅ ->
  (forall a, is_Some (blocks h !! a) ->
     a + sizeof_HeapBlock <= this \/ this + sizeof_HeapBlock <= a) ->
  in_data off = true ->
  p = data_address this + off + sizeof_HeapHeader ->
  my_free fuel h p = (h, WildAccess).
Proof.
  intros Hbig Hsep Hin ->. unfold my_free. cbv zeta.
  unfold in_data in Hin. apply andb_prop in Hin as [H1 H2].
  apply Z.leb_le in H1, H2.
  replace (data_address this + off + sizeof_HeapHeader - sizeof_HeapHeader)
    with (data_address this + off) by lia.
  rewrite (load_mapped_none h this off Hbig Hsep) by sizes.
  reflexivity.
Qed.

(** [my_free] of a live address, and [my_free] of it once more. *)
Lemma free_twice (fuel : nat) (h : heap) (l1 : list Z) (this : Z)
    (l2 : list Z) (regs : list HeapHeader) (off p : Z) :
  wf_heap h (l1 ++ this :: l2) ->
  (forall a, is_Some (blocks h !! a) -> a ∈ l1 ++ this :: l2) ->
  big_blocks h = ∅ -> g_heap_initialized h = true ->
  live_at h this regs off p ->
  (length (l1 ++ this :: l2) <= S fuel)%nat ->
  exists h1,
    my_free fuel h p = (h1, Returned tt)
    /\ same_frame h h1
    /\ stdout h1 = stdout h
    /\ (forall a, is_Some (blocks h1 !! a) -> is_Some (blocks h !! a))
    /\ (blocks h1 !! this = None
        <-> fully_empty (coalesce (mark_freed 0 regs off))
            /\ this <> g_heap_storage h)
    /\ (blocks h1 !! this = None ->
        wf_heap h1 (l1 ++ l2)
        /\ my_free fuel h1 p = (h1, WildAccess)
        /\ HeapBlock_free fuel h1 (g_heap_storage h1) p
           = (print (FreeNotAllocated p) h1, Aborted))
    /\ (blocks h1 !! this <> None ->
        wf_heap h1 (l1 ++ this :: l2)
        /\ my_free fuel h1 p = (print FreeAlreadyFreed h1, Aborted))
    /\ (forall q t regs0 off0, live_at h t regs0 off0 q -> q <> p ->
          exists regs1, live_at h1 t regs1 off0 q).
Proof.
  intros Hwf Hdom Hbig Hinit Hlive Hfuel.
  pose proof (live_in_block_data _ _ _ _ _ Hlive) as Hin.
  destruct Hlive as (b & r & Hb & Hl & Hr & Hu & Haddr).
  pose proof Hwf as (_ & Hc & Hs & _).
  pose proof (separated_app _ _ Hs) as (_ & Hs2 & Hs12).
  assert (Hout1 : forall a, a ∈ l1 -> ~ in_block_data a p).
  { intros a Ha. apply (in_block_data_separated this a p); [|exact Hin].
    specialize (Hs12 a this Ha (list_elem_of_here _ _)). lia. }
  assert (Hout2 : forall a, a ∈ l2 -> ~ in_block_data a p).
  { intros a Ha. apply (in_block_data_separated this a p); [|exact Hin].
    cbn [separated] in Hs2. destruct Hs2 as [Hf _].
    rewrite Forall_forall in Hf. exact (Hf a Ha). }
  assert (Hlen : (length l1 <= fuel)%nat).
  { rewrite length_app in Hfuel. simpl in Hfuel. lia. }
  assert (Hfr : freed r = false).
  { unfold freed. rewrite Hu. reflexivity. }
  assert (Htl : this ∈ l1 ++ this :: l2).
  { apply elem_of_app. right. apply list_elem_of_here. }
  pose proof (region_at_in_data _ _ _ _ Hl Hr) as Hind.
  destruct (region_at_read _ _ _ _ _ Hl Hr) as (Hrd & _).
  assert (Hfirst : my_free fuel h p
                   = HeapBlock_free (fuel - length l1) h this p).
  { rewrite (my_free_in_block fuel h _ this b off p Hdom Hs Hinit Hb Hind);
      [|rewrite Hrd, Hu; reflexivity|exact Haddr].
    rewrite <- (wf_heap_head _ _ Hwf).
    apply (free_skip h p this l2 0 l1 fuel 0 Hc Hout1 Hlen). }
  rewrite Hfirst.
  pose proof (free_here (fuel - length l1) h this p b regs off r Hb Hl Hr Haddr)
    as Hhere.
  rewrite Hfr in Hhere.
  destruct (free_live_wf (fuel - length l1) h l1 this l2 b regs off r p
              Hwf Hb Hl Hr Hfr Haddr)
    as (h1 & H1 & Hg & Hso & Hiff & Hgone & Hkept).
  set (hs := set_data h this b (write_signature (m_data b) off Freed)) in *.
  assert (Hmc : merge_and_cleanup hs this = (h1, Returned tt))
    by (rewrite <- Hhere; exact H1).
  exists h1. split; [exact H1|].
  assert (Hframe : same_frame h h1).
  { pose proof (merge_and_cleanup_frame hs this) as Hf. rewrite Hmc in Hf.
    exact Hf. }
  assert (Hdom1 : forall a, is_Some (blocks h1 !! a) -> is_Some (blocks h !! a)).
  { intros a Ha. pose proof (merge_and_cleanup_dom hs this a) as Hd.
    rewrite Hmc in Hd. specialize (Hd Ha).
    unfold hs, set_data, set_block, set_blocks in Hd. cbn [blocks] in Hd.
    apply lookup_insert_is_Some in Hd as [<-|[_ Hd]]; eauto. }
  assert (Hothers : forall x bx, x <> this -> blocks h !! x = Some bx ->
            exists bx', blocks h1 !! x = Some bx' /\ m_data bx' = m_data bx).
  { intros x bx Hx Hbx.
    apply (merge_and_cleanup_others hs h1 this x bx Hmc Hx).
    unfold hs, set_data, set_block, set_blocks. cbn [blocks].
    rewrite lookup_insert_ne by congruence. exact Hbx. }
  split; [exact Hframe|]. split; [exact Hso|]. split; [exact Hdom1|].
  split; [exact Hiff|].
  destruct Hframe as (Hbig1 & Hg1 & Hinit1).
  split; [|split].
  - (* the block was unmapped: there is no header to read *)
    intros Hnone. specialize (Hgone Hnone). split; [exact Hgone|]. split.
    + apply (my_free_unmapped fuel h1 this off p);
        [congruence| |exact Hind|exact Haddr].
      intros a Ha.
      assert (Hat : a <> this).
      { intros ->. rewrite Hnone in Ha. destruct Ha; discriminate. }
      apply (separated_elems _ a this Hs); [|exact Htl|exact Hat].
      apply Hdom, Hdom1, Ha.
    + rewrite <- (wf_heap_head _ _ Hgone).
      pose proof Hgone as (_ & Hc1 & _).
      assert (Hne : l1 ++ l2 <> []).
      { destruct Hiff as [Hiff _]. destruct (Hiff Hnone) as [_ Hnr].
        destruct l1; [|discriminate]. exfalso. apply Hnr.
        cbn [app] in Hwf. apply wf_heap_head in Hwf. exact Hwf. }
      apply (free_not_found h1 p (l1 ++ l2) fuel 0 Hc1 Hne).
      * intros a Ha. apply elem_of_app in Ha as [Ha|Ha]; auto.
      * rewrite length_app in *. simpl in Hfuel. lia.
  - (* the block is still there: its header says [Freed] *)
    intros Hsome. destruct (Hkept Hsome) as (Hwf1 & b' & Hb' & Hl' & Hfreed).
    split; [exact Hwf1|].
    rewrite (my_free_in_block fuel h1 (l1 ++ this :: l2) this b' off p);
      [|intros a Ha; apply Hdom, Hdom1, Ha|exact Hs|congruence|exact Hb'
       |exact Hind| |exact Haddr].
    + pose proof Hwf1 as (_ & Hc1 & _).
      rewrite <- (wf_heap_head _ _ Hwf1).
      rewrite (free_skip h1 p this l2 0 l1 fuel 0 Hc1 Hout1 Hlen).
      rewrite HeapBlock_free_eq, Hb'.
      rewrite (inside_block_data _ _ Hin). cbv zeta.
      replace (p - sizeof_HeapHeader - data_address this) with off
        by (rewrite Haddr; lia).
      rewrite Hind. cbn [negb]. rewrite Hfreed. reflexivity.
    + unfold freed in Hfreed. apply Z.eqb_eq in Hfreed. rewrite Hfreed.
      reflexivity.
  - (* the other live addresses *)
    intros q t regs0 off0 Hq Hqp.
    destruct (decide (t = this)) as [->|Hne].
    + destruct Hq as (b0 & r0 & Hb0 & Hl0 & Hr0 & Hu0 & Hq).
      assert (b0 = b) by congruence. subst b0.
      rewrite <- (layout_unique _ _ _ _ Hl Hl0) in Hr0.
      assert (Hoff : off0 <> off) by (intros ->; congruence).
      assert (Hav0 : available r0 = false)
        by (apply used_not_available; exact Hu0).
      assert (Hr1 : region_at 0 (coalesce (mark_freed 0 regs off)) off0 r0).
      { apply region_at_coalesce; [|exact Hav0].
        apply region_at_mark_freed_other; assumption. }
      assert (Hsome : blocks h1 !! this <> None).
      { intros Hnone. apply Hiff in Hnone as [Hfe _].
        rewrite (fully_empty_available _ _ _ _ Hfe Hr1) in Hav0.
        discriminate. }
      destruct (Hkept Hsome) as (_ & b' & Hb' & Hl' & _).
      exists (coalesce (mark_freed 0 regs off)), b', r0.
      split; [exact Hb'|]. split; [exact Hl'|]. split; [exact Hr1|].
      split; [exact Hu0|exact Hq].
    + exists regs0. apply (live_at_same_data h _ _ _ _ _ Hq).
      intros bx Hbx. apply (Hothers t bx Hne Hbx).
Qed.

(** ** Histories *)

Lemma rounded_pow2 (sz k : Z) :
  0 < sz <= 16336 -> 0 <= k < 64 ->
  let a := Z.max sizeof_ptr (2 ^ k) in
  8 <= a /\ sz <= aligned_size sz a
  /\ aligned_size (aligned_size sz a) a = aligned_size sz a.
Proof.
  intros Hsz Hk a. subst a. rewrite max_ptr_pow2 by lia.
  set (k' := Z.max 3 k). assert (Hk' : 3 <= k' < 64) by lia.
  assert (Hp : 2 ^ 3 <= 2 ^ k') by (apply Z.pow_le_mono_r; lia).
  assert (Hp63 : 2 ^ k' <= 2 ^ 63) by (apply Z.pow_le_mono_r; lia).
  set (a := 2 ^ k') in *.
  destruct (round_up_least sz a ltac:(lia) ltac:(lia)) as (_ & Hle & _).
  set (q := (sz + a - 1) / a) in *.
  assert (Hr : a * q <= sz + a - 1) by (apply Z.mul_div_le; lia).
  assert (Hq : (a * q + a - 1) / a = q).
  { replace (a * q + a - 1) with ((a - 1) + q * a) by lia.
    rewrite Z.div_add by lia. rewrite (Z.div_small (a - 1)) by lia. lia. }
  assert (H1 : aligned_size sz a = a * q).
  { apply (aligned_size_pow2 sz k'); [lia|lia|]. fold a. fold q. lia. }
  rewrite H1. split; [lia|]. split; [exact Hle|].
  unfold a at 2. rewrite (aligned_size_pow2 (a * q) k'); fold a.
  - rewrite Hq. reflexivity.
  - lia.
  - lia.
  - rewrite Hq. lia.
Qed.

Lemma my_malloc_slab (fuel : nat) (h : heap) (sz align : Z) :
  g_heap_initialized h = true -> sz <= 16336 ->
  my_malloc fuel h sz align
  = HeapBlock_alloc fuel h (g_heap_storage h) sz align.
Proof.
  intros Hinit Hsz. unfold my_malloc, lazy_init. rewrite Hinit. cbv zeta.
  destruct (Z.ltb_spec (sizeof_HeapBlock - sizeof_HeapHeader) sz);
    [sizes|reflexivity].
Qed.

(** The chain is determined by its first block. *)
Lemma chain_unique (bs : gmap Z HeapBlock) (l : list Z) : forall l' prev prev',
  chain bs prev l 0 -> chain bs prev' l' 0 -> hd_error l = hd_error l' ->
  l = l'.
Proof.
  induction l as [|a l IH]; intros [|a' l'] prev prev' Hc Hc' Hhd;
    try discriminate; [reflexivity|].
  injection Hhd as <-. cbn [chain] in Hc, Hc'.
  destruct Hc as (_ & b & Hb & _ & Hn & Hc).
  destruct Hc' as (_ & b' & Hb' & _ & Hn' & Hc').
  assert (b' = b) by congruence. subst b'. f_equal.
  apply (IH l' a a Hc Hc').
  destruct l as [|x l], l' as [|x' l']; cbn [hd hd_error] in *.
  - reflexivity.
  - cbn [chain] in Hc'. destruct Hc' as [Hx' _]. congruence.
  - cbn [chain] in Hc. destruct Hc as [Hx _]. congruence.
  - congruence.
Qed.

Lemma wf_heap_unique (h : heap) (l l' : list Z) :
  wf_heap h l -> wf_heap h l' -> l = l'.
Proof.
  intros (Hhd & Hc & _) (Hhd' & Hc' & _).
  apply (chain_unique (blocks h) l l' 0 0 Hc Hc'). congruence.
Qed.

Lemma lazy_init_inv (h : heap) :
  g_heap_initialized h = false -> g_heap_storage h <> 0 ->
  blocks h = ∅ -> big_blocks h = ∅ ->
  heap_inv (lazy_init h) [g_heap_storage h] [].
Proof.
  intros Hinit H0 Hbs Hbig. unfold lazy_init. rewrite Hinit, Hbs.
  split; [|split; [reflexivity|split; [exact Hbig|split]]].
  - set (h' := mkHeap _ _ _ _ _ _ _).
    change (wf_heap h' [g_heap_storage h']).
    apply (wf_heap_one h' (HeapBlock_new 0) [header_of Empty 16352]);
      try reflexivity; try exact H0.
    + apply lookup_insert_eq.
    + apply layout_init.
  - intros a. cbn [blocks]. rewrite lookup_insert_is_Some, lookup_empty.
    intros [<-|[_ [x Hx]]]; [apply list_elem_of_here|discriminate].
  - intros p Hp. apply elem_of_nil in Hp. contradiction.
Qed.

Lemma malloc_inv (fuel : nat) (h h' : heap) (l live : list Z) (sz k p : Z) :
  heap_inv h l live ->
  0 <= k < 64 -> 0 < sz <= 16336 ->
  aligned_size sz (Z.max sizeof_ptr (2 ^ k)) <= 16336 ->
  fresh_block h l -> (length l <= fuel)%nat ->
  my_malloc fuel h sz (2 ^ k) = (h', Returned p) ->
  exists l', heap_inv h' l' (p :: live).
Proof.
  intros (Hwf & Hinit & Hbig & Hdom & Hlive) Hk Hsz Hr Hfresh Hfuel Hm.
  destruct (rounded_pow2 sz k Hsz Hk) as (Ha & Hle & Hidem). cbv zeta in *.
  rewrite (my_malloc_slab fuel h sz (2 ^ k) Hinit) in Hm by lia.
  assert (H2k : 2 ^ k <> 0) by (pose proof (Z.pow_pos_nonneg 2 k); lia).
  rewrite (alloc_rounded fuel h (g_heap_storage h) sz (2 ^ k) H2k Hle Hidem)
    in Hm.
  set (a := Z.max sizeof_ptr (2 ^ k)) in *.
  set (sz' := aligned_size sz a) in *.
  assert (Hne : l <> []).
  { destruct Hwf as (Hhd & _). destruct l; discriminate. }
  destruct (alloc_chain sz' a l [] fuel h Hwf Hne Ha Hidem ltac:(lia) Hfresh
              Hfuel)
    as (h1 & l' & this & regs & o & H1 & H2 & H3 & H4 & H5 & H6 & H7 & H8).
  cbn [app] in *.
  rewrite (wf_heap_head _ _ Hwf) in H1.
  pose proof (HeapBlock_alloc_frame fuel h (g_heap_storage h) sz' a) as Hf.
  rewrite H1 in Hf. destruct Hf as (Hb1 & Hg1 & Hi1). cbn [fst] in *.
  rewrite H1 in Hm. injection Hm as <- <-.
  assert (Hsub : forall x, x ∈ l -> x ∈ l').
  { intros x Hx. destruct H5 as [->| ->]; [exact Hx|].
    apply elem_of_app. now left. }
  exists l'. split; [exact H2|]. split; [congruence|]. split; [congruence|].
  split.
  - intros x Hx. destruct (H7 x Hx) as [Hx'|Hx'];
      [apply Hsub, Hdom, Hx'|exact Hx'].
  - intros q Hq. apply elem_of_cons in Hq as [->|Hq].
    + exists this, regs, o. split; assumption.
    + destruct (Hlive q Hq) as (t & regs0 & off0 & Ht & Hq0).
      destruct (H8 q t regs0 off0 Ht Hq0) as (regs1 & Hq1).
      exists t, regs1, off0. split; [apply Hsub, Ht|exact Hq1].
Qed.

Lemma free_inv (fuel : nat) (h h' : heap) (l live : list Z) (p : Z) :
  heap_inv h l live -> p ∈ live -> (length l <= S fuel)%nat ->
  my_free fuel h p = (h', Returned tt) ->
  exists l', heap_inv h' l' (filter (fun q => q <> p) live).
Proof.
  intros (Hwf & Hinit & Hbig & Hdom & Hlive) Hp Hfuel Hf.
  destruct (Hlive p Hp) as (this & regs & off & Ht & Hlp).
  apply list_elem_of_split in Ht as (l1 & l2 & ->).
  destruct (free_twice fuel h l1 this l2 regs off p Hwf Hdom Hbig Hinit Hlp
              Hfuel)
    as (h1 & H1 & (Hb1 & Hg1 & Hi1) & _ & Hdom1 & Hiff & Hgone & Hkept & Hoth).
  rewrite H1 in Hf. injection Hf as <-.
  assert (Hl1 : forall q, q ∈ filter (fun q => q <> p) live ->
            exists t regs1 off1,
              t ∈ l1 ++ this :: l2 /\ live_at h1 t regs1 off1 q).
  { intros q Hq. apply list_elem_of_filter in Hq as [Hqp Hq].
    destruct (Hlive q Hq) as (t & regs0 & off0 & Ht & Hq0).
    destruct (Hoth q t regs0 off0 Hq0 Hqp) as (regs1 & Hq1). eauto 6. }
  destruct (blocks h1 !! this) as [b1|] eqn:Hb.
  - exists (l1 ++ this :: l2).
    destruct (Hkept ltac:(discriminate)) as [Hwf1 _].
    split; [exact Hwf1|]. split; [congruence|]. split; [congruence|]. split.
    + intros a Ha. apply Hdom, Hdom1, Ha.
    + exact Hl1.
  - exists (l1 ++ l2). destruct (Hgone eq_refl) as [Hwf1 _].
    assert (Hrm : forall x, x ∈ l1 ++ this :: l2 -> x <> this -> x ∈ l1 ++ l2).
    { intros x. rewrite !elem_of_app, elem_of_cons. tauto. }
    split; [exact Hwf1|]. split; [congruence|]. split; [congruence|]. split.
    + intros a Ha. apply Hrm; [apply Hdom, Hdom1, Ha|].
      intros ->. rewrite Hb in Ha. destruct Ha; discriminate.
    + intros q Hq. destruct (Hl1 q Hq) as (t & regs1 & off1 & Ht & Hq1).
      exists t, regs1, off1. split; [|exact Hq1]. apply Hrm; [exact Ht|].
      intros ->. destruct Hq1 as (b' & _ & Hb' & _). congruence.
Qed.

(** In a served state the chain is well formed and the addresses handed out
    and not yet taken back are payloads of regions in use. *)
Lemma served_inv (h : heap) (live : list Z) :
  served h live -> exists l, heap_inv h l live.
Proof.
  induction 1 as [h Hi H0 Hbs Hbig
                 |h h' live fuel sz k p Hs [l IH] Hk Hsz Hr Henv Hm
                 |h h' live fuel p Hs [l IH] Hp Henv Hf].
  - eexists. apply lazy_init_inv; assumption.
  - destruct (Henv l (proj1 IH)) as [Hfresh Hfuel].
    apply (malloc_inv fuel h h' l live sz k p IH Hk Hsz Hr Hfresh Hfuel Hm).
  - apply (free_inv fuel h h' l live p IH Hp (Henv l (proj1 IH)) Hf).
Qed.

(** C10: the data area of a block satisfies the layout invariant when it is
    initialised, every placement and every free-and-coalesce keeps it, and so
    every state a block goes through satisfies it; so does every block of a
    state reached by calls of [my_malloc] and [my_free]. *)
Theorem layout_invariant :
  (forall m0, layout_inv (init m0))
  /\ (forall m m', layout_inv m -> step m m' -> layout_inv m')
  /\ (forall m, reachable m -> layout_inv m)
  /\ (forall h live this b,
        served h live -> blocks h !! this = Some b -> layout_inv (m_data b)).
Proof.
  split; [exact init_layout_inv|]. split; [exact step_layout_inv|]. split.
  - intros m H. induction H as [m0|m m' _ IH Hs].
    + apply init_layout_inv.
    + eapply step_layout_inv; eauto.
  - intros h live this b Hs Hb.
    destruct (served_inv h live Hs) as (l & Hwf & _ & _ & Hdom & _).
    destruct Hwf as (_ & _ & _ & Hly).
    destruct (Hly this b (Hdom this ltac:(eauto)) Hb) as (regs & Hl).
    eapply layout_layout_inv; eauto.
Qed.


(** * Further properties *)

(** ** Placement in a block *)

Lemma first_fit_split (l1 : list HeapHeader) : forall off sz r l2,
  Forall (fun x => ~ (available x = true /\ sz + 16 <= size x)) l1 ->
  available r = true -> sz + 16 <= size r ->
  first_fit off (l1 ++ r :: l2) sz
  = Some (off + span l1,
          l1 ++ header_of Used sz
             :: header_of Empty (size r - sz - sizeof_HeapHeader) :: l2).
Proof.
  induction l1 as [|x l1 IH]; intros off sz r l2 Hno Hav Hfit;
    cbn [app first_fit span]; unfold sizeof_HeapHeader in *.
  - rewrite Hav. destruct (Z.leb_spec (sz + 8 * 2) (size r)); [|lia].
    cbn [andb]. rewrite Z.add_0_r. reflexivity.
  - inversion Hno as [|? ? Hx Hno']; subst.
    assert (Hc : available x && (sz + 8 * 2 <=? size x) = false).
    { destruct (available x); [|reflexivity]. cbn [andb].
      apply Z.leb_gt. destruct (Z.lt_ge_cases (size x) (sz + 8 * 2)); [lia|].
      exfalso. apply Hx. split; [reflexivity|lia]. }
    rewrite Hc. rewrite (IH (off + 8 + size x) sz r l2 Hno' Hav Hfit).
    do 2 f_equal. lia.
Qed.


Lemma alloc_here_frame (fuel : nat) (h : heap) (this : Z) (b : HeapBlock)
    (regs regs' : list HeapHeader) (sz0 align o : Z) :
  blocks h !! this = Some b -> layout (m_data b) 0 regs ->
  align <> 0 ->
  let sz := aligned_size sz0 (Z.max sizeof_ptr align) in
  sz0 <= sz -> 0 < sz -> sz + 16 < 2 ^ 64 ->
  first_fit 0 regs sz = Some (o, regs') ->
  exists m',
    HeapBlock_alloc fuel h this sz0 align
    = (set_data h this b m',
       Returned (data_address this + o + sizeof_HeapHeader))
    /\ layout m' 0 regs'
    /\ (forall x, x < o \/ o + 8 <= x < o + 8 + sz \/ o + 16 + sz <= x ->
                  m' x = m_data b x).
Proof.
  intros Hb Hl Ha sz Hle Hpos Hsmall Hff.
  pose proof (layout_fuel _ _ _ (Z.le_refl 0) Hl) as Hf.
  pose proof (alloc_walk_layout regs walk_fuel (m_data b) 0 sz Hl Hf Hpos Hsmall)
    as Hw.
  rewrite Hff in Hw. destruct Hw as (m' & Hw & Hl' & _ & Hfr).
  exists m'. split; [|split; [exact Hl'|exact Hfr]].
  rewrite HeapBlock_alloc_eq.
  destruct (Z.eqb_spec align 0); [contradiction|]. cbv zeta. fold sz.
  destruct (Z.leb_spec sz0 sz); [|lia]. cbn [negb].
  rewrite Hb, Hw. reflexivity.
Qed.


(** X2: a block holds at most 16336 bytes in one region.  Whatever the
    regions of a block are, the walk of [alloc] for a larger size ends at the
    end edge without placing the request. *)
Theorem block_capacity (m : mem) (regs : list HeapHeader) (sz : Z) :
  layout m 0 regs -> 16336 < sz -> sz + 16 < 2 ^ 64 ->
  alloc_walk walk_fuel m 0 sz = EndOfBlock.
Proof. exact (max_payload m regs sz). Qed.

(** ** Addresses [free] does not take *)

(** X5: an address that lies in the data area of no block of the chain makes
    [HeapBlock::free], called on the root, abort after the not-allocated
    diagnostic; no block is touched. *)
Theorem free_foreign_address_aborts (fuel : nat) (h : heap) (l : list Z)
    (addr : Z) :
  wf_heap h l ->
  (forall a, a ∈ l -> ~ in_block_data a addr) ->
  (length l <= S fuel)%nat ->
  HeapBlock_free fuel h (g_heap_storage h) addr
  = (print (FreeNotAllocated addr) h, Aborted).
Proof.
  intros Hwf Hout Hfuel. pose proof Hwf as (Hhd & Hc & _).
  rewrite <- (wf_heap_head _ _ Hwf).
  apply (free_not_found h addr l fuel 0 Hc); [|exact Hout|exact Hfuel].
  destruct l; discriminate.
Qed.

(** X6: an address in the data area of a block of the chain in front of
    which there is no header ([free] finds a signature there that is none of
    the five it knows) makes [HeapBlock::free] abort after the
    invalid-signature diagnostic, which names the signature found and where;
    no block is touched. *)
Theorem free_invalid_header_aborts (fuel : nat) (h : heap) (l1 : list Z)
    (this : Z) (l2 : list Z) (b : HeapBlock) (addr : Z) :
  wf_heap h (l1 ++ this :: l2) ->
  blocks h !! this = Some b ->
  data_address this + sizeof_HeapHeader <= addr
  < data_address this + sizeof_m_data ->
  let off := addr - sizeof_HeapHeader - data_address this in
  valid_signature (read_header (m_data b) off) = false ->
  (length l1 <= fuel)%nat ->
  HeapBlock_free fuel h (g_heap_storage h) addr
  = (print (FreeInvalidSignature (signature (read_header (m_data b) off))
              (data_address this + off)) h, Aborted).
Proof.
  intros Hwf Hb Hin off Hv Hfuel.
  pose proof Hwf as (_ & Hc & Hs & _).
  pose proof (separated_app _ _ Hs) as (_ & _ & Hs12).
  assert (Hind : in_block_data this addr) by (unfold in_block_data; sizes).
  assert (Hout1 : forall a, a ∈ l1 -> ~ in_block_data a addr).
  { intros a Ha. apply (in_block_data_separated this a addr); [|exact Hind].
    specialize (Hs12 a this Ha (list_elem_of_here _ _)). lia. }
  rewrite <- (wf_heap_head _ _ Hwf).
  rewrite (free_skip h addr this l2 0 l1 fuel 0 Hc Hout1 Hfuel).
  rewrite HeapBlock_free_eq, Hb, (inside_block_data _ _ Hind). cbv zeta.
  fold off.
  assert (Hd : in_data off = true).
  { unfold in_data, off. apply andb_true_intro. split; apply Z.leb_le; sizes. }
  rewrite Hd. cbn [negb].
  assert (Hf : freed (read_header (m_data b) off) = false).
  { unfold freed. destruct (Z.eqb_spec (signature (read_header (m_data b) off))
                              (sig_value Freed)) as [He|]; [|reflexivity].
    unfold valid_signature in Hv. rewrite He in Hv. discriminate. }
  rewrite Hf, Hv. reflexivity.
Qed.

(** ** Oversized mappings *)

Lemma load_mapped_big (h : heap) (memory len : Z) (bytes : mem) (o : Z) :
  big_blocks h !! memory = Some (len, bytes) ->
  (forall a, is_Some (blocks h !! a) ->
     a + sizeof_HeapBlock <= memory \/ memory + len <= a) ->
  (forall a len' bytes', a <> memory ->
     big_blocks h !! a = Some (len', bytes') ->
     a + len' <= memory \/ memory + len <= a) ->
  0 <= o -> o + 4 <= len ->
  load_mapped h (memory + o) = Some (load32 bytes o).
Proof.
  intros Hbig Hsep Hsepb Ho1 Ho2. unfold load_mapped.
  destruct (find (in_block _) _) as [[base b']|] eqn:Hf.
  { exfalso. apply find_some in Hf as [Hin Hp].
    apply list_elem_of_In, elem_of_map_to_list in Hin.
    unfold in_block in Hp. cbn [fst] in Hp.
    apply andb_prop in Hp as [H1 H2]. apply Z.leb_le in H1, H2.
    pose proof (Hsep base ltac:(eauto)). sizes. }
  destruct (find (in_big_block _) _) as [[base [len' bytes']]|] eqn:Hg.
  - apply find_some in Hg as [Hin Hp].
    apply list_elem_of_In, elem_of_map_to_list in Hin.
    unfold in_big_block in Hp. cbn [fst snd] in Hp.
    apply andb_prop in Hp as [H1 H2]. apply Z.leb_le in H1, H2.
    destruct (decide (base = memory)) as [->|Hne].
    + rewrite Hbig in Hin. injection Hin as <- <-. do 2 f_equal. lia.
    + pose proof (Hsepb base len' bytes' Hne Hin). lia.
  - exfalso.
    assert (Hin : In (memory, (len, bytes)) (map_to_list (big_blocks h))).
    { apply list_elem_of_In, elem_of_map_to_list. exact Hbig. }
    pose proof (find_none _ _ Hg _ Hin) as Hn.
    unfold in_big_block in Hn. cbn [fst snd] in Hn.
    apply andb_false_iff in Hn as [Hn|Hn]; apply Z.leb_gt in Hn; lia.
Qed.

(** X4: an oversized request and its release.  Where [mmap] hands out
    memory that overlaps no block and no other mapping, [my_malloc] of more
    than [sizeof(HeapBlock) - sizeof(HeapHeader)] bytes followed by [my_free]
    of the address it returned unmaps the mapping again: the oversized
    mappings are those from before, the blocks of the chain are untouched,
    and the one line written is the big-block message. *)
Theorem oversized_round_trip (fuel fuel' : nat) (h : heap) (sz align : Z) :
  sizeof_HeapBlock - sizeof_HeapHeader < sz ->
  sz + sizeof_HeapHeader < 2 ^ 32 ->
  let memory := mmap_results h (mmap_calls h) in
  memory <> 0 -> memory <> MAP_FAILED ->
  big_blocks h !! memory = None ->
  (forall a, is_Some (blocks (lazy_init h) !! a) ->
     a + sizeof_HeapBlock <= memory
     \/ memory + (sz + sizeof_HeapHeader) <= a) ->
  (forall a len bytes, big_blocks h !! a = Some (len, bytes) ->
     a + len <= memory \/ memory + (sz + sizeof_HeapHeader) <= a) ->
  exists h1 h2,
    my_malloc fuel h sz align = (h1, Returned (memory + sizeof_HeapHeader))
    /\ my_free fuel' h1 (memory + sizeof_HeapHeader) = (h2, Returned tt)
    /\ blocks h2 = blocks (lazy_init h)
    /\ big_blocks h2 = big_blocks h
    /\ stdout h2 = stdout h ++ [FreeBigBlock].
Proof.
  intros Hsz H32 memory H0 Hf Hnone Hsep Hsepb. unfold my_malloc.
  destruct (Z.ltb_spec (sizeof_HeapBlock - sizeof_HeapHeader) sz); [|lia].
  unfold mmap. cbv zeta.
  assert (Hm : mmap_results (lazy_init h) (mmap_calls (lazy_init h)) = memory).
  { unfold lazy_init. destruct (g_heap_initialized h); reflexivity. }
  assert (Hbb : big_blocks (lazy_init h) = big_blocks h).
  { unfold lazy_init. destruct (g_heap_initialized h); reflexivity. }
  assert (Hso : stdout (lazy_init h) = stdout h).
  { unfold lazy_init. destruct (g_heap_initialized h); reflexivity. }
  rewrite Hm.
  destruct (Z.eqb_spec memory 0); [contradiction|].
  destruct (Z.eqb_spec memory MAP_FAILED); [contradiction|].
  cbn [blocks big_blocks g_heap_storage g_heap_initialized mmap_results
       mmap_calls stdout].
  rewrite Hbb, Hso.
  assert (Hsz64 : 0 < sz + sizeof_HeapHeader < 2 ^ 64) by sizes.
  rewrite (wrap64_small (sz + sizeof_HeapHeader)) by lia.
  rewrite (wrap32_small (sz + sizeof_HeapHeader)) by sizes.
  set (len := sz + sizeof_HeapHeader) in *.
  set (bytes := write_size (write_signature zero_mem 0 BigBlock) 0 len).
  set (h1 := mkHeap _ _ _ _ _ _ _).
  assert (Hrd : read_header bytes 0 = header_of BigBlock len).
  { unfold bytes. rewrite read_write_size by (unfold len; sizes).
    rewrite read_write_signature. reflexivity. }
  assert (Hb1 : big_blocks h1 !! memory = Some (len, bytes))
    by apply lookup_insert_eq.
  assert (Hld : forall o, 0 <= o -> o + 4 <= len ->
            load_mapped h1 (memory + o) = Some (load32 bytes o)).
  { intros o Ho1 Ho2.
    apply (load_mapped_big h1 memory len bytes o Hb1); [exact Hsep| |lia|lia].
    intros a len' bytes' Hne Ha. apply (Hsepb a len' bytes').
    unfold h1 in Ha. cbn [big_blocks] in Ha.
    rewrite lookup_insert_ne in Ha by congruence. exact Ha. }
  exists h1. eexists. split; [reflexivity|].
  unfold my_free. cbv zeta.
  replace (memory + sizeof_HeapHeader - sizeof_HeapHeader) with (memory + 0)
    by lia.
  rewrite (Hld 0) by (unfold len; sizes).
  change (load32 bytes 0) with (signature (read_header bytes 0)).
  rewrite Hrd. cbn [header_of signature]. rewrite Z.eqb_refl.
  change (load_mapped (print FreeBigBlock h1) (memory + 0 + 4))
    with (load_mapped h1 (memory + 0 + 4)).
  replace (memory + 0 + 4) with (memory + 4) by lia.
  rewrite (Hld 4) by (unfold len; sizes).
  change (load32 bytes 4) with (size (read_header bytes 0)).
  rewrite Hrd. cbn [header_of size].
  unfold munmap. cbn [print big_blocks]. rewrite Z.add_0_r.
  fold h1. rewrite Hb1, Z.eqb_refl.
  split; [reflexivity|]. cbn [blocks big_blocks stdout].
  split; [reflexivity|]. split; [|reflexivity].
  unfold h1. cbn [big_blocks]. apply delete_insert_id. exact Hnone.
Qed.

(** ** Growing the chain *)

(** X7: at the last block of the chain, with [mmap] handing out memory that
    overlaps no block, [ensure_next_allocated_from_os] appends a block: the
    chain with the new block at its end is well formed, the new block points
    back to the last one and holds one [Empty] region of 16352 bytes, and the
    data of the blocks that were there is untouched. *)
Theorem grow_appends_block (h : heap) (l : list Z) (this : Z) :
  wf_heap h (l ++ [this]) -> fresh_block h (l ++ [this]) ->
  let memory := mmap_results h (mmap_calls h) in
  exists h',
    ensure_next_allocated_from_os h this = (h', Returned tt)
    /\ wf_heap h' (l ++ [this; memory])
    /\ blocks h' !! memory = Some (HeapBlock_new this)
    /\ layout (m_data (HeapBlock_new this)) 0 [header_of Empty 16352]
    /\ (forall a b, a ∈ l ++ [this] -> blocks h !! a = Some b ->
          exists b', blocks h' !! a = Some b' /\ m_data b' = m_data b)
    /\ mmap_calls h' = S (mmap_calls h).
Proof.
  intros Hwf (Hm0 & Hmf & Hsep) memory.
  destruct (wf_heap_block _ _ _ _ Hwf) as (b & Hb & _ & Hbn & _).
  cbn [hd] in Hbn. fold memory in Hm0, Hmf, Hsep.
  assert (Hnotin : forall a, a ∈ l ++ [this] -> memory <> a).
  { intros a Ha ->. rewrite Forall_forall in Hsep. specialize (Hsep _ Ha).
    sizes. }
  assert (Htl : this ∈ l ++ [this]).
  { apply elem_of_app. right. apply list_elem_of_here. }
  destruct (ensure_next_fresh h this b Hb Hbn Hm0 Hmf (Hnotin this Htl))
    as (h2 & He & Hb2 & Hbm & Hc2 & _ & _ & Hgs & _ & Hbs).
  exists h2. split; [exact He|]. split.
  { exact (wf_heap_grow h l this b memory (blocks h2) h2 Hwf Hb Hm0 Hsep Hgs
             Hbs). }
  split; [exact Hbm|]. split; [apply layout_init|]. split; [|exact Hc2].
  intros a ba Ha Hba. rewrite Hbs.
  rewrite lookup_insert_ne by (apply Hnotin; exact Ha).
  destruct (decide (this = a)) as [<-|Hne].
  - rewrite lookup_insert_eq. eexists. split; [reflexivity|].
    cbn [m_data]. congruence.
  - rewrite lookup_insert_ne by exact Hne. eauto.
Qed.

(** ** Allocating and freeing at once *)

Lemma span_positive (l : list HeapHeader) :
  Forall (fun x => 0 < size x) l -> 0 <= span l.
Proof.
  induction 1 as [|x l Hx _ IH]; cbn [span]; unfold sizeof_HeapHeader; lia.
Qed.

Lemma mark_freed_split (l1 : list HeapHeader) : forall off r l2,
  Forall (fun x => 0 < size x) l1 ->
  mark_freed off (l1 ++ r :: l2) (off + span l1)
  = l1 ++ mkHeader (sig_value Freed) (size r) :: l2.
Proof.
  induction l1 as [|x l1 IH]; intros off r l2 Hpos; cbn [app mark_freed span].
  - rewrite Z.add_0_r, Z.eqb_refl. reflexivity.
  - inversion Hpos as [|? ? Hx Hpos']; subst.
    pose proof (span_positive _ Hpos') as Hsp. unfold sizeof_HeapHeader in *.
    destruct (Z.eqb_spec (off + (8 + size x + span l1)) off); [lia|].
    f_equal.
    replace (off + (8 + size x + span l1)) with (off + 8 + size x + span l1)
      by lia.
    apply IH. exact Hpos'.
Qed.

Lemma alloc_free_layout (fuel : nat) (h : heap) (this : Z) (b : HeapBlock)
    (regs regs1 : list HeapHeader) (sz0 align o : Z) :
  blocks h !! this = Some b -> layout (m_data b) 0 regs -> coalesced regs ->
  m_prev b = 0 \/ ~ fully_empty regs ->
  align <> 0 ->
  let sz := aligned_size sz0 (Z.max sizeof_ptr align) in
  sz0 <= sz -> 0 < sz -> sz + 16 < 2 ^ 64 ->
  first_fit 0 regs sz = Some (o, regs1) ->
  let p := data_address this + o + sizeof_HeapHeader in
  exists h1 h2 m2,
    HeapBlock_alloc fuel h this sz0 align = (h1, Returned p)
    /\ HeapBlock_free fuel h1 this p = (h2, Returned tt)
    /\ blocks h2 !! this = Some (mkBlock (m_prev b) (m_next b) m2)
    /\ layout m2 0 (mark_freed 0 regs o).
Proof.
  intros Hb Hl Hco Hkeep Ha sz Hle Hpos Hsmall Hff p.
  destruct (alloc_here fuel h this b regs regs1 sz0 align o Hb Hl Ha Hle Hpos
              Hsmall Hff) as (m1 & Hres1 & Hl1).
  set (h1 := set_data h this b m1) in *.
  set (b1 := mkBlock (m_prev b) (m_next b) m1).
  assert (Hb1 : blocks h1 !! this = Some b1).
  { unfold h1, set_data, set_block, set_blocks. cbn [blocks].
    apply lookup_insert_eq. }
  destruct (first_fit_region _ _ _ _ _ Hff) as (Hr1 & _).
  pose proof (free_here fuel h1 this p b1 regs1 o (header_of Used sz) Hb1 Hl1
                Hr1 eq_refl) as Hfree.
  change (freed (header_of Used sz)) with false in Hfree. cbv iota in Hfree.
  set (mm := write_signature (m_data b1) o Freed) in *.
  pose proof (layout_mark_freed _ _ _ _ _ Hl1 Hr1) as Hlm.
  change (m_data b1) with m1 in *. fold mm in Hlm.
  assert (Hbm : blocks (set_data h1 this b1 mm) !! this
                = Some (mkBlock (m_prev b1) (m_next b1) mm)).
  { unfold set_data, set_block, set_blocks. cbn [blocks].
    apply lookup_insert_eq. }
  pose proof (coalesce_after_free _ _ _ _ _ _ Hl Hco Hpos Hff) as Hrest.
  destruct (merge_and_cleanup_keep _ this _ _ Hbm Hlm) as (m2 & _ & Hl2 & Hres2).
  { cbn [m_prev b1]. rewrite Hrest. intros [Hfe Hp].
    destruct Hkeep as [Hk|Hk]; [contradiction|].
    apply Hk. eapply fully_empty_mark_freed; eauto. }
  rewrite Hres2 in Hfree. rewrite Hrest in Hl2.
  exists h1. eexists. exists m2. split; [exact Hres1|]. split; [exact Hfree|].
  split; [|exact Hl2].
  unfold set_data, set_block, set_blocks. cbn [blocks].
  apply lookup_insert_eq.
Qed.

(** X8: a request placed in a block whose regions are coalesced and freed at
    once leaves the block with the regions it had, the one that was taken now
    tagged [Freed]: the part split off is merged back.  The block is the root
    or has other regions, so that it is not unmapped. *)
Theorem alloc_free_restores (fuel : nat) (h : heap) (this : Z)
    (b : HeapBlock) (l1 : list HeapHeader) (r : HeapHeader)
    (l2 : list HeapHeader) (sz0 align : Z) :
  blocks h !! this = Some b -> layout (m_data b) 0 (l1 ++ r :: l2) ->
  coalesced (l1 ++ r :: l2) ->
  m_prev b = 0 \/ l1 ++ l2 <> [] ->
  align <> 0 ->
  let sz := aligned_size sz0 (Z.max sizeof_ptr align) in
  sz0 <= sz -> 0 < sz ->
  Forall (fun x => ~ (available x = true /\ sz + 16 <= size x)) l1 ->
  available r = true -> sz + 16 <= size r ->
  let p := data_address this + span l1 + sizeof_HeapHeader in
  exists h1 h2 m2,
    HeapBlock_alloc fuel h this sz0 align = (h1, Returned p)
    /\ HeapBlock_free fuel h1 this p = (h2, Returned tt)
    /\ blocks h2 !! this = Some (mkBlock (m_prev b) (m_next b) m2)
    /\ layout m2 0 (l1 ++ mkHeader (sig_value Freed) (size r) :: l2).
Proof.
  intros Hb Hl Hco Hkeep Ha sz Hle Hpos Hno Hav Hfit p.
  assert (Hr : 0 < size r <= 16352).
  { apply (layout_sizes _ _ _ Hl). apply in_or_app. right. now left. }
  assert (Hp1 : Forall (fun x => 0 < size x) l1).
  { apply Forall_forall. intros x Hx.
    apply (layout_sizes _ _ _ Hl). apply in_or_app. left.
    apply list_elem_of_In. exact Hx. }
  assert (Hk : m_prev b = 0 \/ ~ fully_empty (l1 ++ r :: l2)).
  { destruct Hkeep as [Hk|Hk]; [now left|right].
    intros (x & He & _). apply Hk.
    destruct l1 as [|y [|z l1]]; cbn [app] in He; try discriminate.
    injection He as _ ->. reflexivity. }
  destruct (alloc_free_layout fuel h this b (l1 ++ r :: l2) _ sz0 align
              (0 + span l1) Hb Hl Hco Hk Ha Hle Hpos ltac:(lia)
              (first_fit_split l1 0 sz r l2 Hno Hav Hfit))
    as (h1 & h2 & m2 & H1 & H2 & H3 & H4).
  rewrite (mark_freed_split l1 0 r l2 Hp1) in H4.
  rewrite Z.add_0_l in *. unfold p. eauto 7.
Qed.

(** X9: on a block whose regions are coalesced already, and that is not to
    be unmapped, [merge_and_cleanup] changes nothing: the block stays in the
    chain with the same regions, and no byte outside the length fields of
    its headers is written. *)
Theorem cleanup_coalesced_unchanged (h : heap) (this : Z) (b : HeapBlock)
    (regs : list HeapHeader) :
  blocks h !! this = Some b -> layout (m_data b) 0 regs -> coalesced regs ->
  ~ (fully_empty regs /\ m_prev b <> 0) ->
  exists m',
    merge_and_cleanup h this = (set_data h this b m', Returned tt)
    /\ layout m' 0 regs
    /\ (forall x, (forall o r, region_at 0 regs o r -> x < o + 4 \/ o + 8 <= x) ->
                  m' x = m_data b x).
Proof.
  intros Hb Hl Hco Hk.
  pose proof (layout_fuel _ _ _ (Z.le_refl 0) Hl) as Hf.
  destruct (merge_scan_layout walk_fuel _ _ _ Hl Hf) as (m' & Hm & Hl' & _ & Hfr).
  rewrite (coalesce_id _ Hco) in Hl'.
  destruct (merge_and_cleanup_keep h this b regs Hb Hl) as (m2 & Hm2 & _ & Hres).
  { rewrite (coalesce_id _ Hco). exact Hk. }
  rewrite Hm in Hm2. injection Hm2 as <-.
  exists m'. split; [exact Hres|]. split; [exact Hl'|exact Hfr].
Qed.

(** ** The diagnostics on a well-formed chain *)

Lemma print_all_app (o1 o2 : list event) (h : heap) :
  print_all (o1 ++ o2) h = print_all o2 (print_all o1 h).
Proof. apply fold_left_app. Qed.

Lemma print_all_blocks (out : list event) : forall h,
  blocks (print_all out h) = blocks h.
Proof.
  induction out as [|e out IH]; intros h; [reflexivity|].
  cbn [print_all fold_left]. fold (print_all out (print e h)). now rewrite IH.
Qed.

Lemma print_all_stdout (out : list event) : forall h,
  stdout (print_all out h) = stdout h ++ out.
Proof.
  induction out as [|e out IH]; intros h.
  - cbn. now rewrite app_nil_r.
  - cbn [print_all fold_left]. fold (print_all out (print e h)).
    rewrite IH. cbn [print stdout]. now rewrite <- app_assoc.
Qed.

Lemma print_all_frame (out : list event) : forall h,
  same_frame h (print_all out h)
  /\ mmap_calls (print_all out h) = mmap_calls h
  /\ mmap_results (print_all out h) = mmap_results h.
Proof.
  induction out as [|e out IH]; intros h; [repeat split|].
  cbn [print_all fold_left]. fold (print_all out (print e h)).
  destruct (IH (print e h)) as ((H1 & H2 & H3) & H4 & H5).
  repeat split; assumption.
Qed.

Lemma leak_walk_layout (l : list HeapHeader) : forall fuel m base off lf,
  layout m off l -> (length l < fuel)%nat ->
  leak_walk fuel m base off lf
  = MergeDone (leak_lines base off l, lf || has_used l).
Proof.
  induction l as [|r l IH]; intros fuel m base off lf Hl Hf;
    (destruct fuel as [|fuel]; [simpl in Hf; lia|]);
    pose proof (layout_off_nonneg _ _ _ Hl) as H0;
    cbn [leak_walk leak_lines has_used existsb];
    rewrite (layout_in_data _ _ _ H0 Hl); cbn [negb].
  - destruct Hl as [Hh _]. rewrite Hh.
    change (signature (header_of EndEdge 0) =? sig_value Used) with false.
    change (valid_signature (header_of EndEdge 0)) with true.
    change (next off (header_of EndEdge 0)) with (@None Z).
    cbv iota. cbn [negb]. now rewrite orb_false_r.
  - destruct Hl as (_ & Hh & Hr & Hl). rewrite Hh.
    pose proof (is_region_inv _ Hr) as (Hs & Hv & _).
    unfold next. destruct (Z.eqb_spec (size r) 0); [lia|].
    replace (off + size r + sizeof_HeapHeader)
      with (off + sizeof_HeapHeader + size r) by lia.
    fold (has_used l).
    destruct (signature r =? sig_value Used).
    + destruct (Z.ltb_spec 0 (size r)); [|lia].
      rewrite (IH fuel m base _ true Hl) by (simpl in Hf; lia).
      cbn [orb]. now rewrite orb_true_r.
    + rewrite Hv. cbn [negb app orb].
      apply IH; [exact Hl|simpl in Hf; lia].
Qed.

Lemma dump_walk_layout (l : list HeapHeader) : forall fuel m base off,
  layout m off l -> (length l < fuel)%nat ->
  dump_walk fuel m base off = MergeDone (dump_lines base off l, false).
Proof.
  induction l as [|r l IH]; intros fuel m base off Hl Hf;
    (destruct fuel as [|fuel]; [simpl in Hf; lia|]);
    pose proof (layout_off_nonneg _ _ _ Hl) as H0;
    cbn [dump_walk dump_lines];
    rewrite (layout_in_data _ _ _ H0 Hl); cbn [negb].
  - destruct Hl as [Hh _]. rewrite Hh.
    change (valid_signature (header_of EndEdge 0)) with true.
    change (next off (header_of EndEdge 0)) with (@None Z).
    reflexivity.
  - destruct Hl as (_ & Hh & Hr & Hl). rewrite Hh.
    pose proof (is_region_inv _ Hr) as (Hs & Hv & _). rewrite Hv. cbn [negb].
    fold (dump_line base off r).
    assert (Hn : next off r = Some (off + sizeof_HeapHeader + size r)).
    { unfold next. destruct (Z.eqb_spec (size r) 0); [lia|]. f_equal. lia. }
    rewrite Hn. rewrite (IH fuel m base _ Hl) by (simpl in Hf; lia).
    reflexivity.
Qed.

Lemma leak_check_eq (fuel : nat) (h : heap) (this : Z) :
  leak_check fuel h this =
  match blocks h !! this with
  | None => (h, WildAccess)
  | Some b =>
    let h := print (LeakCheckStart this) h in
    match leak_walk walk_fuel (m_data b) (data_address this) 0 false with
    | MergeWild => (h, WildAccess)
    | MergeOutOfFuel => (h, OutOfFuel)
    | MergeDone (out, leak_found) =>
      let h := print_all out h in
      let after_next :=
        if negb (m_next b =? 0) then
          match fuel with
          | O => (h, OutOfFuel)
          | S fuel' => leak_check fuel' h (m_next b)
          end
        else (h, Returned tt) in
      match after_next with
      | (h, Returned _) =>
        if negb leak_found then (print (LeakCheckNoLeak this) h, Returned tt)
        else (h, Returned tt)
      | r => r
      end
    end
  end.
Proof. destruct fuel; reflexivity. Qed.

Lemma dump_eq (fuel : nat) (h : heap) (this : Z) :
  dump fuel h this =
  match blocks h !! this with
  | None => (h, WildAccess)
  | Some b =>
    let h := print (DumpHeap this (m_next b)) h in
    match dump_walk walk_fuel (m_data b) (data_address this) 0 with
    | MergeWild => (h, WildAccess)
    | MergeOutOfFuel => (h, OutOfFuel)
    | MergeDone (out, aborted) =>
      let h := print_all out h in
      if aborted then (h, Aborted)
      else if negb (m_next b =? 0) then
        match fuel with
        | O => (h, OutOfFuel)
        | S fuel' => dump fuel' h (m_next b)
        end
      else (h, Returned tt)
    end
  end.
Proof. destruct fuel; reflexivity. Qed.

Lemma regions_of_print_all (out : list event) (h : heap)
    (lr : list (Z * list HeapHeader)) :
  regions_of h lr -> regions_of (print_all out h) lr.
Proof. unfold regions_of. now rewrite print_all_blocks. Qed.

Lemma leak_check_chain (lr : list (Z * list HeapHeader)) :
  forall fuel h prev,
  chain (blocks h) prev (map fst lr) 0 -> regions_of h lr -> lr <> [] ->
  (length lr <= S fuel)%nat ->
  leak_check fuel h (hd 0 (map fst lr))
  = (print_all (leak_report lr) h, Returned tt).
Proof.
  induction lr as [|[a regs] lr IH]; intros fuel h prev Hc Hr Hne Hf;
    [congruence|].
  cbn [map fst hd chain] in *.
  destruct Hc as (Ha & b & Hb & _ & Hn & Hc).
  inversion Hr as [|? ? (b' & Hb' & Hl) Hr']; subst. cbn [fst snd] in *.
  assert (b' = b) by congruence. subst b'.
  pose proof (layout_fuel _ _ _ (Z.le_refl 0) Hl) as Hfu.
  rewrite leak_check_eq, Hb. cbv zeta.
  rewrite (leak_walk_layout regs walk_fuel _ _ 0 false Hl Hfu). cbn [orb].
  set (lines := leak_lines (data_address a) 0 regs).
  assert (Hh1 : print_all lines (print (LeakCheckStart a) h)
                = print_all (LeakCheckStart a :: lines) h) by reflexivity.
  rewrite Hh1. set (h1 := print_all (LeakCheckStart a :: lines) h).
  cbn [leak_report]. fold lines.
  change (LeakCheckStart a
            :: lines ++ leak_report lr
               ++ (if has_used regs then [] else [LeakCheckNoLeak a]))
    with ((LeakCheckStart a :: lines)
            ++ leak_report lr
               ++ (if has_used regs then [] else [LeakCheckNoLeak a])).
  rewrite !print_all_app. fold h1.
  destruct lr as [|[a' regs'] lr].
  - cbn [map hd] in Hn. rewrite Hn. cbn [negb Z.eqb leak_report print_all
                                          fold_left].
    destruct (has_used regs); reflexivity.
  - cbn [map fst hd] in Hn. rewrite Hn.
    assert (Ha' : a' <> 0) by (cbn [map fst chain] in Hc; tauto).
    destruct (Z.eqb_spec a' 0); [contradiction|]. cbn [negb].
    destruct fuel as [|fuel]; [simpl in Hf; lia|].
    assert (Hc1 : chain (blocks h1) a (map fst ((a', regs') :: lr)) 0).
    { unfold h1. rewrite print_all_blocks. exact Hc. }
    pose proof (IH fuel h1 a Hc1 (regions_of_print_all _ _ _ Hr')
                  ltac:(discriminate) ltac:(simpl in Hf |- *; lia)) as Hrec.
    cbn [map fst hd] in Hrec. rewrite Hrec.
    destruct (has_used regs); reflexivity.
Qed.

Lemma dump_chain (lr : list (Z * list HeapHeader)) :
  forall fuel h prev,
  chain (blocks h) prev (map fst lr) 0 -> regions_of h lr -> lr <> [] ->
  (length lr <= S fuel)%nat ->
  dump fuel h (hd 0 (map fst lr))
  = (print_all (dump_report lr 0) h, Returned tt).
Proof.
  induction lr as [|[a regs] lr IH]; intros fuel h prev Hc Hr Hne Hf;
    [congruence|].
  cbn [map fst hd chain] in *.
  destruct Hc as (Ha & b & Hb & _ & Hn & Hc).
  inversion Hr as [|? ? (b' & Hb' & Hl) Hr']; subst. cbn [fst snd] in *.
  assert (b' = b) by congruence. subst b'.
  pose proof (layout_fuel _ _ _ (Z.le_refl 0) Hl) as Hfu.
  rewrite dump_eq, Hb. cbv zeta.
  rewrite (dump_walk_layout regs walk_fuel _ _ 0 Hl Hfu). cbv iota.
  set (lines := dump_lines (data_address a) 0 regs).
  assert (Hh1 : print_all lines (print (DumpHeap a (m_next b)) h)
                = print_all (DumpHeap a (m_next b) :: lines) h) by reflexivity.
  rewrite Hh1. set (h1 := print_all (DumpHeap a (m_next b) :: lines) h).
  cbn [dump_report]. fold lines. rewrite <- Hn.
  change (DumpHeap a (m_next b) :: lines ++ dump_report lr 0)
    with ((DumpHeap a (m_next b) :: lines) ++ dump_report lr 0).
  rewrite print_all_app. fold h1.
  destruct lr as [|[a' regs'] lr].
  - cbn [map hd] in Hn. rewrite Hn. reflexivity.
  - cbn [map fst hd] in Hn. rewrite Hn.
    assert (Ha' : a' <> 0) by (cbn [map fst chain] in Hc; tauto).
    destruct (Z.eqb_spec a' 0); [contradiction|]. cbn [negb].
    destruct fuel as [|fuel]; [simpl in Hf; lia|].
    assert (Hc1 : chain (blocks h1) a (map fst ((a', regs') :: lr)) 0).
    { unfold h1. rewrite print_all_blocks. exact Hc. }
    apply (IH fuel h1 a Hc1 (regions_of_print_all _ _ _ Hr')
             ltac:(discriminate) ltac:(simpl in Hf |- *; lia)).
Qed.

(** X10: on a well-formed chain [my_leak_check] returns.  It writes, block
    by block, the start line and one line for each region in use, with its
    length and the address of its payload; the line that reports a block as
    free of leaks is written for the blocks without a region in use, after
    the lines of the blocks behind it.  Nothing but the output changes. *)
Theorem leak_check_reports_used (fuel : nat) (h : heap)
    (lr : list (Z * list HeapHeader)) :
  wf_heap h (map fst lr) -> regions_of h lr ->
  (length lr <= S fuel)%nat ->
  my_leak_check fuel h = (print_all (leak_report lr) h, Returned tt)
  /\ blocks (print_all (leak_report lr) h) = blocks h
  /\ stdout (print_all (leak_report lr) h) = stdout h ++ leak_report lr.
Proof.
  intros Hwf Hr Hf. split; [|split; [apply print_all_blocks
                                    |apply print_all_stdout]].
  unfold my_leak_check. rewrite <- (wf_heap_head _ _ Hwf).
  destruct Hwf as (Hhd & Hc & _).
  apply (leak_check_chain lr fuel h 0 Hc Hr); [|exact Hf].
  destruct lr; discriminate.
Qed.

(** X11: on a well-formed chain of an initialised heap [my_heap_dump]
    returns, without aborting.  Between its first and its last line it
    writes, block by block, the line of the block with the address of the
    next one, one line for each region and one for the end edge.  Nothing but
    the output changes. *)
Theorem heap_dump_lists_regions (fuel : nat) (h : heap)
    (lr : list (Z * list HeapHeader)) :
  g_heap_initialized h = true ->
  wf_heap h (map fst lr) -> regions_of h lr ->
  (length lr <= S fuel)%nat ->
  my_heap_dump fuel h
  = (print_all (DumpBegin :: dump_report lr 0 ++ [DumpEnd]) h, Returned tt)
  /\ blocks (print_all (DumpBegin :: dump_report lr 0 ++ [DumpEnd]) h)
     = blocks h.
Proof.
  intros Hinit Hwf Hr Hf. split; [|apply print_all_blocks].
  unfold my_heap_dump. cbv zeta.
  change (g_heap_initialized (print DumpBegin h)) with (g_heap_initialized h).
  change (g_heap_storage (print DumpBegin h)) with (g_heap_storage h).
  rewrite Hinit. cbn [negb]. rewrite <- (wf_heap_head _ _ Hwf).
  destruct Hwf as (Hhd & Hc & _).
  rewrite (dump_chain lr fuel (print DumpBegin h) 0 Hc
             (regions_of_print_all [DumpBegin] h lr Hr)
             ltac:(destruct lr; discriminate) Hf).
  change (DumpBegin :: dump_report lr 0 ++ [DumpEnd])
    with ([DumpBegin] ++ dump_report lr 0 ++ [DumpEnd]).
  rewrite !print_all_app. reflexivity.
Qed.

(** ** What a request changes *)

Lemma alloc_here_rounded_frame (fuel : nat) (h : heap) (this : Z)
    (b : HeapBlock) (regs regs' : list HeapHeader) (sz a o : Z) :
  blocks h !! this = Some b -> layout (m_data b) 0 regs ->
  8 <= a -> aligned_size sz a = sz -> 0 < sz -> sz + 16 < 2 ^ 64 ->
  first_fit 0 regs sz = Some (o, regs') ->
  exists m',
    HeapBlock_alloc fuel h this sz a
    = (set_data h this b m',
       Returned (data_address this + o + sizeof_HeapHeader))
    /\ layout m' 0 regs'
    /\ (forall x, x < o \/ o + 8 <= x < o + 8 + sz \/ o + 16 + sz <= x ->
                  m' x = m_data b x).
Proof.
  intros Hb Hl Ha Hidem Hpos Hsmall Hff.
  assert (Hmax : Z.max sizeof_ptr a = a) by (unfold sizeof_ptr; lia).
  pose proof (alloc_here_frame fuel h this b regs regs' sz a o Hb Hl) as H.
  cbv zeta in H. rewrite Hmax, Hidem in H.
  apply H; try lia. exact Hff.
Qed.

(** [HeapBlock::alloc] along the chain, in detail: the block [this] the
    request ends up in is one of the chain or the one mapped for it, the
    region is the first of that block with room, no byte of the block other
    than the two headers changes, and the data of the other blocks is
    untouched. *)
Lemma alloc_chain_places (sz a : Z) : forall lrest lpre fuel h,
  wf_heap h (lpre ++ lrest) -> lrest <> [] ->
  8 <= a -> aligned_size sz a = sz -> 0 < sz <= 16336 ->
  fresh_block h (lpre ++ lrest) ->
  (length lrest <= fuel)%nat ->
  exists h' this o b0 b' regs0 regs,
    HeapBlock_alloc fuel h (hd 0 lrest) sz a
    = (h', Returned (data_address this + o + sizeof_HeapHeader))
    /\ (this ∈ lpre ++ lrest /\ blocks h !! this = Some b0
        \/ this = mmap_results h (mmap_calls h)
           /\ m_data b0 = init zero_mem)
    /\ blocks h' !! this = Some b'
    /\ layout (m_data b0) 0 regs0 /\ layout (m_data b') 0 regs
    /\ first_fit 0 regs0 sz = Some (o, regs)
    /\ (forall x, x < o \/ o + 8 <= x < o + 8 + sz \/ o + 16 + sz <= x ->
                  m_data b' x = m_data b0 x)
    /\ (forall t b, t <> this -> blocks h !! t = Some b ->
          exists bt, blocks h' !! t = Some bt /\ m_data bt = m_data b)
    /\ (forall t, is_Some (blocks h' !! t) ->
          t = this \/ is_Some (blocks h !! t)).
Proof.
  induction lrest as [|this rest IH];
    intros lpre fuel h Hwf Hne Ha Hidem Hsz Hfresh Hfuel; [congruence|].
  cbn [hd].
  destruct (wf_heap_block _ _ _ _ Hwf) as (b & Hb & Hbp & Hbn & Ht0 & _).
  pose proof Hwf as (_ & _ & _ & Hly).
  assert (Htl : this ∈ lpre ++ this :: rest).
  { apply elem_of_app. right. apply list_elem_of_here. }
  destruct (Hly this b Htl Hb) as (regs & Hl).
  assert (Hmax : Z.max sizeof_ptr a = a) by (unfold sizeof_ptr; lia).
  destruct (first_fit 0 regs sz) as [[o regs']|] eqn:Hff.
  - (* placed here *)
    destruct (alloc_here_rounded_frame fuel h this b regs regs' sz a o Hb Hl Ha
                Hidem ltac:(lia) ltac:(lia) Hff) as (m' & Hres & Hl' & Hfr).
    exists (set_data h this b m'), this, o, b,
      (mkBlock (m_prev b) (m_next b) m'), regs, regs'.
    unfold set_data, set_block, set_blocks in *. cbn [blocks m_data].
    split; [exact Hres|]. split; [left; split; assumption|].
    split; [apply lookup_insert_eq|]. split; [exact Hl|].
    split; [exact Hl'|]. split; [exact Hff|]. split; [exact Hfr|]. split.
    + intros t bt Ht Hbt. exists bt.
      rewrite lookup_insert_ne by congruence. auto.
    + intros t. rewrite lookup_insert_is_Some. intros [<-|[_ Hx]]; auto.
  - (* no room here *)
    pose proof (layout_fuel _ _ _ (Z.le_refl 0) Hl) as Hf.
    pose proof (alloc_walk_layout regs walk_fuel (m_data b) 0 sz Hl Hf
                  ltac:(lia) ltac:(lia)) as Hw.
    rewrite Hff in Hw.
    rewrite HeapBlock_alloc_eq.
    destruct (Z.eqb_spec a 0) as [?|_]; [lia|]. cbv zeta.
    rewrite Hmax, Hidem.
    destruct (Z.leb_spec sz sz); [|lia]. cbn [negb].
    rewrite Hb, Hw.
    destruct fuel as [|fuel]; [simpl in Hfuel; lia|].
    destruct rest as [|nx rest].
    + (* the last block: a new one is mapped *)
      cbn [hd] in Hbn.
      destruct Hfresh as (Hm0 & Hmf & Hsep).
      assert (Hmt : mmap_results h (mmap_calls h) <> this).
      { rewrite Forall_forall in Hsep. specialize (Hsep this Htl). sizes. }
      destruct (ensure_next_fresh h this b Hb Hbn Hm0 Hmf Hmt)
        as (h2 & He & Hb2 & Hbm & Hc2 & Hr2 & Hg2 & Hgs & Hout & Hbs).
      rewrite He, Hb2. cbn [m_next].
      set (memory := mmap_results h (mmap_calls h)) in *.
      destruct (alloc_here_rounded_frame fuel h2 memory (HeapBlock_new this)
                  [header_of Empty 16352] _ sz a 0 Hbm (layout_init zero_mem)
                  Ha Hidem ltac:(lia) ltac:(lia)
                  (first_fit_fresh sz Hsz)) as (m' & Hres & Hl' & Hfr).
      eexists _, memory, 0, (HeapBlock_new this), _, _, _.
      split; [exact Hres|]. split; [right; split; reflexivity|].
      unfold set_data, set_block, set_blocks. cbn [blocks].
      split; [apply lookup_insert_eq|]. cbn [m_data].
      split; [apply layout_init|]. split; [exact Hl'|].
      split; [apply first_fit_fresh; exact Hsz|]. split; [exact Hfr|]. split.
      * intros t bt Ht Hbt. rewrite lookup_insert_ne by congruence.
        rewrite Hbs. rewrite lookup_insert_ne by congruence.
        destruct (decide (this = t)) as [<-|Hnt].
        -- rewrite lookup_insert_eq. eexists. split; [reflexivity|].
           cbn [m_data]. congruence.
        -- rewrite lookup_insert_ne by exact Hnt. eauto.
      * intros t. rewrite lookup_insert_is_Some, Hbs, !lookup_insert_is_Some.
        intros [<-|[_ [<-|[_ [<-|[_ Hx]]]]]]; eauto.
    + (* on to the next block *)
      cbn [hd] in Hbn.
      assert (Hn0 : nx <> 0).
      { destruct Hwf as (_ & Hc & _).
        eapply (chain_lookup _ _ _ _ nx Hc).
        rewrite elem_of_app, !elem_of_cons. tauto. }
      unfold ensure_next_allocated_from_os. rewrite Hb, Hbn.
      destruct (Z.eqb_spec nx 0); [contradiction|].
      rewrite Hb, Hbn.
      replace (lpre ++ this :: nx :: rest)
        with ((lpre ++ [this]) ++ nx :: rest)
        in * by (rewrite <- app_assoc; reflexivity).
      destruct (IH (lpre ++ [this]) fuel h Hwf ltac:(discriminate) Ha Hidem Hsz
                  Hfresh ltac:(simpl in Hfuel |- *; lia))
        as (h' & t & o & b0 & b' & regs0 & regs1 & H1 & H2 & H3).
      cbn [hd] in H1.
      exists h', t, o, b0, b', regs0, regs1. split; [exact H1|].
      split; [exact H2|exact H3].
Qed.

Lemma region_at_mark_freed_inv (l : list HeapHeader) : forall off o x r',
  region_at off (mark_freed off l o) x r' ->
  exists r, region_at off l x r /\ size r' = size r
            /\ (r' = r \/ x = o /\ signature r' = sig_value Freed).
Proof.
  induction l as [|h l IH]; cbn [mark_freed region_at]; intros off o x r' H;
    [contradiction|].
  destruct (Z.eqb_spec o off) as [->|Hne]; cbn [region_at size] in H.
  - destruct H as [[-> ->]|H].
    + exists h. split; [now left|]. split; [reflexivity|]. right. now split.
    + exists r'. split; [now right|]. split; [reflexivity|now left].
  - destruct H as [[-> ->]|H].
    + exists h. split; [now left|]. split; [reflexivity|now left].
    + destruct (IH _ _ _ _ H) as (r & Hr & Hs & Hc).
      exists r. split; [now right|]. split; assumption.
Qed.

Lemma region_at_coalesce_inv (l : list HeapHeader) : forall off x r,
  region_at off (coalesce l) x r -> available r = false ->
  region_at off l x r.
Proof.
  induction l as [|h l IH]; intros off x r H Hav; [contradiction|].
  cbn [coalesce] in H. cbn [region_at].
  destruct (coalesce l) as [|h' rest] eqn:E.
  - cbn [region_at] in H. destruct H as [H|[]]. now left.
  - destruct (available h && available h') eqn:Hb.
    + apply andb_prop in Hb as [Hh _].
      cbn [region_at size] in H. destruct H as [[_ ->]|H].
      * unfold available in Hav, Hh. cbn [signature] in Hav. congruence.
      * right. apply IH; [|exact Hav]. cbn [region_at]. right.
        replace (off + sizeof_HeapHeader + size h + sizeof_HeapHeader + size h')
          with (off + sizeof_HeapHeader
                + (size h + size h' + sizeof_HeapHeader)) by lia.
        exact H.
    + cbn [region_at] in H. destruct H as [H|H]; [now left|].
      right. apply IH; [|exact Hav]. exact H.
Qed.

Lemma region_at_first_fit_inv (l : list HeapHeader) : forall off sz o l' x r,
  first_fit off l sz = Some (o, l') -> region_at off l' x r ->
  (x = o /\ r = header_of Used sz)
  \/ (x = o + sizeof_HeapHeader + sz /\ signature r = sig_value Empty)
  \/ region_at off l x r.
Proof.
  induction l as [|h l IH]; cbn [first_fit]; intros off sz o l' x r H Hr;
    [discriminate|].
  destruct (available h && _) eqn:Hfit.
  - injection H as <- <-. cbn [region_at header_of size] in Hr.
    destruct Hr as [Hr|[[-> ->]|Hr]]; [now left| |].
    + right. left. split; reflexivity.
    + right. right. cbn [region_at]. right.
      replace (off + sizeof_HeapHeader + size h)
        with (off + sizeof_HeapHeader + sz + sizeof_HeapHeader
              + (size h - sz - sizeof_HeapHeader)) by lia.
      exact Hr.
  - destruct (first_fit _ l sz) as [[o' r']|] eqn:E; [|discriminate].
    injection H as <- <-. cbn [region_at] in Hr |- *.
    destruct Hr as [Hr|Hr]; [right; right; now left|].
    destruct (IH _ _ _ _ _ _ E Hr) as [?|[?|?]]; auto.
Qed.

(** [my_free] of an address in use, in detail: the block either is unmapped,
    being one available region and not the root, or stays with its regions
    coalesced, no byte of it written but the signature of the region freed
    and the length fields of headers; the data of the other blocks is
    untouched. *)
Lemma free_releases (fuel : nat) (h : heap) (l1 : list Z) (this : Z)
    (l2 : list Z) (regs : list HeapHeader) (off p : Z) :
  wf_heap h (l1 ++ this :: l2) ->
  (forall a, is_Some (blocks h !! a) -> a ∈ l1 ++ this :: l2) ->
  big_blocks h = ∅ -> g_heap_initialized h = true ->
  live_at h this regs off p ->
  (length (l1 ++ this :: l2) <= S fuel)%nat ->
  exists h1 b,
    my_free fuel h p = (h1, Returned tt)
    /\ blocks h !! this = Some b
    /\ same_frame h h1
    /\ (forall t bt, t <> this -> blocks h !! t = Some bt ->
          exists bt', blocks h1 !! t = Some bt' /\ m_data bt' = m_data bt)
    /\ (forall t, is_Some (blocks h1 !! t) -> is_Some (blocks h !! t))
    /\ (blocks h1 !! this = None
        /\ fully_empty (coalesce (mark_freed 0 regs off))
        /\ this <> g_heap_storage h
        /\ wf_heap h1 (l1 ++ l2)
        \/ exists b1,
             blocks h1 !! this = Some b1
             /\ wf_heap h1 (l1 ++ this :: l2)
             /\ layout (m_data b1) 0 (coalesce (mark_freed 0 regs off))
             /\ ~ (fully_empty (coalesce (mark_freed 0 regs off))
                   /\ this <> g_heap_storage h)
             /\ (forall x, x < off \/ off + 4 <= x ->
                   (forall o r, region_at 0 regs o r -> x < o + 4 \/ o + 8 <= x) ->
                   m_data b1 x = m_data b x)).
Proof.
  intros Hwf Hdom Hbig Hinit Hlive Hfuel.
  pose proof (live_in_block_data _ _ _ _ _ Hlive) as Hin.
  destruct Hlive as (b & r & Hb & Hl & Hr & Hu & Haddr).
  pose proof Hwf as (_ & Hc & Hs & _).
  pose proof (separated_app _ _ Hs) as (_ & _ & Hs12).
  assert (Hout1 : forall a, a ∈ l1 -> ~ in_block_data a p).
  { intros a Ha. apply (in_block_data_separated this a p); [|exact Hin].
    specialize (Hs12 a this Ha (list_elem_of_here _ _)). lia. }
  assert (Hlen : (length l1 <= fuel)%nat).
  { rewrite length_app in Hfuel. simpl in Hfuel. lia. }
  assert (Hfr : freed r = false).
  { unfold freed. rewrite Hu. reflexivity. }
  pose proof (region_at_in_data _ _ _ _ Hl Hr) as Hind.
  destruct (region_at_read _ _ _ _ _ Hl Hr) as (Hrd & _).
  assert (Hfirst : my_free fuel h p
                   = HeapBlock_free (fuel - length l1) h this p).
  { rewrite (my_free_in_block fuel h _ this b off p Hdom Hs Hinit Hb Hind);
      [|rewrite Hrd, Hu; reflexivity|exact Haddr].
    rewrite <- (wf_heap_head _ _ Hwf).
    apply (free_skip h p this l2 0 l1 fuel 0 Hc Hout1 Hlen). }
  rewrite Hfirst.
  rewrite (free_here (fuel - length l1) h this p b regs off r Hb Hl Hr Haddr).
  rewrite Hfr.
  set (m1 := write_signature (m_data b) off Freed).
  set (hs := set_data h this b m1).
  pose proof (layout_mark_freed _ _ _ _ _ Hl Hr) as Hl1. fold m1 in Hl1.
  assert (Hwf1 : wf_heap hs (l1 ++ this :: l2))
    by (eapply wf_heap_set_data; eauto).
  assert (Hb1 : blocks hs !! this = Some (mkBlock (m_prev b) (m_next b) m1)).
  { unfold hs, set_data, set_block, set_blocks. cbn [blocks].
    apply lookup_insert_eq. }
  destruct (merge_and_cleanup_wf hs l1 this l2 _ _ Hwf1 Hb1 Hl1)
    as (h1 & H1 & _ & Hiff & Hgone & Hkept & _).
  change (g_heap_storage hs) with (g_heap_storage h) in Hiff.
  exists h1, b. split; [exact H1|]. split; [exact Hb|]. split.
  { pose proof (merge_and_cleanup_frame hs this) as Hf. rewrite H1 in Hf.
    exact Hf. }
  split; [|split].
  - intros t bt Ht Hbt.
    apply (merge_and_cleanup_others hs h1 this t bt H1 Ht).
    unfold hs, set_data, set_block, set_blocks. cbn [blocks].
    rewrite lookup_insert_ne by congruence. exact Hbt.
  - intros t Ht. pose proof (merge_and_cleanup_dom hs this t) as Hd.
    rewrite H1 in Hd. specialize (Hd Ht).
    unfold hs, set_data, set_block, set_blocks in Hd. cbn [blocks] in Hd.
    apply lookup_insert_is_Some in Hd as [<-|[_ Hd]]; eauto.
  - destruct (blocks h1 !! this) as [b1|] eqn:Hb1'.
    + right. exists b1. split; [reflexivity|].
      destruct Hkept as (Hw & b' & Hb' & Hl' & Hm); [discriminate|].
      injection Hb' as <-. cbn [m_data] in Hm.
      split; [exact Hw|]. split; [exact Hl'|]. split.
      { intros Hfe. destruct Hiff as [_ Hi]. specialize (Hi Hfe).
        discriminate. }
      intros x Hx Hxr.
      pose proof (layout_fuel _ _ _ (Z.le_refl 0) Hl1) as Hfu.
      destruct (merge_scan_layout walk_fuel _ _ _ Hl1 Hfu)
        as (m' & Hm' & _ & _ & Hframe).
      rewrite Hm in Hm'. injection Hm' as <-.
      rewrite Hframe.
      * unfold m1. apply write_signature_other. exact Hx.
      * intros o r' Ho.
        destruct (region_at_mark_freed_inv _ _ _ _ _ Ho) as (r0 & Hr0 & _).
        apply (Hxr o r0 Hr0).
    + left. split; [reflexivity|]. destruct Hiff as [Hi _].
      destruct (Hi eq_refl) as [Hfe Hnr].
      split; [exact Hfe|]. split; [exact Hnr|]. apply Hgone. reflexivity.
Qed.

(** ** Requests and releases on a heap that satisfies the invariant *)

Lemma malloc_places (fuel : nat) (h : heap) (l live : list Z) (sz k : Z) :
  heap_inv h l live ->
  0 <= k < 64 -> 0 < sz <= 16336 ->
  aligned_size sz (Z.max sizeof_ptr (2 ^ k)) <= 16336 ->
  fresh_block h l -> (length l <= fuel)%nat ->
  let rsz := aligned_size sz (Z.max sizeof_ptr (2 ^ k)) in
  exists h' this o b0 b' regs0 regs l',
    my_malloc fuel h sz (2 ^ k)
    = (h', Returned (data_address this + o + sizeof_HeapHeader))
    /\ sz <= rsz
    /\ (this ∈ l /\ blocks h !! this = Some b0
        \/ this = mmap_results h (mmap_calls h) /\ m_data b0 = init zero_mem)
    /\ blocks h' !! this = Some b'
    /\ layout (m_data b0) 0 regs0 /\ layout (m_data b') 0 regs
    /\ first_fit 0 regs0 rsz = Some (o, regs)
    /\ (forall x, x < o \/ o + 8 <= x < o + 8 + rsz \/ o + 16 + rsz <= x ->
                  m_data b' x = m_data b0 x)
    /\ (forall t b, t <> this -> blocks h !! t = Some b ->
          exists bt, blocks h' !! t = Some bt /\ m_data bt = m_data b)
    /\ (forall t, is_Some (blocks h' !! t) ->
          t = this \/ is_Some (blocks h !! t))
    /\ heap_inv h' l' (data_address this + o + sizeof_HeapHeader :: live)
    /\ same_frame h h'
    /\ (data_address this + o + sizeof_HeapHeader ∉ live).
Proof.
  intros Hinv Hk Hsz Hr Hfresh Hfuel rsz.
  pose proof Hinv as (Hwf & Hinit & Hbig & Hdom & Hlive).
  destruct (rounded_pow2 sz k Hsz Hk) as (Ha & Hle & Hidem). cbv zeta in *.
  assert (Hm : my_malloc fuel h sz (2 ^ k)
               = HeapBlock_alloc fuel h (g_heap_storage h) rsz
                   (Z.max sizeof_ptr (2 ^ k))).
  { rewrite (my_malloc_slab fuel h sz (2 ^ k) Hinit) by lia.
    assert (H2k : 2 ^ k <> 0) by (pose proof (Z.pow_pos_nonneg 2 k); lia).
    apply (alloc_rounded fuel h (g_heap_storage h) sz (2 ^ k) H2k Hle Hidem). }
  assert (Hne : l <> []).
  { destruct Hwf as (Hhd & _). destruct l; discriminate. }
  fold rsz in Hidem, Hle, Hr.
  destruct (alloc_chain_places rsz (Z.max sizeof_ptr (2 ^ k)) l [] fuel h Hwf
              Hne Ha Hidem ltac:(lia) Hfresh Hfuel)
    as (h' & this & o & b0 & b' & regs0 & regs & H1 & H2 & H3 & H4 & H5 & H6
        & H7 & H8 & H9).
  cbn [app] in *. rewrite (wf_heap_head _ _ Hwf) in H1.
  rewrite <- Hm in H1.
  destruct (malloc_inv fuel h h' l live sz k _ Hinv Hk Hsz Hr Hfresh Hfuel H1)
    as (l' & Hinv').
  pose proof (HeapBlock_alloc_frame fuel h (g_heap_storage h) rsz
                (Z.max sizeof_ptr (2 ^ k))) as Hf.
  rewrite <- Hm, H1 in Hf. cbn [fst] in Hf.
  exists h', this, o, b0, b', regs0, regs, l'.
  split; [exact H1|]. split; [exact Hle|]. split; [exact H2|].
  split; [exact H3|]. split; [exact H4|]. split; [exact H5|].
  split; [exact H6|]. split; [exact H7|]. split; [exact H8|].
  split; [exact H9|]. split; [exact Hinv'|]. split; [exact Hf|].
  (* the region taken was available *)
  destruct (first_fit_region _ _ _ _ _ H6) as (Hru & r & Hra & Hrav & Hrs).
  pose proof (region_at_ge _ _ _ _ _ H5 Hru) as Ho.
  destruct (region_at_read _ _ _ _ _ H5 Hru) as (_ & _ & _ & Hbd).
  cbn [header_of size] in Hbd.
  intros Hp.
  destruct (Hlive _ Hp) as (t & regs1 & off1 & Ht & Hq).
  pose proof (live_in_block_data _ _ _ _ _ Hq) as Hin.
  assert (Hin' : in_block_data this
                   (data_address this + o + sizeof_HeapHeader))
    by (unfold in_block_data; sizes).
  destruct Hwf as (_ & _ & Hsep & _).
  destruct H2 as [[Hthis Hb0]|[Hthis _]].
  - assert (t = this).
    { destruct (decide (t = this)) as [|Hnt]; [assumption|]. exfalso.
      pose proof (separated_elems _ t this Hsep Ht Hthis Hnt) as Hd.
      exact (in_block_data_separated t this _ Hd Hin Hin'). }
    subst t. destruct Hq as (b & r1 & Hb & Hl1 & Hr1 & Hu & Heq).
    assert (b = b0) by congruence. subst b.
    rewrite <- (layout_unique _ _ _ _ H4 Hl1) in Hr1.
    assert (off1 = o) by lia. subst off1.
    destruct (region_at_read _ _ _ _ _ H4 Hr1) as (Hrd1 & _).
    destruct (region_at_read _ _ _ _ _ H4 Hra) as (Hrd2 & _).
    assert (Her : r1 = r) by congruence. rewrite Her in Hu.
    rewrite (used_not_available _ Hu) in Hrav. discriminate.
  - destruct Hfresh as (_ & _ & Hfr). rewrite Forall_forall in Hfr.
    specialize (Hfr t Ht). rewrite <- Hthis in Hfr.
    apply (in_block_data_separated t this _ Hfr Hin Hin').
Qed.

Lemma live_at_load (h : heap) (l live : list Z) (this : Z)
    (regs : list HeapHeader) (off : Z) (r : HeapHeader) (b : HeapBlock) :
  heap_inv h l live -> blocks h !! this = Some b ->
  layout (m_data b) 0 regs -> region_at 0 regs off r ->
  load_mapped h (data_address this + off + sizeof_HeapHeader - 8)
  = Some (signature r)
  /\ load_mapped h (data_address this + off + sizeof_HeapHeader - 4)
     = Some (size r)
  /\ 0 <= off /\ 0 < size r
  /\ off + sizeof_HeapHeader + size r <= sizeof_m_data - sizeof_HeapHeader.
Proof.
  intros (Hwf & _ & _ & Hdom & _) Hb Hl Hr.
  destruct Hwf as (_ & _ & Hs & _).
  pose proof (region_at_ge _ _ _ _ _ Hl Hr) as Hge.
  destruct (region_at_read _ _ _ _ _ Hl Hr) as (Hrd & Hreg & _ & Hbd).
  apply is_region_inv in Hreg as [Hpos _].
  replace (data_address this + off + sizeof_HeapHeader - 8)
    with (data_address this + off) by sizes.
  replace (data_address this + off + sizeof_HeapHeader - 4)
    with (data_address this + (off + 4)) by sizes.
  rewrite (load_mapped_block h l this b off Hb Hdom Hs) by sizes.
  rewrite (load_mapped_block h l this b (off + 4) Hb Hdom Hs) by sizes.
  change (load32 (m_data b) off) with (signature (read_header (m_data b) off)).
  change (load32 (m_data b) (off + 4))
    with (size (read_header (m_data b) off)).
  rewrite Hrd. repeat split; auto; lia.
Qed.


(** X13: on a heap that satisfies the invariant the regions of two
    different addresses in use do not overlap, headers included: each is
    headed by its length, and one ends before the header of the other
    begins. *)
Theorem live_regions_disjoint (h : heap) (l live : list Z) (p q : Z) :
  heap_inv h l live -> p ∈ live -> q ∈ live -> p <> q ->
  exists sp sq,
    load_mapped h (p - 4) = Some sp /\ load_mapped h (q - 4) = Some sq
    /\ 0 < sp /\ 0 < sq
    /\ (p + sp <= q - 8 \/ q + sq <= p - 8).
Proof.
  intros Hinv Hp Hq Hne. pose proof Hinv as (Hwf & _ & _ & _ & Hlive).
  destruct (Hlive p Hp) as (t & regs & off & Ht & b & r & Hb & Hl & Hr & _ & ->).
  destruct (Hlive q Hq)
    as (t' & regs' & off' & Ht' & b' & r' & Hb' & Hl' & Hr' & _ & ->).
  destruct (live_at_load h l live t regs off r b Hinv Hb Hl Hr)
    as (_ & Hz & Ho & Hpos & Hbd).
  destruct (live_at_load h l live t' regs' off' r' b' Hinv Hb' Hl' Hr')
    as (_ & Hz' & Ho' & Hpos' & Hbd').
  exists (size r), (size r'). split; [exact Hz|]. split; [exact Hz'|].
  split; [exact Hpos|]. split; [exact Hpos'|].
  destruct (decide (t = t')) as [<-|Hnt].
  - assert (b' = b) by congruence. subst b'.
    rewrite <- (layout_unique _ _ _ _ Hl Hl') in Hr'.
    destruct (region_at_separated _ _ _ _ _ _ _ Hl Hr Hr') as [->|[H|H]];
      [congruence| |]; sizes.
  - destruct Hwf as (_ & _ & Hsep & _).
    pose proof (separated_elems _ t t' Hsep Ht Ht' Hnt) as Hd. sizes.
Qed.




(** ** More that holds of a served state *)

Lemma rounded_multiple_of_8 (sz k : Z) :
  0 < sz <= 16336 -> 0 <= k < 64 ->
  (8 | aligned_size sz (Z.max sizeof_ptr (2 ^ k))).
Proof.
  intros Hsz Hk. rewrite max_ptr_pow2 by lia.
  set (k' := Z.max 3 k). assert (Hk' : 3 <= k' < 64) by lia.
  assert (Hp : 2 ^ 3 <= 2 ^ k') by (apply Z.pow_le_mono_r; lia).
  assert (Hp63 : 2 ^ k' <= 2 ^ 63) by (apply Z.pow_le_mono_r; lia).
  assert (Hr : 2 ^ k' * ((sz + 2 ^ k' - 1) / 2 ^ k') <= sz + 2 ^ k' - 1)
    by (apply Z.mul_div_le; lia).
  rewrite (aligned_size_pow2 sz k') by lia.
  replace k' with ((k' - 3) + 3) at 1 by lia.
  rewrite Z.pow_add_r by lia.
  exists (2 ^ (k' - 3) * ((sz + 2 ^ k' - 1) / 2 ^ k')).
  change (2 ^ 3) with 8. ring.
Qed.

Lemma first_fit_sizes (l : list HeapHeader) : forall off sz o l',
  (8 | sz) -> Forall (fun r => (8 | size r)) l ->
  first_fit off l sz = Some (o, l') -> Forall (fun r => (8 | size r)) l'.
Proof.
  induction l as [|h l IH]; cbn [first_fit]; intros off sz o l' Hsz Hall H;
    [discriminate|].
  apply Forall_cons in Hall as [Hh Hall].
  destruct (available h && _).
  - injection H as _ <-. constructor; [exact Hsz|].
    constructor; [|exact Hall]. cbn [header_of size].
    apply Z.divide_sub_r; [apply Z.divide_sub_r; assumption|].
    apply Z.divide_refl.
  - destruct (first_fit _ l sz) as [[o' r']|] eqn:E; [|discriminate].
    injection H as _ <-. constructor; [exact Hh|].
    apply (IH _ _ _ _ Hsz Hall E).
Qed.

Lemma coalesce_sizes (l : list HeapHeader) :
  Forall (fun r => (8 | size r)) l ->
  Forall (fun r => (8 | size r)) (coalesce l).
Proof.
  induction l as [|h l IH]; intros Hall; [constructor|].
  apply Forall_cons in Hall as [Hh Hall]. specialize (IH Hall).
  cbn [coalesce]. destruct (coalesce l) as [|h' r]; [repeat constructor; exact Hh|].
  apply Forall_cons in IH as [Hh' Hr].
  destruct (available h && available h').
  - constructor; [|exact Hr]. cbn [size].
    apply Z.divide_add_r; [apply Z.divide_add_r; assumption|].
    apply Z.divide_refl.
  - constructor; [exact Hh|]. constructor; assumption.
Qed.

Lemma mark_freed_sizes (l : list HeapHeader) : forall off o,
  Forall (fun r => (8 | size r)) l ->
  Forall (fun r => (8 | size r)) (mark_freed off l o).
Proof.
  induction l as [|h l IH]; intros off o Hall; [constructor|].
  apply Forall_cons in Hall as [Hh Hall]. cbn [mark_freed].
  destruct (o =? off); constructor; auto.
Qed.


Lemma fresh_regions (b0 : HeapBlock) (regs0 : list HeapHeader) :
  m_data b0 = init zero_mem -> layout (m_data b0) 0 regs0 ->
  regs0 = [header_of Empty 16352].
Proof.
  intros He Hl. rewrite He in Hl. symmetry.
  apply (layout_unique _ _ _ _ (layout_init zero_mem) Hl).
Qed.

Lemma used_not_empty (r : HeapHeader) :
  signature r = sig_value Used -> signature r <> sig_value Empty.
Proof. intros -> H. discriminate. Qed.

Lemma used_not_freed (r : HeapHeader) :
  signature r = sig_value Used -> signature r <> sig_value Freed.
Proof. intros -> H. discriminate. Qed.

(** In a served state the regions in use are those of the addresses handed
    out and not taken back, no address is handed out twice, every block is
    coalesced, a block other than the root holds a region in use, and the
    byte lengths of the regions are multiples of eight. *)
Lemma served_more (h : heap) (live : list Z) :
  served h live ->
  used_inv h live /\ tidy_inv h /\ NoDup live /\ sizes_inv h.
Proof.
  intros Hs.
  induction Hs as [h Hi H0 Hbs Hbig
                  |h h' live fuel sz k p Hs (IHu & IHt & IHn & IHs)
                     Hk Hsz Hr Henv Hm
                  |h h' live fuel p Hs (IHu & IHt & IHn & IHs) Hp Henv Hf].
  - (* the root, just constructed *)
    assert (Hone : forall this b regs,
              blocks (lazy_init h) !! this = Some b ->
              layout (m_data b) 0 regs ->
              this = g_heap_storage h /\ regs = [header_of Empty 16352]).
    { intros this b regs. unfold lazy_init. rewrite Hi, Hbs. cbn [blocks].
      rewrite lookup_insert_Some, lookup_empty.
      intros [[<- <-]|[_ ?]] Hl; [|discriminate].
      split; [reflexivity|].
      apply (fresh_regions (HeapBlock_new 0) regs eq_refl Hl). }
    split; [|split; [|split; [constructor|]]].
    + intros this b regs off r Hb Hl Hr Hu.
      destruct (Hone _ _ _ Hb Hl) as [_ ->]. cbn [region_at] in Hr.
      destruct Hr as [[_ ->]|[]]. discriminate.
    + intros this b regs Hb Hl. destruct (Hone _ _ _ Hb Hl) as [-> ->].
      split; [exact I|]. intros Hn. exfalso. apply Hn.
      unfold lazy_init. rewrite Hi. reflexivity.
    + intros this b regs Hb Hl. destruct (Hone _ _ _ Hb Hl) as [_ ->].
      constructor; [|constructor]. exists 2044. reflexivity.
  - (* a request *)
    destruct (served_inv h live Hs) as (l & Hinv).
    destruct (Henv l (proj1 Hinv)) as [Hfresh Hfuel].
    destruct (malloc_places fuel h l live sz k Hinv Hk Hsz Hr Hfresh Hfuel)
      as (h1 & this & o & b0 & b' & regs0 & regs & l' & H1 & Hle & H2 & H3
          & H4 & H5 & H6 & H7 & H8 & H9 & Hinv' & (_ & Hg & _) & Hnew).
    rewrite Hm in H1. injection H1 as <- ->.
    assert (Hco0 : coalesced regs0
              /\ forall x r, region_at 0 regs0 x r ->
                   signature r = sig_value Used ->
                   data_address this + x + sizeof_HeapHeader ∈ live).
    { destruct H2 as [[_ Hb0]|[_ Hd]].
      - split; [apply (IHt this b0 regs0 Hb0 H4)|].
        intros x r Hx Hu. apply (IHu this b0 regs0 x r Hb0 H4 Hx Hu).
      - rewrite (fresh_regions b0 regs0 Hd H4). split; [exact I|].
        intros x r [[_ ->]|[]] Hu. discriminate. }
    assert (Hold : forall t bt regs_t,
              t <> this -> blocks h' !! t = Some bt ->
              layout (m_data bt) 0 regs_t ->
              exists bt0, blocks h !! t = Some bt0
                          /\ layout (m_data bt0) 0 regs_t).
    { intros t bt regs_t Hne Hbt Hlt.
      destruct (H9 t ltac:(eauto)) as [?|[bt0 Hbt0]]; [contradiction|].
      destruct (H8 t bt0 Hne Hbt0) as (bt' & Hbt' & Hd).
      assert (bt' = bt) by congruence. subst bt'.
      exists bt0. split; [exact Hbt0|]. rewrite <- Hd. exact Hlt. }
    assert (Hsz0 : Forall (fun r => (8 | size r)) regs0).
    { destruct H2 as [[_ Hb0]|[_ Hd]]; [apply (IHs this b0 regs0 Hb0 H4)|].
      rewrite (fresh_regions b0 regs0 Hd H4).
      constructor; [|constructor]. exists 2044. reflexivity. }
    split; [|split; [|split]].
    + intros t bt regs_t x r Hbt Hlt Hrt Hu.
      destruct (decide (t = this)) as [->|Hne].
      * assert (bt = b') by congruence. subst bt.
        rewrite <- (layout_unique _ _ _ _ H5 Hlt) in Hrt.
        destruct (region_at_first_fit_inv _ _ _ _ _ _ _ H6 Hrt)
          as [[-> _]|[[_ He]|Hold0]].
        -- apply list_elem_of_here.
        -- exfalso. exact (used_not_empty r Hu He).
        -- apply list_elem_of_further. apply (proj2 Hco0 x r Hold0 Hu).
      * destruct (Hold t bt regs_t Hne Hbt Hlt) as (bt0 & Hbt0 & Hlt0).
        apply list_elem_of_further.
        apply (IHu t bt0 regs_t x r Hbt0 Hlt0 Hrt Hu).
    + intros t bt regs_t Hbt Hlt. rewrite Hg.
      destruct (decide (t = this)) as [->|Hne].
      * assert (bt = b') by congruence. subst bt.
        rewrite <- (layout_unique _ _ _ _ H5 Hlt).
        split; [apply (first_fit_coalesced _ _ _ _ _ (proj1 Hco0) H6)|].
        intros _ Hfe. destruct (first_fit_region _ _ _ _ _ H6) as (Hru & _).
        pose proof (fully_empty_available _ _ _ _ Hfe Hru) as Hav.
        discriminate.
      * destruct (Hold t bt regs_t Hne Hbt Hlt) as (bt0 & Hbt0 & Hlt0).
        apply (IHt t bt0 regs_t Hbt0 Hlt0).
    + apply NoDup_cons. split; assumption.
    + intros t bt regs_t Hbt Hlt.
      destruct (decide (t = this)) as [->|Hne].
      * assert (bt = b') by congruence. subst bt.
        rewrite <- (layout_unique _ _ _ _ H5 Hlt).
        apply (first_fit_sizes _ _ _ _ _ (rounded_multiple_of_8 sz k Hsz Hk)
                 Hsz0 H6).
      * destruct (Hold t bt regs_t Hne Hbt Hlt) as (bt0 & Hbt0 & Hlt0).
        apply (IHs t bt0 regs_t Hbt0 Hlt0).
  - (* a release *)
    destruct (served_inv h live Hs) as (l & Hinv).
    pose proof Hinv as (Hwf & Hinit & Hbig & Hdom & Hlive).
    destruct (Hlive p Hp) as (this & regs & off & Ht & Hlp).
    pose proof (live_in_block_data _ _ _ _ _ Hlp) as Hinp.
    apply list_elem_of_split in Ht as (l1 & l2 & ->).
    destruct (free_releases fuel h l1 this l2 regs off p Hwf Hdom Hbig Hinit
                Hlp (Henv _ Hwf))
      as (h1 & b & H1 & Hb & (_ & Hg & _) & Hoth & Hdom1 & Hcase).
    rewrite Hf in H1. injection H1 as <-.
    destruct Hlp as (b0 & r & Hb0 & Hl & Hr & Hu & Hpa).
    assert (b0 = b) by congruence. subst b0.
    assert (Hold : forall t bt regs_t,
              t <> this -> blocks h' !! t = Some bt ->
              layout (m_data bt) 0 regs_t ->
              exists bt0, blocks h !! t = Some bt0
                          /\ layout (m_data bt0) 0 regs_t).
    { intros t bt regs_t Hne Hbt Hlt.
      destruct (Hdom1 t ltac:(eauto)) as [bt0 Hbt0].
      destruct (Hoth t bt0 Hne Hbt0) as (bt' & Hbt' & Hd).
      assert (bt' = bt) by congruence. subst bt'.
      exists bt0. split; [exact Hbt0|]. rewrite <- Hd. exact Hlt. }
    assert (Hkeep : forall bt regs_t,
              blocks h' !! this = Some bt -> layout (m_data bt) 0 regs_t ->
              regs_t = coalesce (mark_freed 0 regs off)
              /\ ~ (fully_empty regs_t /\ this <> g_heap_storage h)).
    { intros bt regs_t Hbt Hlt.
      destruct Hcase as [(Hn & _)|(b1 & Hb1 & _ & Hl1 & Hnf & _)];
        [congruence|].
      assert (b1 = bt) by congruence. subst b1.
      rewrite (layout_unique _ _ _ _ Hlt Hl1). split; [reflexivity|exact Hnf]. }
    split; [|split; [|split]].
    + intros t bt regs_t x r' Hbt Hlt Hrt Hu'.
      apply list_elem_of_filter.
      destruct (decide (t = this)) as [->|Hne].
      * destruct (Hkeep bt regs_t Hbt Hlt) as [-> _].
        apply region_at_coalesce_inv in Hrt;
          [|apply used_not_available; exact Hu'].
        destruct (region_at_mark_freed_inv _ _ _ _ _ Hrt)
          as (r0 & Hr0 & _ & [->|[_ Hfre]]);
          [|exfalso; exact (used_not_freed r' Hu' Hfre)].
        split; [|apply (IHu this b regs x r0 Hb Hl Hr0 Hu')].
        intros Heq. assert (x = off) by lia. subst x.
        pose proof (layout_mark_freed _ _ _ _ _ Hl Hr) as Hlm.
        destruct (region_at_read _ _ _ _ _ Hlm Hrt) as (Hrd1 & _).
        destruct (region_at_read _ _ _ _ _ Hlm
                    (region_at_mark_freed _ _ _ _ _ Hl Hr)) as (Hrd2 & _).
        rewrite Hrd1 in Hrd2. rewrite Hrd2 in Hu'. discriminate.
      * destruct (Hold t bt regs_t Hne Hbt Hlt) as (bt0 & Hbt0 & Hlt0).
        split; [|apply (IHu t bt0 regs_t x r' Hbt0 Hlt0 Hrt Hu')].
        intros Heq.
        assert (Hint : in_block_data t p).
        { rewrite <- Heq. eapply live_in_block_data.
          exists bt0, r'. split; [exact Hbt0|]. split; [exact Hlt0|].
          split; [exact Hrt|]. split; [exact Hu'|reflexivity]. }
        destruct Hwf as (_ & _ & Hsep & _).
        assert (Htl : t ∈ l1 ++ this :: l2) by (apply Hdom; eauto).
        assert (Hthl : this ∈ l1 ++ this :: l2) by (apply Hdom; eauto).
        pose proof (separated_elems _ t this Hsep Htl Hthl Hne) as Hd.
        exact (in_block_data_separated t this p Hd Hint Hinp).
    + intros t bt regs_t Hbt Hlt. rewrite Hg.
      destruct (decide (t = this)) as [->|Hne].
      * destruct (Hkeep bt regs_t Hbt Hlt) as [He Hnf].
        split; [rewrite He; apply coalesced_coalesce|tauto].
      * destruct (Hold t bt regs_t Hne Hbt Hlt) as (bt0 & Hbt0 & Hlt0).
        apply (IHt t bt0 regs_t Hbt0 Hlt0).
    + apply NoDup_filter. exact IHn.
    + intros t bt regs_t Hbt Hlt.
      destruct (decide (t = this)) as [->|Hne].
      * destruct (Hkeep bt regs_t Hbt Hlt) as [-> _].
        apply coalesce_sizes, mark_freed_sizes, (IHs this b regs Hb Hl).
      * destruct (Hold t bt regs_t Hne Hbt Hlt) as (bt0 & Hbt0 & Hlt0).
        apply (IHs t bt0 regs_t Hbt0 Hlt0).
Qed.





(** X16: the regions tagged [Used] are the addresses handed out and not
    taken back.  In a state reached by calls of [my_malloc] and [my_free]
    no address in use occurs twice, and an address is in use exactly when it
    is the payload of a region tagged [Used] of a block that is mapped. *)
Theorem served_live_are_used (h : heap) (live : list Z) :
  served h live ->
  NoDup live
  /\ forall p,
       p ∈ live
       <-> exists this b regs off r,
             blocks h !! this = Some b /\ layout (m_data b) 0 regs
             /\ region_at 0 regs off r /\ signature r = sig_value Used
             /\ p = data_address this + off + sizeof_HeapHeader.
Proof.
  intros Hs. destruct (served_more h live Hs) as (Hu & _ & Hn & _).
  destruct (served_inv h live Hs) as (l & _ & _ & _ & _ & Hlive).
  split; [exact Hn|]. intros p. split.
  - intros Hp. destruct (Hlive p Hp) as (this & regs & off & _ & b & r & H).
    exists this, b, regs, off, r. tauto.
  - intros (this & b & regs & off & r & Hb & Hl & Hr & Hus & ->).
    apply (Hu this b regs off r Hb Hl Hr Hus).
Qed.










(** ** The theorems at work on concrete states *)

Lemma block_of_lookup (h : heap) (a : Z) :
  match blocks h !! a with Some _ => true | None => false end = true ->
  blocks h !! a = Some (block_of h a).
Proof.
  unfold block_of. destruct (blocks h !! a); [reflexivity|discriminate].
Qed.

Lemma one_alloc_heap_wf : wf_heap one_alloc_heap [g_heap_storage one_alloc_heap].
Proof.
  apply (wf_heap_one one_alloc_heap
           (block_of one_alloc_heap (g_heap_storage one_alloc_heap))
           [header_of Used 8; header_of Empty 16336]).
  - apply block_of_lookup. vm_compute. reflexivity.
  - vm_compute. discriminate.
  - vm_compute. reflexivity.
  - vm_compute. reflexivity.
  - apply (regions_layout 3). vm_compute. reflexivity.
Qed.

Lemma two_block_heap_wf :
  wf_heap two_block_heap [g_heap_storage two_block_heap; bump_mmap 0].
Proof.
  apply (wf_heap_two two_block_heap (bump_mmap 0)
           (block_of two_block_heap (g_heap_storage two_block_heap))
           (block_of two_block_heap (bump_mmap 0))
           [header_of Used 16336; header_of Empty 8]
           [header_of Used 8; header_of Empty 16336]).
  - apply block_of_lookup. vm_compute. reflexivity.
  - apply block_of_lookup. vm_compute. reflexivity.
  - vm_compute. discriminate.
  - vm_compute. discriminate.
  - left. vm_compute. discriminate.
  - vm_compute. reflexivity.
  - vm_compute. reflexivity.
  - vm_compute. reflexivity.
  - vm_compute. reflexivity.
  - apply (regions_layout 3). vm_compute. reflexivity.
  - apply (regions_layout 3). vm_compute. reflexivity.
Qed.

Lemma two_block_marked_wf :
  wf_heap two_block_marked [g_heap_storage two_block_marked; bump_mmap 0].
Proof.
  apply (wf_heap_two two_block_marked (bump_mmap 0)
           (block_of two_block_marked (g_heap_storage two_block_marked))
           (block_of two_block_marked (bump_mmap 0))
           [header_of Used 16336; header_of Empty 8]
           [header_of Freed 8; header_of Empty 16336]).
  - apply block_of_lookup. vm_compute. reflexivity.
  - apply block_of_lookup. vm_compute. reflexivity.
  - vm_compute. discriminate.
  - vm_compute. discriminate.
  - left. vm_compute. discriminate.
  - vm_compute. reflexivity.
  - vm_compute. reflexivity.
  - vm_compute. reflexivity.
  - vm_compute. reflexivity.
  - apply (regions_layout 3). vm_compute. reflexivity.
  - apply (regions_layout 3). vm_compute. reflexivity.
Qed.

Lemma alloc_mem_allocated (m : mem) (sz o : Z) :
  match alloc_walk walk_fuel m 0 sz with
  | Allocated _ off => Some off
  | _ => None
  end = Some o ->
  alloc_walk walk_fuel m 0 sz = Allocated (alloc_mem m sz) o.
Proof.
  unfold alloc_mem. destruct (alloc_walk walk_fuel m 0 sz); try discriminate.
  intros H. injection H as ->. reflexivity.
Qed.

Lemma served_heap_served : served served_heap [0x555555558018].
Proof.
  apply (served_alloc (lazy_init heap0) served_heap [] 1 8 0 0x555555558018).
  - apply served_init; [reflexivity|cbn; lia|reflexivity|reflexivity].
  - lia.
  - lia.
  - change (aligned_size 8 (Z.max sizeof_ptr (2 ^ 0))) with 8. lia.
  - intros l Hl.
    destruct (lazy_init_inv heap0 eq_refl ltac:(cbn; lia) eq_refl eq_refl)
      as (Hwf0 & _).
    rewrite (wf_heap_unique _ _ _ Hl Hwf0). split; [|simpl; lia].
    unfold fresh_block.
    change (mmap_results (lazy_init heap0) (mmap_calls (lazy_init heap0)))
      with 0x7f0000000000.
    change (g_heap_storage heap0) with 0x555555558000.
    unfold MAP_FAILED. cbv zeta.
    split; [lia|]. split; [lia|]. repeat constructor. sizes.
  - transitivity (fst (my_malloc 1 (lazy_init heap0) 8 (2 ^ 0)),
                  snd (my_malloc 1 (lazy_init heap0) 8 (2 ^ 0)));
      [apply surjective_pairing|].
    unfold served_heap. apply (f_equal (pair _)). vm_compute. reflexivity.
Qed.




Lemma cleanup_releases_non_root_witness :
  exists h',
    merge_and_cleanup two_block_marked (bump_mmap 0) = (h', Returned tt)
    /\ g_heap_storage h' = g_heap_storage two_block_marked
    /\ (blocks h' !! bump_mmap 0 = None
        <-> fully_empty
              (coalesce [header_of Freed 8; header_of Empty 16336])
            /\ bump_mmap 0 <> g_heap_storage two_block_marked)
    /\ (blocks h' !! bump_mmap 0 = None ->
        wf_heap h' ([g_heap_storage two_block_marked] ++ []))
    /\ (blocks h' !! bump_mmap 0 <> None ->
        wf_heap h' ([g_heap_storage two_block_marked] ++ bump_mmap 0 :: [])
        /\ exists b', blocks h' !! bump_mmap 0 = Some b'
             /\ layout (m_data b') 0
                  (coalesce [header_of Freed 8; header_of Empty 16336]))
    /\ is_Some (blocks h' !! g_heap_storage h').
Proof.
  apply (cleanup_releases_non_root two_block_marked
           [g_heap_storage two_block_marked] (bump_mmap 0) []
           (block_of two_block_marked (bump_mmap 0))
           [header_of Freed 8; header_of Empty 16336]).
  - exact two_block_marked_wf.
  - apply block_of_lookup. vm_compute. reflexivity.
  - apply (regions_layout 3). vm_compute. reflexivity.
Defined.

Lemma reuse_same_region_witness :
  exists h1 h2 h3,
    HeapBlock_alloc 0 one_alloc_heap (g_heap_storage one_alloc_heap) 16 1
    = (h1, Returned (data_address (g_heap_storage one_alloc_heap) + 16
                     + sizeof_HeapHeader))
    /\ HeapBlock_free 0 h1 (g_heap_storage one_alloc_heap)
         (data_address (g_heap_storage one_alloc_heap) + 16 + sizeof_HeapHeader)
       = (h2, Returned tt)
    /\ HeapBlock_alloc 0 h2 (g_heap_storage one_alloc_heap) 8 1
       = (h3, Returned (data_address (g_heap_storage one_alloc_heap) + 16
                        + sizeof_HeapHeader)).
Proof.
  apply (reuse_same_region 0 one_alloc_heap (g_heap_storage one_alloc_heap)
           (block_of one_alloc_heap (g_heap_storage one_alloc_heap))
           [header_of Used 8; header_of Empty 16336]
           [header_of Used 8; header_of Used 16; header_of Empty 16312]
           [header_of Used 8; header_of Used 8; header_of Empty 16320]
           16 8 1 16).
  - apply block_of_lookup. vm_compute. reflexivity.
  - apply (regions_layout 3). vm_compute. reflexivity.
  - simpl. split; [reflexivity|exact I].
  - left. vm_compute. reflexivity.
  - discriminate.
  - vm_compute. discriminate.
  - vm_compute. reflexivity.
  - vm_compute. reflexivity.
  - vm_compute. discriminate.
  - vm_compute. reflexivity.
  - vm_compute. reflexivity.
  - vm_compute. reflexivity.
  - vm_compute. reflexivity.
Defined.

Lemma layout_invariant_witness :
  layout_inv (init zero_mem)
  /\ layout_inv (alloc_mem (init zero_mem) 8)
  /\ reachable (alloc_mem (init zero_mem) 8).
Proof.
  destruct layout_invariant as (Hinit & Hstep & Hreach & _).
  assert (Hs : step (init zero_mem) (alloc_mem (init zero_mem) 8)).
  { apply (step_alloc _ _ 8 0); [lia|].
    apply alloc_mem_allocated. vm_compute. reflexivity. }
  assert (Hr : reachable (alloc_mem (init zero_mem) 8)).
  { eapply reach_step; [apply reach_init|exact Hs]. }
  split; [apply Hinit|]. split; [|exact Hr].
  apply (Hstep (init zero_mem)); [apply Hreach; apply reach_init|exact Hs].
Defined.


Lemma block_capacity_witness :
  alloc_walk walk_fuel (init zero_mem) 0 16337 = EndOfBlock.
Proof.
  apply (block_capacity (init zero_mem) [header_of Empty 16352] 16337).
  - apply layout_init.
  - lia.
  - lia.
Defined.

Lemma my_malloc_oversized_witness :
  let memory := mmap_results heap0 (mmap_calls heap0) in
  exists h' bytes,
    my_malloc 1 heap0 100000 1 = (h', Returned (memory + sizeof_HeapHeader))
    /\ big_blocks h' !! memory
       = Some (wrap64 (100000 + sizeof_HeapHeader), bytes)
    /\ read_header bytes 0
       = header_of BigBlock (wrap32 (100000 + sizeof_HeapHeader))
    /\ blocks h' = blocks (lazy_init heap0).
Proof.
  apply (my_malloc_oversized 1 heap0 100000 1).
  - vm_compute. reflexivity.
  - vm_compute. discriminate.
  - vm_compute. discriminate.
Defined.

Lemma oversized_round_trip_witness :
  let memory := mmap_results heap0 (mmap_calls heap0) in
  exists h1 h2,
    my_malloc 1 heap0 100000 1 = (h1, Returned (memory + sizeof_HeapHeader))
    /\ my_free 1 h1 (memory + sizeof_HeapHeader) = (h2, Returned tt)
    /\ blocks h2 = blocks (lazy_init heap0)
    /\ big_blocks h2 = big_blocks heap0
    /\ stdout h2 = stdout heap0 ++ [FreeBigBlock].
Proof.
  apply (oversized_round_trip 1 1 heap0 100000 1).
  - vm_compute. reflexivity.
  - vm_compute. reflexivity.
  - vm_compute. discriminate.
  - vm_compute. discriminate.
  - apply lookup_empty.
  - intros a Ha. left.
    unfold lazy_init in Ha. cbn [g_heap_initialized heap0 blocks] in Ha.
    apply lookup_insert_is_Some in Ha as [<-|[_ Ha]].
    + vm_compute. discriminate.
    + rewrite lookup_empty in Ha. destruct Ha. discriminate.
  - intros a len bytes Ha. cbn [big_blocks heap0] in Ha.
    rewrite lookup_empty in Ha. discriminate.
Defined.

Lemma free_foreign_address_aborts_witness :
  HeapBlock_free 0 one_alloc_heap (g_heap_storage one_alloc_heap) 42
  = (print (FreeNotAllocated 42) one_alloc_heap, Aborted).
Proof.
  apply (free_foreign_address_aborts 0 one_alloc_heap
           [g_heap_storage one_alloc_heap] 42).
  - exact one_alloc_heap_wf.
  - intros a Ha. apply list_elem_of_singleton in Ha. subst a.
    unfold in_block_data. vm_compute. intros [H _]. apply H. reflexivity.
  - simpl. lia.
Defined.

Lemma free_invalid_header_aborts_witness :
  let this := g_heap_storage one_alloc_heap in
  let b := block_of one_alloc_heap this in
  let addr := data_address this + 12 in
  let off := addr - sizeof_HeapHeader - data_address this in
  HeapBlock_free 0 one_alloc_heap (g_heap_storage one_alloc_heap) addr
  = (print (FreeInvalidSignature (signature (read_header (m_data b) off))
              (data_address this + off)) one_alloc_heap, Aborted).
Proof.
  apply (free_invalid_header_aborts 0 one_alloc_heap []
           (g_heap_storage one_alloc_heap) []
           (block_of one_alloc_heap (g_heap_storage one_alloc_heap))
           (data_address (g_heap_storage one_alloc_heap) + 12)).
  - exact one_alloc_heap_wf.
  - apply block_of_lookup. vm_compute. reflexivity.
  - vm_compute. split; [discriminate|reflexivity].
  - vm_compute. reflexivity.
  - simpl. lia.
Defined.

Lemma one_alloc_heap_fresh :
  fresh_block one_alloc_heap [g_heap_storage one_alloc_heap].
Proof.
  unfold fresh_block. cbv zeta.
  split; [vm_compute; discriminate|]. split; [vm_compute; discriminate|].
  constructor; [|constructor]. left. vm_compute. discriminate.
Qed.

Lemma grow_appends_block_witness :
  let h := one_alloc_heap in
  let this := g_heap_storage one_alloc_heap in
  let memory := mmap_results h (mmap_calls h) in
  exists h',
    ensure_next_allocated_from_os h this = (h', Returned tt)
    /\ wf_heap h' ([] ++ [this; memory])
    /\ blocks h' !! memory = Some (HeapBlock_new this)
    /\ layout (m_data (HeapBlock_new this)) 0 [header_of Empty 16352]
    /\ (forall a b, a ∈ [] ++ [this] -> blocks h !! a = Some b ->
          exists b', blocks h' !! a = Some b' /\ m_data b' = m_data b)
    /\ mmap_calls h' = S (mmap_calls h).
Proof.
  apply (grow_appends_block one_alloc_heap []
           (g_heap_storage one_alloc_heap)).
  - exact one_alloc_heap_wf.
  - exact one_alloc_heap_fresh.
Defined.

Lemma alloc_free_restores_witness :
  let h := one_alloc_heap in
  let this := g_heap_storage one_alloc_heap in
  let b := block_of h this in
  let l1 := [header_of Used 8] in
  let r := header_of Empty 16336 in
  let p := data_address this + span l1 + sizeof_HeapHeader in
  exists h1 h2 m2,
    HeapBlock_alloc 0 h this 16 1 = (h1, Returned p)
    /\ HeapBlock_free 0 h1 this p = (h2, Returned tt)
    /\ blocks h2 !! this = Some (mkBlock (m_prev b) (m_next b) m2)
    /\ layout m2 0 (l1 ++ mkHeader (sig_value Freed) (size r) :: []).
Proof.
  apply (alloc_free_restores 0 one_alloc_heap
           (g_heap_storage one_alloc_heap)
           (block_of one_alloc_heap (g_heap_storage one_alloc_heap))
           [header_of Used 8] (header_of Empty 16336) [] 16 1).
  - apply block_of_lookup. vm_compute. reflexivity.
  - apply (regions_layout 3). vm_compute. reflexivity.
  - simpl. split; [reflexivity|exact I].
  - right. discriminate.
  - discriminate.
  - vm_compute. discriminate.
  - vm_compute. reflexivity.
  - constructor; [|constructor]. intros [H _]. discriminate.
  - reflexivity.
  - vm_compute. discriminate.
Defined.

Lemma cleanup_coalesced_unchanged_witness :
  let h := one_alloc_heap in
  let this := g_heap_storage one_alloc_heap in
  let b := block_of h this in
  let regs := [header_of Used 8; header_of Empty 16336] in
  exists m',
    merge_and_cleanup h this = (set_data h this b m', Returned tt)
    /\ layout m' 0 regs
    /\ (forall x, (forall o r, region_at 0 regs o r -> x < o + 4 \/ o + 8 <= x) ->
                  m' x = m_data b x).
Proof.
  apply (cleanup_coalesced_unchanged one_alloc_heap
           (g_heap_storage one_alloc_heap)
           (block_of one_alloc_heap (g_heap_storage one_alloc_heap))
           [header_of Used 8; header_of Empty 16336]).
  - apply block_of_lookup. vm_compute. reflexivity.
  - apply (regions_layout 3). vm_compute. reflexivity.
  - simpl. split; [reflexivity|exact I].
  - intros [(x & Hx & _) _]. discriminate.
Defined.

Lemma one_alloc_heap_regions :
  regions_of one_alloc_heap
    [(g_heap_storage one_alloc_heap,
      [header_of Used 8; header_of Empty 16336])].
Proof.
  constructor; [|constructor].
  exists (block_of one_alloc_heap (g_heap_storage one_alloc_heap)).
  split.
  - apply block_of_lookup. vm_compute. reflexivity.
  - apply (regions_layout 3). vm_compute. reflexivity.
Qed.

Lemma leak_check_reports_used_witness :
  let h := one_alloc_heap in
  let lr := [(g_heap_storage one_alloc_heap,
              [header_of Used 8; header_of Empty 16336])] in
  my_leak_check 0 h = (print_all (leak_report lr) h, Returned tt)
  /\ blocks (print_all (leak_report lr) h) = blocks h
  /\ stdout (print_all (leak_report lr) h) = stdout h ++ leak_report lr.
Proof.
  apply (leak_check_reports_used 0 one_alloc_heap
           [(g_heap_storage one_alloc_heap,
             [header_of Used 8; header_of Empty 16336])]).
  - exact one_alloc_heap_wf.
  - exact one_alloc_heap_regions.
  - simpl. lia.
Defined.

Lemma heap_dump_lists_regions_witness :
  let h := one_alloc_heap in
  let lr := [(g_heap_storage one_alloc_heap,
              [header_of Used 8; header_of Empty 16336])] in
  my_heap_dump 0 h
  = (print_all (DumpBegin :: dump_report lr 0 ++ [DumpEnd]) h, Returned tt)
  /\ blocks (print_all (DumpBegin :: dump_report lr 0 ++ [DumpEnd]) h)
     = blocks h.
Proof.
  apply (heap_dump_lists_regions 0 one_alloc_heap
           [(g_heap_storage one_alloc_heap,
             [header_of Used 8; header_of Empty 16336])]).
  - vm_compute. reflexivity.
  - exact one_alloc_heap_wf.
  - exact one_alloc_heap_regions.
  - simpl. lia.
Defined.




Lemma served_wf_inv (h : heap) (l live : list Z) :
  served h live -> wf_heap h l -> heap_inv h l live.
Proof.
  intros Hs Hwf. destruct (served_inv h live Hs) as (l' & Hinv).
  rewrite (wf_heap_unique h l l' Hwf (proj1 Hinv)). exact Hinv.
Qed.

Lemma served_heap_wf : wf_heap served_heap [g_heap_storage served_heap].
Proof.
  apply (wf_heap_one served_heap
           (block_of served_heap (g_heap_storage served_heap))
           [header_of Used 8; header_of Empty 16336]).
  - apply block_of_lookup. vm_compute. reflexivity.
  - vm_compute. discriminate.
  - vm_compute. reflexivity.
  - vm_compute. reflexivity.
  - apply (regions_layout 3). vm_compute. reflexivity.
Qed.


Lemma served_heap_fresh : fresh_block served_heap [g_heap_storage served_heap].
Proof.
  unfold fresh_block. cbv zeta.
  split; [vm_compute; discriminate|]. split; [vm_compute; discriminate|].
  constructor; [|constructor]. left. vm_compute. discriminate.
Qed.

Lemma two_alloc_heap_malloc :
  my_malloc 1 served_heap 24 (2 ^ 0)
  = (two_alloc_heap, Returned 0x555555558028).
Proof.
  transitivity (fst (my_malloc 1 served_heap 24 (2 ^ 0)),
                snd (my_malloc 1 served_heap 24 (2 ^ 0)));
    [apply surjective_pairing|].
  unfold two_alloc_heap. apply (f_equal (pair _)). vm_compute. reflexivity.
Qed.

Lemma two_alloc_heap_served :
  served two_alloc_heap [0x555555558028; 0x555555558018].
Proof.
  apply (served_alloc served_heap two_alloc_heap [0x555555558018] 1 24 0
           0x555555558028).
  - exact served_heap_served.
  - lia.
  - lia.
  - vm_compute. discriminate.
  - intros l Hl. rewrite (wf_heap_unique _ _ _ Hl served_heap_wf).
    split; [exact served_heap_fresh|simpl; lia].
  - exact two_alloc_heap_malloc.
Qed.

Lemma two_alloc_heap_wf : wf_heap two_alloc_heap [g_heap_storage two_alloc_heap].
Proof.
  apply (wf_heap_one two_alloc_heap
           (block_of two_alloc_heap (g_heap_storage two_alloc_heap))
           [header_of Used 8; header_of Used 24; header_of Empty 16304]).
  - apply block_of_lookup. vm_compute. reflexivity.
  - vm_compute. discriminate.
  - vm_compute. reflexivity.
  - vm_compute. reflexivity.
  - apply (regions_layout 4). vm_compute. reflexivity.
Qed.

Lemma two_alloc_heap_inv :
  heap_inv two_alloc_heap [g_heap_storage two_alloc_heap]
    [0x555555558028; 0x555555558018].
Proof. exact (served_wf_inv _ _ _ two_alloc_heap_served two_alloc_heap_wf). Qed.

Lemma live_regions_disjoint_witness :
  exists sp sq,
    load_mapped two_alloc_heap (0x555555558028 - 4) = Some sp
    /\ load_mapped two_alloc_heap (0x555555558018 - 4) = Some sq
    /\ 0 < sp /\ 0 < sq
    /\ (0x555555558028 + sp <= 0x555555558018 - 8
        \/ 0x555555558018 + sq <= 0x555555558028 - 8).
Proof.
  apply (live_regions_disjoint two_alloc_heap [g_heap_storage two_alloc_heap]
           [0x555555558028; 0x555555558018]).
  - exact two_alloc_heap_inv.
  - apply list_elem_of_here.
  - apply list_elem_of_further, list_elem_of_here.
  - discriminate.
Defined.



Lemma served_live_are_used_witness :
  NoDup [0x555555558028; 0x555555558018]
  /\ forall p,
       p ∈ [0x555555558028; 0x555555558018]
       <-> exists this b regs off r,
             blocks two_alloc_heap !! this = Some b
             /\ layout (m_data b) 0 regs
             /\ region_at 0 regs off r /\ signature r = sig_value Used
             /\ p = data_address this + off + sizeof_HeapHeader.
Proof.
  apply (served_live_are_used two_alloc_heap [0x555555558028; 0x555555558018]).
  exact two_alloc_heap_served.
Defined.










